(** * Piece manager of the BitTorrent client: model and verified properties

  A shallow embedding of [piece_manager.py].  Python integers are [Z],
  [bytes] and [bytearray] are lists of [byte], dictionaries are [gmap],
  sets are [gset], the floats of the rate limiter are the binary64 values
  of [SpecFloat].  A Python object reference to a [Block] is the position
  of the block in the [blocks] list of its piece, so that mutating a block
  reached through [get_missing_blocks] mutates the piece.  The lock only
  serialises the operations; every operation is one atomic state
  transformer here.  The [print] calls are left out, and the completion
  callback is represented by the record of its calls. *)

From Stdlib Require Import ZArith QArith Lqa Strings.Byte Sorting.Sorted Sorting.Permutation Lia.
From Stdlib Require Import Qpower SpecFloat.
From stdpp Require Import base option list gmap sorting.

Local Open Scope Z_scope.

#[global] Instance byte_eq_dec : EqDecision byte := Byte.byte_eq_dec.

(** [utils.sha1_hash] is imported by the module and not defined in it: the
  development is parametric in it. *)
Class Sha1 := sha1_hash : list byte → list byte.

(** Standard block size for BitTorrent (16KB). *)
Definition BLOCK_SIZE : Z := 16384.

(** [len(x)] as a Python integer. *)
Definition len {A} (l : list A) : Z := Z.of_nat (length l).

(** ** Block *)
Module Block.

Record t := mk {
  piece_index : Z;
  offset : Z;
  length : Z;
  data : option (list byte);
  requested : bool;
  received : bool
}.

Definition init (piece_index offset length : Z) : t :=
  mk piece_index offset length None false false.

Definition set_requested (v : bool) (b : t) : t :=
  mk (piece_index b) (offset b) (length b) (data b) v (received b).

(** [block.data = data; block.received = True] *)
Definition store (d : list byte) (b : t) : t :=
  mk (piece_index b) (offset b) (length b) (Some d) (requested b) true.

(** [block.data = None; block.received = False; block.requested = False] *)
Definition clear (b : t) : t :=
  mk (piece_index b) (offset b) (length b) None false false.

(** The part of a block that is fixed at creation. *)
Definition shape (b : t) : Z * Z * Z := (piece_index b, offset b, length b).

(** The three states of the specification. *)
Inductive state := Missing | Requested | Received.

Definition state_of (b : t) : state :=
  if received b then Received else if requested b then Requested else Missing.

End Block.

(** ** Piece *)
Module Piece.

Record t := mk {
  index : Z;
  length : Z;
  hash_value : list byte;
  blocks : list Block.t;
  completed : bool;
  verified : bool;
  data : list byte
}.

Definition set_blocks (bs : list Block.t) (p : t) : t :=
  mk (index p) (length p) (hash_value p) bs (completed p) (verified p) (data p).
Definition set_completed (v : bool) (p : t) : t :=
  mk (index p) (length p) (hash_value p) (blocks p) v (verified p) (data p).
Definition set_verified (v : bool) (p : t) : t :=
  mk (index p) (length p) (hash_value p) (blocks p) (completed p) v (data p).
Definition set_data (d : list byte) (p : t) : t :=
  mk (index p) (length p) (hash_value p) (blocks p) (completed p) (verified p) d.

(** [bytearray(n)]: [n] zero bytes ([n] is a piece length, not negative). *)
Definition bytearray (n : Z) : list byte := replicate (Z.to_nat n) x00.

(** The [while offset < self.length] loop of [_create_blocks].  [None]
    means the fuel ran out before the guard failed; [create_blocks_loop_fuel]
    shows that this does not happen with the fuel [create_blocks] gives. *)
Fixpoint create_blocks_loop (fuel : nat) (index length offset : Z)
  : option (list Block.t) :=
  if offset <? length then
    match fuel with
    | O => None
    | S fuel' =>
        let block_length := Z.min BLOCK_SIZE (length - offset) in
        cons (Block.init index offset block_length)
          <$> create_blocks_loop fuel' index length (offset + block_length)
    end
  else Some [].

Definition create_blocks (index length : Z) : list Block.t :=
  default [] (create_blocks_loop (Z.to_nat length) index length 0).

Definition init (index length : Z) (hash_value : list byte) : t :=
  mk index length hash_value (create_blocks index length) false false
     (bytearray length).

(** [all(block.received for block in self.blocks)] *)
Definition is_complete (p : t) : bool := forallb Block.received (blocks p).

Definition verify `{Sha1} (p : t) : bool :=
  if negb (completed p) then false
  else bool_decide (sha1_hash (data p) = hash_value p).

(** A Python slice bound [i] of a sequence of [n] items, clipped. *)
Definition slice_bound (n i : Z) : Z :=
  if i <? 0 then Z.max 0 (i + n) else Z.min i n.

(** [buf[start:stop] = d] on a [bytearray]. *)
Definition slice_assign (buf : list byte) (start stop : Z) (d : list byte)
  : list byte :=
  let lo := slice_bound (len buf) start in
  let hi := Z.max lo (slice_bound (len buf) stop) in
  take (Z.to_nat lo) buf ++ d ++ drop (Z.to_nat hi) buf.

(** The [for block in self.blocks] loop of [add_block_data]: the position
    of the first block with this offset and length that is not received
    yet; a block that matches but is received lets the loop go on. *)
Fixpoint find_slot (offset n : Z) (bs : list Block.t) (k : nat) : option nat :=
  match bs with
  | [] => None
  | b :: bs' =>
      if (Block.offset b =? offset) && (Block.length b =? n) then
        if negb (Block.received b) then Some k
        else find_slot offset n bs' (S k)
      else find_slot offset n bs' (S k)
  end.

Definition add_block_data `{Sha1} (offset : Z) (d : list byte) (p : t)
  : bool * t :=
  if offset + len d >? length p then (false, p)
  else
    match find_slot offset (len d) (blocks p) 0 with
    | None => (false, p)
    | Some k =>
        let p1 := set_blocks (alter (Block.store d) k (blocks p)) p in
        let p2 := set_data (slice_assign (data p1) offset (offset + len d) d) p1 in
        let p3 :=
          if is_complete p2 then
            let p' := set_completed true p2 in
            set_verified (verify p') p'
          else p2 in
        (true, p3)
    end.

(** Blocks are returned by reference: each with its position in [blocks]. *)
Definition get_missing_blocks (p : t) : list (nat * Block.t) :=
  filter (λ kb, Block.received kb.2 = false ∧ Block.requested kb.2 = false)
         (imap pair (blocks p)).

Definition get_requested_blocks (p : t) : list (nat * Block.t) :=
  filter (λ kb, Block.requested kb.2 = true ∧ Block.received kb.2 = false)
         (imap pair (blocks p)).

Definition reset_block_requests (p : t) : t :=
  set_blocks
    ((λ b, if negb (Block.received b) then Block.set_requested false b else b)
       <$> blocks p) p.

(** The reset of [PieceManager.add_piece_data] after a failed verification. *)
Definition reset (p : t) : t :=
  mk (index p) (length p) (hash_value p) (Block.clear <$> blocks p)
     false false (bytearray (length p)).

Definition shapes (p : t) : list (Z * Z * Z) := Block.shape <$> blocks p.

(** [bs] covers [[a, e)] block after block, without gap or overlap. *)
Fixpoint tiles (bs : list Block.t) (a e : Z) : Prop :=
  match bs with
  | [] => a = e
  | b :: bs' =>
      Block.offset b = a ∧ 0 < Block.length b ∧ tiles bs' (a + Block.length b) e
  end.

End Piece.

(** ** Sorting as [list.sort] does it

    [list.sort(key=..., reverse=...)] is a stable sort, also with
    [reverse=True]: items with equal keys keep their order.  A stable sort
    has one possible result, which the insertion sort below computes. *)
Fixpoint insert_by {A} (before : A → A → bool) (x : A) (l : list A) : list A :=
  match l with
  | [] => [x]
  | y :: l' => if before x y then x :: l else y :: insert_by before x l'
  end.

Definition key_before {A} (key : A → Z) (reverse : bool) (x y : A) : bool :=
  if reverse then key y <=? key x else key x <=? key y.

Definition list_sort {A} (key : A → Z) (reverse : bool) (l : list A) : list A :=
  foldr (insert_by (key_before key reverse)) [] l.

(** [range(n)] *)
Definition range (n : Z) : list Z := Z.of_nat <$> seq 0 (Z.to_nat n).

(** Exceptions that the modelled code can raise. *)
Inductive exn := ZeroDivisionError | OverflowError.

(** ** Floating-point numbers

    A Python [float] is an IEEE 754 binary64 value: a [spec_float] of the
    standard library's specification of floating-point arithmetic, at the
    precision 53 and the exponent bound 1024.  The operations round to
    nearest, ties to even. *)
Definition float : Type := spec_float.

(** [x - y] and [x + y] on floats. *)
Definition float_sub (x y : float) : float := SFsub 53 1024 x y.
Definition float_add (x y : float) : float := SFadd 53 1024 x y.

(** [a / b] on integers, the true division: the float nearest to the exact
    quotient.  Python raises [ZeroDivisionError] for a zero divisor and
    [OverflowError] where the rounded quotient is beyond the largest float;
    a quotient too small for a float is a zero. *)
Definition int_true_divide (a b : Z) : exn + float :=
  if b =? 0 then inl ZeroDivisionError
  else
    let negative := xorb (a <? 0) (b <? 0) in
    if a =? 0 then inr (S754_zero negative)
    else
      let '(mz, ez, lz) := SFdiv_core_binary 53 1024 (Z.abs a) 0 (Z.abs b) 0 in
      match binary_round_aux 53 1024 negative mz ez lz with
      | S754_infinity _ => inl OverflowError
      | q => inr q
      end.

(** [x <= n] for a float [x] and an integer [n]: Python compares the two
    values exactly, without rounding [n] to a float; a NaN compares false. *)
Definition float_le_int (x : float) (n : Z) : bool :=
  match x with
  | S754_nan => false
  | S754_infinity negative => negative
  | S754_zero _ => 0 <=? n
  | S754_finite negative mx ex =>
      let v := if negative then Z.neg mx else Z.pos mx in
      if 0 <=? ex then v * 2 ^ ex <=? n else v <=? n * 2 ^ (- ex)
  end.

(** The exact value of a finite float. *)
Definition float_exact (x : float) : option Q :=
  match x with
  | S754_zero _ => Some 0%Q
  | S754_finite negative mx ex =>
      Some (inject_Z (if negative then Z.neg mx else Z.pos mx) * 2 ^ ex)%Q
  | _ => None
  end.

(** ** The torrent metadata, as far as the piece manager reads it *)
Record TorrentFile := {
  get_total_pieces : Z;
  get_piece_length : Z → Z;
  get_piece_hash : Z → list byte;
  total_length : Z
}.

(** ** PieceManager *)
Module PieceManager.

(** [on_piece_completed] tells whether a callback is registered; the calls
    made to it are recorded, in order, in [delivered].  The timestamps of
    [time.time()] and the rates computed from the byte counts are floats. *)
Record t := mk {
  torrent : TorrentFile;
  pieces : gmap Z Piece.t;
  completed_pieces : gset Z;
  download_rate_limit : Z;
  bytes_downloaded_window : list (float * Z);
  rate_window_size : Z;
  high_priority_pieces : gset Z;
  piece_priorities : gmap Z Z;
  on_piece_completed : bool;
  delivered : list (Z * list byte)
}.

Definition set_pieces (v : gmap Z Piece.t) (m : t) : t :=
  mk (torrent m) v (completed_pieces m) (download_rate_limit m)
     (bytes_downloaded_window m) (rate_window_size m) (high_priority_pieces m)
     (piece_priorities m) (on_piece_completed m) (delivered m).
Definition set_completed_pieces (v : gset Z) (m : t) : t :=
  mk (torrent m) (pieces m) v (download_rate_limit m)
     (bytes_downloaded_window m) (rate_window_size m) (high_priority_pieces m)
     (piece_priorities m) (on_piece_completed m) (delivered m).
Definition set_rate_limit (v : Z) (m : t) : t :=
  mk (torrent m) (pieces m) (completed_pieces m) v
     (bytes_downloaded_window m) (rate_window_size m) (high_priority_pieces m)
     (piece_priorities m) (on_piece_completed m) (delivered m).
Definition set_window (v : list (float * Z)) (m : t) : t :=
  mk (torrent m) (pieces m) (completed_pieces m) (download_rate_limit m)
     v (rate_window_size m) (high_priority_pieces m)
     (piece_priorities m) (on_piece_completed m) (delivered m).
Definition set_high_priority_pieces (v : gset Z) (m : t) : t :=
  mk (torrent m) (pieces m) (completed_pieces m) (download_rate_limit m)
     (bytes_downloaded_window m) (rate_window_size m) v
     (piece_priorities m) (on_piece_completed m) (delivered m).
Definition set_piece_priorities (v : gmap Z Z) (m : t) : t :=
  mk (torrent m) (pieces m) (completed_pieces m) (download_rate_limit m)
     (bytes_downloaded_window m) (rate_window_size m) (high_priority_pieces m)
     v (on_piece_completed m) (delivered m).
Definition set_on_piece_completed (v : bool) (m : t) : t :=
  mk (torrent m) (pieces m) (completed_pieces m) (download_rate_limit m)
     (bytes_downloaded_window m) (rate_window_size m) (high_priority_pieces m)
     (piece_priorities m) v (delivered m).
Definition set_delivered (v : list (Z * list byte)) (m : t) : t :=
  mk (torrent m) (pieces m) (completed_pieces m) (download_rate_limit m)
     (bytes_downloaded_window m) (rate_window_size m) (high_priority_pieces m)
     (piece_priorities m) (on_piece_completed m) v.

(** [_initialize_pieces] *)
Definition initialize_pieces (tf : TorrentFile) : gmap Z Piece.t :=
  foldl (λ ps i, <[i := Piece.init i (get_piece_length tf i) (get_piece_hash tf i)]> ps)
        ∅ (range (get_total_pieces tf)).

(** [__init__] *)
Definition init (tf : TorrentFile) : t :=
  mk tf (initialize_pieces tf) ∅ (1024 * 1024) [] 5 ∅ ∅ false [].

Definition add_piece_data `{Sha1} (piece_index offset : Z) (d : list byte) (m : t)
  : bool * t :=
  match pieces m !! piece_index with
  | None => (false, m)
  | Some piece =>
      if Piece.completed piece then (true, m)
      else
        let '(success, piece) := Piece.add_block_data offset d piece in
        let m := set_pieces (<[piece_index := piece]> (pieces m)) m in
        if success && Piece.completed piece then
          if Piece.verified piece then
            let m := set_completed_pieces ({[piece_index]} ∪ completed_pieces m) m in
            let m :=
              if on_piece_completed m
              then set_delivered (delivered m ++ [(piece_index, Piece.data piece)]) m
              else m in
            (success, m)
          else
            (success, set_pieces (<[piece_index := Piece.reset piece]> (pieces m)) m)
        else (success, m)
  end.

(** [self.piece_priorities.get(p, 5)] *)
Definition priority (m : t) (p : Z) : Z := default 5 (piece_priorities m !! p).

(** [len(self.pieces[p].get_missing_blocks())]; the sort only sees tracked
    indices, see [needed_pieces]. *)
Definition missing_count (m : t) (p : Z) : Z :=
  match pieces m !! p with
  | Some piece => len (Piece.get_missing_blocks piece)
  | None => 0
  end.

(** The candidates, in the order in which the set is iterated. *)
Definition needed_pieces (available_pieces : list Z) (m : t) : list Z :=
  filter (λ i, i ∈ dom (pieces m) ∧ i ∉ completed_pieces m) available_pieces.

(** The candidate list after the two [sort] calls. *)
Definition request_order (available_pieces : list Z) (m : t) : list Z :=
  let needed := needed_pieces available_pieces m in
  let high_priority := filter (λ p, p ∈ high_priority_pieces m) needed in
  let needed :=
    match high_priority with
    | _ :: _ => high_priority
    | [] => list_sort (priority m) true needed
    end in
  list_sort (missing_count m) false needed.

(** The final [for piece_index in needed_pieces] loop.  Every index of the
    list is tracked ([request_order_tracked]), so [self.pieces[piece_index]]
    finds its piece. *)
Fixpoint request_loop (needed : list Z) (m : t) : option (Z * Z * Z) * t :=
  match needed with
  | [] => (None, m)
  | piece_index :: rest =>
      match pieces m !! piece_index with
      | None => request_loop rest m
      | Some piece =>
          match Piece.get_missing_blocks piece with
          | [] => request_loop rest m
          | (k, block) :: _ =>
              let piece' :=
                Piece.set_blocks
                  (alter (Block.set_requested true) k (Piece.blocks piece)) piece in
              (Some (piece_index, Block.offset block, Block.length block),
               set_pieces (<[piece_index := piece']> (pieces m)) m)
          end
      end
  end.

(** [available_pieces] is the set argument, given in its iteration order. *)
Definition get_next_request (available_pieces : list Z) (m : t)
  : option (Z * Z * Z) * t :=
  match needed_pieces available_pieces m with
  | [] => (None, m)
  | _ :: _ => request_loop (request_order available_pieces m) m
  end.

Definition mark_block_requested (piece_index offset : Z) (m : t) : t :=
  match pieces m !! piece_index with
  | None => m
  | Some piece =>
      match list_find (λ b, Block.offset b = offset) (Piece.blocks piece) with
      | None => m
      | Some (k, _) =>
          let piece' :=
            Piece.set_blocks
              (alter (Block.set_requested true) k (Piece.blocks piece)) piece in
          set_pieces (<[piece_index := piece']> (pieces m)) m
      end
  end.

Definition reset_piece_requests (piece_index : Z) (m : t) : t :=
  match pieces m !! piece_index with
  | None => m
  | Some piece =>
      set_pieces (<[piece_index := Piece.reset_block_requests piece]> (pieces m)) m
  end.

Definition is_complete (m : t) : bool :=
  bool_decide (size (completed_pieces m) = size (pieces m)).

Definition set_download_rate_limit (bytes_per_second : Z) (m : t) : t :=
  set_rate_limit bytes_per_second m.

(** The samples that [check_rate_limit] keeps at time [now]:
    [current_time - t <= self.rate_window_size], a float subtraction and the
    comparison of its result with an integer. *)
Definition in_window (now : float) (m : t) (tb : float * Z) : bool :=
  float_le_int (float_sub now tb.1) (rate_window_size m).

(** [sum(bytes for _, bytes in self.bytes_downloaded_window)] *)
Definition window_bytes (w : list (float * Z)) : Z := foldr (λ tb s, tb.2 + s) 0 w.

(** [current_time] is the value that [time.time()] returns in the call.
    The window is pruned before the divisions, so it stays pruned when one
    of them raises.  The [0] of an empty window is an integer, which the
    addition turns into the float [0.0]. *)
Definition check_rate_limit (current_time : float) (bytes_to_download : Z) (m : t)
  : (exn + bool) * t :=
  let window := filter (λ tb, in_window current_time m tb) (bytes_downloaded_window m) in
  let m := set_window window m in
  let total_bytes := window_bytes window in
  let current_rate : exn + float :=
    match window with
    | _ :: _ => int_true_divide total_bytes (rate_window_size m)
    | [] => inr (S754_zero false)
    end in
  (match current_rate with
   | inl e => inl e
   | inr current_rate =>
       match int_true_divide bytes_to_download (rate_window_size m) with
       | inl e => inl e
       | inr requested_rate =>
           inr (float_le_int (float_add current_rate requested_rate)
                             (download_rate_limit m))
       end
   end, m).

Definition update_rate_stats (current_time : float) (bytes_downloaded : Z) (m : t) : t :=
  set_window (bytes_downloaded_window m ++ [(current_time, bytes_downloaded)]) m.

Definition get_completed_pieces (m : t) : gset Z := completed_pieces m.

Definition get_piece_data (piece_index : Z) (m : t) : option (list byte) :=
  if bool_decide (piece_index ∈ completed_pieces m) then
    Piece.data <$> pieces m !! piece_index
  else None.

Definition set_piece_priority (piece_index priority : Z) (m : t) : t :=
  if (1 <=? priority) && (priority <=? 10)
  then set_piece_priorities (<[piece_index := priority]> (piece_priorities m)) m
  else m.

Definition set_high_priority_piece (piece_index : Z) (m : t) : t :=
  set_high_priority_pieces ({[piece_index]} ∪ high_priority_pieces m) m.

(** [a // b] *)
Definition floordiv (a b : Z) : exn + Z :=
  if b =? 0 then inl ZeroDivisionError else inr (a / b).

(** The loop of [set_sequential_download(True)]; an exception leaves the
    manager as the iterations before it made it. *)
Fixpoint sequential_loop (indices : list Z) (total_pieces : Z) (m : t) : option exn * t :=
  match indices with
  | [] => (None, m)
  | i :: rest =>
      match floordiv total_pieces 10 with
      | inl e => (Some e, m)
      | inr width =>
          match floordiv i width with
          | inl e => (Some e, m)
          | inr bucket =>
              sequential_loop rest total_pieces (set_piece_priority i (10 - bucket) m)
          end
      end
  end.

Definition set_sequential_download (enable : bool) (m : t) : option exn * t :=
  if enable then
    let total_pieces := Z.of_nat (size (pieces m)) in
    sequential_loop (range total_pieces) total_pieces m
  else (None, set_piece_priorities ∅ m).

(** *** The public operations and the states they reach *)
Inductive op :=
| AddPieceData (piece_index offset : Z) (d : list byte)
| GetNextRequest (available_pieces : list Z)
| MarkBlockRequested (piece_index offset : Z)
| ResetPieceRequests (piece_index : Z)
| SetDownloadRateLimit (bytes_per_second : Z)
| CheckRateLimit (current_time : float) (bytes_to_download : Z)
| UpdateRateStats (current_time : float) (bytes_downloaded : Z)
| SetPiecePriority (piece_index priority : Z)
| SetHighPriorityPiece (piece_index : Z)
| SetSequentialDownload (enable : bool)
| SetOnPieceCompleted (registered : bool).

(** The manager after an operation (results and exceptions dropped). *)
Definition exec `{Sha1} (o : op) (m : t) : t :=
  match o with
  | AddPieceData i off d => (add_piece_data i off d m).2
  | GetNextRequest avail => (get_next_request avail m).2
  | MarkBlockRequested i off => mark_block_requested i off m
  | ResetPieceRequests i => reset_piece_requests i m
  | SetDownloadRateLimit n => set_download_rate_limit n m
  | CheckRateLimit now n => (check_rate_limit now n m).2
  | UpdateRateStats now n => update_rate_stats now n m
  | SetPiecePriority i p => set_piece_priority i p m
  | SetHighPriorityPiece i => set_high_priority_piece i m
  | SetSequentialDownload enable => (set_sequential_download enable m).2
  | SetOnPieceCompleted b => set_on_piece_completed b m
  end.

(** Construction needs piece lengths that [bytearray] accepts. *)
Definition valid_torrent (tf : TorrentFile) : Prop :=
  ∀ i, 0 <= i < get_total_pieces tf → 0 <= get_piece_length tf i.

Inductive reachable `{Sha1} (tf : TorrentFile) : t → Prop :=
| reachable_init : valid_torrent tf → reachable tf (init tf)
| reachable_exec o m : reachable tf m → reachable tf (exec o m).

End PieceManager.

(** ** The invariant of the reachable states *)

(** What holds of the piece tracked under index [i]. *)
Definition piece_ok `{Sha1} (tf : TorrentFile) (i : Z) (p : Piece.t) : Prop :=
  0 <= i < get_total_pieces tf
  ∧ Piece.index p = i
  ∧ Piece.length p = get_piece_length tf i
  ∧ 0 <= Piece.length p
  ∧ Piece.hash_value p = get_piece_hash tf i
  ∧ Piece.shapes p = Block.shape <$> Piece.create_blocks i (Piece.length p)
  ∧ (Piece.completed p = true →
     Piece.verified p = true
     ∧ forallb Block.received (Piece.blocks p) = true
     ∧ sha1_hash (Piece.data p) = Piece.hash_value p).

Definition invariant `{Sha1} (tf : TorrentFile) (m : PieceManager.t) : Prop :=
  PieceManager.torrent m = tf
  ∧ PieceManager.rate_window_size m = 5
  ∧ (∀ i, is_Some (PieceManager.pieces m !! i) ↔ 0 <= i < get_total_pieces tf)
  ∧ (∀ i p, PieceManager.pieces m !! i = Some p →
            piece_ok tf i p
            ∧ (i ∈ PieceManager.completed_pieces m ↔ Piece.completed p = true))
  ∧ (∀ i, i ∈ PieceManager.completed_pieces m →
          is_Some (PieceManager.pieces m !! i)).

(** ** The selection order in the words of the specification

    Steps 2 to 4 of the specification of [get_next_request]: restrict the
    candidates to the high-priority ones if there are any, sort by numeric
    priority descending, then sort by the number of missing blocks
    ascending.  [PieceManager.request_order] is the order the code builds. *)
Definition spec_request_order (available_pieces : list Z) (m : PieceManager.t)
  : list Z :=
  let needed := PieceManager.needed_pieces available_pieces m in
  let high_priority :=
    filter (λ p, p ∈ PieceManager.high_priority_pieces m) needed in
  let needed :=
    match high_priority with
    | _ :: _ => high_priority
    | [] => needed
    end in
  list_sort (PieceManager.missing_count m) false
    (list_sort (PieceManager.priority m) true needed).

(** The priority that the specification gives piece [i] in sequential mode. *)
Definition spec_sequential_priority (total_pieces i : Z) : Z :=
  10 - i / (total_pieces / 10).

(** ** Sample inputs *)

(** A stand-in for the digest, to run the model on samples: the first byte. *)
Definition sample_hash : Sha1 := λ d, take 1 d.

(** Two pieces of four bytes, one block each; the digest wants a first
    byte [x01]. *)
Definition small_torrent : TorrentFile :=
  {| get_total_pieces := 2;
     get_piece_length := λ _, 4;
     get_piece_hash := λ _, [x01];
     total_length := 8 |}.

(** Piece 0 has five blocks, piece 1 has one. *)
Definition wide_torrent : TorrentFile :=
  {| get_total_pieces := 2;
     get_piece_length := λ i, if i =? 0 then 81920 else 16384;
     get_piece_hash := λ _, [x00];
     total_length := 98304 |}.

(** Eleven pieces of one byte. *)
Definition eleven_torrent : TorrentFile :=
  {| get_total_pieces := 11;
     get_piece_length := λ _, 1;
     get_piece_hash := λ _, [x00];
     total_length := 11 |}.

(** Both pieces of [small_torrent] are high priority, and piece 1 has the
    higher numeric priority. *)
Definition override_state : PieceManager.t :=
  PieceManager.set_piece_priority 1 10
    (PieceManager.set_high_priority_piece 1
       (PieceManager.set_high_priority_piece 0 (PieceManager.init small_torrent))).

(** The floats [0.7], [5.7] and [5.0] = [5.7 - 0.7]. *)
Definition float_0_7 : float := S754_finite false 6305039478318694 (-53).
Definition float_5_7 : float := S754_finite false 6417629469002957 (-50).

(** [float(n)]: the clock at a whole number of seconds. *)
Definition seconds (n : Z) : float := binary_normalize 53 1024 n 0 false.

(** The clock at [i / 2^22] seconds, rounded to a float.  Between [2^30] and
    [2^31] seconds, from 2004 to 2038, the floats are these values
    ([ticks_cover]). *)
Definition ticks (i : Z) : float := binary_normalize 53 1024 i (-22) false.

(** The mantissa of 53 bits of the float of a positive number below 2^53. *)
Definition mantissa (n : positive) : positive :=
  Z.to_pos (Z.pos n * 2 ^ (53 - Z.pos (digits2_pos n))).

(** A sample of 5000 bytes taken at [0.7], under a limit of 1000 bytes per
    second. *)
Definition early_state : PieceManager.t :=
  PieceManager.update_rate_stats float_0_7 5000
    (PieceManager.set_download_rate_limit 1000 (PieceManager.init small_torrent)).

(** A sample of 6249749507073853 bytes, under a limit of 1249949901414771
    bytes per second. *)
Definition heavy_state : PieceManager.t :=
  PieceManager.update_rate_stats (seconds 0) 6249749507073853
    (PieceManager.set_download_rate_limit 1249949901414771
       (PieceManager.init small_torrent)).

(** ** Statistics *)

(** [get_completion_percentage]; the quotient is a rational here. *)
Definition get_completion_percentage (m : PieceManager.t) : Q :=
  if bool_decide (size (PieceManager.pieces m) = 0%nat) then 0
  else (inject_Z (Z.of_nat (size (PieceManager.completed_pieces m)))
        / inject_Z (Z.of_nat (size (PieceManager.pieces m)))) * 100.

(** The dictionary that [get_download_stats] returns. *)
Record DownloadStats := {
  stats_total_pieces : Z;
  stats_completed_pieces : Z;
  stats_completion_percentage : Q;
  stats_bytes_downloaded : Z;
  stats_total_bytes : Z
}.

(** The loop [for piece_index in self.completed_pieces] of
    [get_download_stats], over the set in its iteration order; [None] is the
    [KeyError] of [self.pieces[piece_index]]. *)
Fixpoint completed_bytes (pieces : gmap Z Piece.t) (indices : list Z)
  (bytes_downloaded : Z) : option Z :=
  match indices with
  | [] => Some bytes_downloaded
  | piece_index :: rest =>
      match pieces !! piece_index with
      | Some piece => completed_bytes pieces rest (bytes_downloaded + Piece.length piece)
      | None => None
      end
  end.

Definition get_download_stats (m : PieceManager.t) : option DownloadStats :=
  match completed_bytes (PieceManager.pieces m)
          (elements (PieceManager.completed_pieces m)) 0 with
  | Some bytes_downloaded =>
      Some {| stats_total_pieces := Z.of_nat (size (PieceManager.pieces m));
              stats_completed_pieces :=
                Z.of_nat (size (PieceManager.completed_pieces m));
              stats_completion_percentage := get_completion_percentage m;
              stats_bytes_downloaded := bytes_downloaded;
              stats_total_bytes := total_length (PieceManager.torrent m) |}
  | None => None
  end.

(** ** How an operation changes a tracked piece

    The piece objects are only mutated in these four ways: a block is flagged
    requested ([get_next_request], [mark_block_requested]), the request flags
    are cleared ([reset_piece_requests]), a block is ingested and the piece
    stays as [add_block_data] left it, or it is ingested and the piece is
    reset after the failed verification ([add_piece_data]). *)
Inductive piece_step `{Sha1} (p : Piece.t) : Piece.t → Prop :=
| step_requested k :
    piece_step p
      (Piece.set_blocks (alter (Block.set_requested true) k (Piece.blocks p)) p)
| step_requests_reset :
    piece_step p (Piece.reset_block_requests p)
| step_ingested off d :
    Piece.completed p = false →
    (Piece.completed (Piece.add_block_data off d p).2 = true →
     Piece.verified (Piece.add_block_data off d p).2 = true) →
    piece_step p (Piece.add_block_data off d p).2
| step_failed off d :
    Piece.completed p = false →
    (Piece.add_block_data off d p).1 = true →
    Piece.completed (Piece.add_block_data off d p).2 = true →
    Piece.verified (Piece.add_block_data off d p).2 = false →
    piece_step p (Piece.reset (Piece.add_block_data off d p).2).

(** The bytes of [buf] from [start] on, [n] of them. *)
Definition slice (buf : list byte) (start n : Z) : list byte :=
  take (Z.to_nat n) (drop (Z.to_nat start) buf).

(** The payloads of the blocks, in partition order. *)
Definition payloads (bs : list Block.t) : list byte :=
  mjoin ((λ b, default [] (Block.data b)) <$> bs).

(** The buffer has the length of the piece, and a block holds a payload
    exactly when it is received: the bytes of the buffer at its place. *)
Definition assembled (p : Piece.t) : Prop :=
  length (Piece.data p) = Z.to_nat (Piece.length p)
  ∧ ∀ k b, Piece.blocks p !! k = Some b →
           Block.data b
           = if Block.received b
             then Some (slice (Piece.data p) (Block.offset b) (Block.length b))
             else None.

(** A caller that submits to [add_piece_data], block after block, the bytes
    of the content [c] of piece [i] for the blocks [bs]. *)
Definition feed `{Sha1} (i : Z) (c : list byte) (bs : list Block.t)
  (m : PieceManager.t) : PieceManager.t :=
  foldl (λ m b,
           (PieceManager.add_piece_data i (Block.offset b)
              (slice c (Block.offset b) (Block.length b)) m).2)
        m bs.

(** The payloads that piece [p] holds are bytes of [c]. *)
Definition agrees (c : list byte) (p : Piece.t) : Prop :=
  ∀ k b, Piece.blocks p !! k = Some b → Block.received b = true →
         Block.data b = Some (slice c (Block.offset b) (Block.length b)).

(** Where a feed of [c] to piece [i] stands after [n] blocks: the piece is
    completed with content [c], or its first [n] blocks are received and
    what it holds are bytes of [c]. *)
Definition fed_up_to `{Sha1} (tf : TorrentFile) (i : Z) (c : list byte) (n : nat)
  (m : PieceManager.t) : Prop :=
  PieceManager.reachable tf m
  ∧ ((i ∈ PieceManager.completed_pieces m
      ∧ PieceManager.get_piece_data i m = Some c)
     ∨ (∃ p, PieceManager.pieces m !! i = Some p
             ∧ Piece.completed p = false
             ∧ agrees c p
             ∧ ∀ k b, (k < n)%nat → Piece.blocks p !! k = Some b →
                      Block.received b = true)).

(** Piece 0 of [small_torrent] is high priority and its block is requested. *)
Definition starved_state : PieceManager.t :=
  (PieceManager.get_next_request [0]
     (PieceManager.set_high_priority_piece 0 (PieceManager.init small_torrent))).2.

(** [small_torrent] after piece 0 was ingested with the right first byte. *)
Definition done_state : PieceManager.t :=
  @PieceManager.exec sample_hash
    (PieceManager.AddPieceData 0 0 [x01; x00; x00; x00])
    (PieceManager.init small_torrent).

(** The same with a callback registered before. *)
Definition delivered_state : PieceManager.t :=
  @PieceManager.exec sample_hash
    (PieceManager.AddPieceData 0 0 [x01; x00; x00; x00])
    (@PieceManager.exec sample_hash (PieceManager.SetOnPieceCompleted true)
       (PieceManager.init small_torrent)).

(** Two pieces, the second of length zero. *)
Definition hollow_torrent : TorrentFile :=
  {| get_total_pieces := 2;
     get_piece_length := λ i, if i =? 0 then 4 else 0;
     get_piece_hash := λ _, [x01];
     total_length := 4 |}.

(** * Properties *)

(** ** Block creation *)
Section CreateBlocks.

Implicit Types (bs : list Block.t) (b : Block.t).

Lemma create_blocks_loop_done fuel idx L off :
  L <= off → Piece.create_blocks_loop fuel idx L off = Some [].
Proof.
  intros Hle. destruct fuel; simpl;
    destruct (off <? L) eqn:E; try reflexivity; apply Z.ltb_lt in E; lia.
Qed.

(** With [length - offset] iterations to spend the loop leaves through its
    guard, and what it built tiles [[offset, length)]. *)
Lemma create_blocks_loop_spec fuel idx L off :
  0 <= off → off <= L → (Z.to_nat (L - off) ≤ fuel)%nat →
  ∃ bs, Piece.create_blocks_loop fuel idx L off = Some bs
        ∧ Piece.tiles bs off L
        ∧ Forall (λ b, b = Block.init idx (Block.offset b) (Block.length b)
                       ∧ 0 <= Block.offset b
                       ∧ 0 < Block.length b <= BLOCK_SIZE
                       ∧ Block.offset b + Block.length b <= L) bs
        ∧ (∀ k b, bs !! k = Some b → (S k < length bs)%nat →
                  Block.length b = BLOCK_SIZE).
Proof.
  revert off. induction fuel as [|fuel IH]; intros off H0 HL Hfuel.
  - assert (off = L) as -> by lia.
    exists []. rewrite create_blocks_loop_done by lia.
    repeat split; auto. intros k b Hk; rewrite lookup_nil in Hk; discriminate.
  - simpl. destruct (off <? L) eqn:E.
    + apply Z.ltb_lt in E.
      set (bl := Z.min BLOCK_SIZE (L - off)).
      assert (0 < bl <= BLOCK_SIZE ∧ bl <= L - off) as Hbl
        by (unfold bl, BLOCK_SIZE; lia).
      destruct (IH (off + bl)) as (bs & Hbs & Htiles & Hall & Hstd); try lia.
      exists (Block.init idx off bl :: bs). rewrite Hbs. simpl.
      split; [reflexivity|]. split; [repeat split; [lia|exact Htiles]|].
      split.
      * constructor; [simpl; repeat split; lia | exact Hall].
      * intros [|k] b Hk Hlen; simpl in *.
        -- injection Hk as <-. simpl.
           destruct (Z_lt_le_dec (off + bl) L) as [Hlt|Hge].
           ++ unfold bl, BLOCK_SIZE in *; lia.
           ++ rewrite create_blocks_loop_done in Hbs by lia.
              injection Hbs as <-. simpl in Hlen. lia.
        -- apply (Hstd k b Hk). lia.
    + apply Z.ltb_ge in E. assert (off = L) as -> by lia.
      exists []. repeat split; auto.
      intros k b Hk; rewrite lookup_nil in Hk; discriminate.
Qed.

Lemma create_blocks_loop_fuel idx L :
  0 <= L →
  Piece.create_blocks_loop (Z.to_nat L) idx L 0 = Some (Piece.create_blocks idx L).
Proof.
  intros HL. unfold Piece.create_blocks.
  destruct (create_blocks_loop_spec (Z.to_nat L) idx L 0) as (bs & -> & _); try lia.
  reflexivity.
Qed.

Lemma create_blocks_spec idx L :
  0 <= L →
  let bs := Piece.create_blocks idx L in
  Piece.tiles bs 0 L
  ∧ Forall (λ b, b = Block.init idx (Block.offset b) (Block.length b)
                 ∧ 0 <= Block.offset b
                 ∧ 0 < Block.length b <= BLOCK_SIZE
                 ∧ Block.offset b + Block.length b <= L) bs
  ∧ (∀ k b, bs !! k = Some b → (S k < length bs)%nat →
            Block.length b = BLOCK_SIZE).
Proof.
  intros HL bs. subst bs. unfold Piece.create_blocks.
  destruct (create_blocks_loop_spec (Z.to_nat L) idx L 0) as (bs & -> & Hrest);
    try lia.
  exact Hrest.
Qed.

(** Offsets grow strictly along a tiling. *)
Lemma tiles_offsets bs a e :
  Piece.tiles bs a e →
  a <= e ∧ ∀ j k bj bk, bs !! j = Some bj → bs !! k = Some bk → (j < k)%nat →
            a <= Block.offset bj ∧ Block.offset bj < Block.offset bk.
Proof.
  revert a. induction bs as [|b bs IH]; intros a Ht; simpl in Ht.
  - split; [lia|]. intros j k bj bk Hj; rewrite lookup_nil in Hj; discriminate.
  - destruct Ht as (Hoff & Hpos & Ht). destruct (IH _ Ht) as [Hle Hlt].
    split; [lia|]. intros [|j] [|k] bj bk Hj Hk Hjk; simpl in *; try lia.
    + injection Hj as <-. split; [lia|].
      destruct bs as [|b' bs']; [rewrite lookup_nil in Hk; discriminate|].
      destruct k as [|k]; simpl in Hk.
      * injection Hk as <-. simpl in Ht. lia.
      * destruct (Hlt 0%nat (S k) b' bk eq_refl Hk ltac:(lia)) as [? ?].
        simpl in Ht. lia.
    + destruct (Hlt j k bj bk Hj Hk ltac:(lia)). split; lia.
Qed.

Lemma tiles_offset_inj bs a e j k bj bk :
  Piece.tiles bs a e → bs !! j = Some bj → bs !! k = Some bk →
  Block.offset bj = Block.offset bk → j = k.
Proof.
  intros Ht Hj Hk Heq. destruct (tiles_offsets _ _ _ Ht) as [_ Hlt].
  destruct (lt_eq_lt_dec j k) as [[Hjk|Hjk]|Hjk]; [|exact Hjk|].
  - destruct (Hlt _ _ _ _ Hj Hk Hjk). lia.
  - destruct (Hlt _ _ _ _ Hk Hj Hjk). lia.
Qed.

(** [tiles] only looks at the shapes. *)
Lemma tiles_shapes bs bs' a e :
  Block.shape <$> bs = Block.shape <$> bs' → Piece.tiles bs a e → Piece.tiles bs' a e.
Proof.
  revert bs' a. induction bs as [|b bs IH]; intros [|b' bs'] a Heq Ht;
    try discriminate; [exact Ht|].
  rewrite !fmap_cons in Heq. injection Heq as Hi Ho Hl Heq.
  simpl in *. rewrite <- Ho, <- Hl.
  destruct Ht as (? & ? & ?). repeat split; auto.
Qed.

End CreateBlocks.

(** ** Pieces *)
Section PieceFacts.

Context `{Sha1}.
Implicit Types (bs : list Block.t) (b : Block.t) (p : Piece.t).

Lemma find_slot_Some off n bs k j :
  Piece.find_slot off n bs k = Some j →
  ∃ i b, j = (k + i)%nat ∧ bs !! i = Some b ∧ Block.offset b = off
         ∧ Block.length b = n ∧ Block.received b = false.
Proof.
  revert k. induction bs as [|b bs IH]; intros k Hf; simpl in Hf; [discriminate|].
  destruct ((Block.offset b =? off) && (Block.length b =? n)) eqn:Em;
    [destruct (Block.received b) eqn:Er; simpl in Hf|].
  - destruct (IH _ Hf) as (i & b' & -> & ? & ?). exists (S i), b'.
    split; [lia|]. split; assumption.
  - injection Hf as <-. apply andb_prop in Em as [Ho Hl].
    apply Z.eqb_eq in Ho, Hl. exists 0%nat, b. rewrite Nat.add_0_r. auto.
  - destruct (IH _ Hf) as (i & b' & -> & ? & ?). exists (S i), b'.
    split; [lia|]. split; assumption.
Qed.

Lemma find_slot_None off n bs k :
  Piece.find_slot off n bs k = None ↔
  ∀ b, b ∈ bs → Block.offset b = off → Block.length b = n → Block.received b = true.
Proof.
  revert k. induction bs as [|b bs IH]; intros k; simpl.
  - split; [|reflexivity]. intros _ b Hb. apply elem_of_nil in Hb as [].
  - destruct ((Block.offset b =? off) && (Block.length b =? n)) eqn:Em;
      [destruct (Block.received b) eqn:Er; simpl|].
    + rewrite IH. split.
      * intros Hall b' Hb'. apply elem_of_cons in Hb' as [->|Hb']; auto.
      * intros Hall b' Hb'. apply Hall. apply elem_of_cons; auto.
    + split; [discriminate|]. intros Hall.
      apply andb_prop in Em as [Ho Hl]. apply Z.eqb_eq in Ho, Hl.
      rewrite (Hall b) in Er; [discriminate|apply elem_of_cons; auto| |]; auto.
    + rewrite IH. apply andb_false_iff in Em. split.
      * intros Hall b' Hb'. apply elem_of_cons in Hb' as [->|Hb']; auto.
        intros Ho Hl. rewrite <- Z.eqb_eq in Ho, Hl. destruct Em; congruence.
      * intros Hall b' Hb'. apply Hall. apply elem_of_cons; auto.
Qed.

Lemma shapes_alter (g : Block.t → Block.t) k bs :
  (∀ b, Block.shape (g b) = Block.shape b) →
  Block.shape <$> alter g k bs = Block.shape <$> bs.
Proof.
  intros Hg. apply list_eq; intros i.
  rewrite !list_lookup_fmap, list_lookup_alter.
  destruct (decide (k = i)) as [->|]; [|reflexivity].
  destruct (bs !! i); simpl; [f_equal; apply Hg | reflexivity].
Qed.

Lemma shapes_fmap (g : Block.t → Block.t) bs :
  (∀ b, Block.shape (g b) = Block.shape b) →
  Block.shape <$> (g <$> bs) = Block.shape <$> bs.
Proof.
  intros Hg. rewrite <- list_fmap_compose. apply list_fmap_ext.
  intros i b _. apply Hg.
Qed.

(** What a call of [add_block_data] can do. *)
Lemma add_block_data_inv off d p :
  let r := Piece.add_block_data off d p in
  (r.1 = false ∧ r.2 = p
   ∧ (off + len d > Piece.length p
      ∨ Piece.find_slot off (len d) (Piece.blocks p) 0 = None))
  ∨ (∃ k b,
       r.1 = true ∧ off + len d <= Piece.length p
       ∧ Piece.blocks p !! k = Some b ∧ Block.offset b = off
       ∧ Block.length b = len d ∧ Block.received b = false
       ∧ Piece.index r.2 = Piece.index p ∧ Piece.length r.2 = Piece.length p
       ∧ Piece.hash_value r.2 = Piece.hash_value p
       ∧ Piece.blocks r.2 = alter (Block.store d) k (Piece.blocks p)
       ∧ Piece.data r.2 = Piece.slice_assign (Piece.data p) off (off + len d) d
       ∧ Piece.completed r.2
         = (if forallb Block.received (Piece.blocks r.2) then true
            else Piece.completed p)
       ∧ Piece.verified r.2
         = (if forallb Block.received (Piece.blocks r.2)
            then bool_decide (sha1_hash (Piece.data r.2) = Piece.hash_value p)
            else Piece.verified p)).
Proof.
  unfold Piece.add_block_data.
  destruct (off + len d >? Piece.length p) eqn:Eg; simpl.
  { left. apply Z.gtb_lt in Eg. repeat split; auto. left; lia. }
  assert (off + len d <= Piece.length p) as Hle.
  { destruct (Z.gtb_spec (off + len d) (Piece.length p)); [discriminate|lia]. }
  destruct (Piece.find_slot off (len d) (Piece.blocks p) 0) as [k|] eqn:Ef; simpl.
  2:{ left. repeat split; auto. }
  right. destruct (find_slot_Some _ _ _ _ _ Ef) as (i & b & -> & Hb & Ho & Hl & Hr).
  exists i, b. simpl. unfold Piece.is_complete. simpl.
  destruct (forallb Block.received (alter (Block.store d) i (Piece.blocks p)))
    eqn:Ec; simpl; rewrite ?Ec; repeat split; auto.
Qed.

Lemma add_block_data_false off d p :
  (Piece.add_block_data off d p).1 = false → (Piece.add_block_data off d p).2 = p.
Proof.
  destruct (add_block_data_inv off d p) as [(_ & ? & _)|(k & b & Ht & _)]; auto.
  intros Hf. simpl in *. congruence.
Qed.

Lemma add_block_data_shapes off d p :
  Piece.shapes (Piece.add_block_data off d p).2 = Piece.shapes p
  ∧ Piece.index (Piece.add_block_data off d p).2 = Piece.index p
  ∧ Piece.length (Piece.add_block_data off d p).2 = Piece.length p
  ∧ Piece.hash_value (Piece.add_block_data off d p).2 = Piece.hash_value p.
Proof.
  destruct (add_block_data_inv off d p)
    as [(_ & -> & _)|(k & b & _ & _ & _ & _ & _ & _ & Hi & Hl & Hh & Hb & _)];
    auto.
  simpl in *. unfold Piece.shapes. rewrite Hb, shapes_alter; auto.
Qed.

(** After a block was stored no block of a tiling takes the same bytes. *)
Lemma find_slot_stored off d bs k b :
  (∀ j bj, bs !! j = Some bj → Block.offset bj = Block.offset b → j = k) →
  bs !! k = Some b →
  Piece.find_slot (Block.offset b) off (alter (Block.store d) k bs) 0 = None.
Proof.
  intros Huniq Hk. apply find_slot_None. intros b' Hb' Ho _.
  apply list_elem_of_lookup in Hb' as [j Hj].
  rewrite list_lookup_alter in Hj. destruct (decide (k = j)) as [->|Hne].
  - rewrite Hk in Hj. simpl in Hj. injection Hj as <-. reflexivity.
  - exfalso. apply Hne. symmetry. apply (Huniq j b'); auto.
Qed.

End PieceFacts.

Section Rejection.

Context `{Sha1}.
Implicit Types (bs : list Block.t) (b : Block.t) (p : Piece.t).

Lemma add_block_data_no_slot off d p :
  off + len d > Piece.length p
  ∨ Piece.find_slot off (len d) (Piece.blocks p) 0 = None →
  Piece.add_block_data off d p = (false, p).
Proof.
  intros Hc. unfold Piece.add_block_data.
  destruct (Z.gtb_spec (off + len d) (Piece.length p)) as [Hg|Hg]; [reflexivity|].
  destruct Hc as [Hc|Hc]; [lia|]. rewrite Hc. reflexivity.
Qed.

(** C4. [Piece.add_block_data] returns false, and then leaves the piece as it
    was, in exactly three cases: the bytes would end behind the piece, no
    block has this offset and this length, or the block that has them is
    received already; so the same bytes offered again after a successful
    call are refused without any change. *)
Theorem add_block_data_rejects off d p :
  Piece.tiles (Piece.blocks p) 0 (Piece.length p) →
  let r := Piece.add_block_data off d p in
  (r.1 = false ↔
     off + len d > Piece.length p
     ∨ (∀ b, b ∈ Piece.blocks p →
             ¬ (Block.offset b = off ∧ Block.length b = len d))
     ∨ (∃ b, b ∈ Piece.blocks p ∧ Block.offset b = off
             ∧ Block.length b = len d ∧ Block.received b = true))
  ∧ (r.1 = false → r.2 = p)
  ∧ (r.1 = true → Piece.add_block_data off d r.2 = (false, r.2)).
Proof.
  intros Ht r. subst r. split; [split|split].
  - intros Hf.
    destruct (add_block_data_inv off d p)
      as [(_ & _ & [Hg|Hn])|(k & b & Htrue & _)]; [left; exact Hg| |].
    + right.
      destruct (decide (Exists (λ b, Block.offset b = off ∧ Block.length b = len d)
                               (Piece.blocks p))) as [He|Hne].
      * right. apply Exists_exists in He as (b & Hb & Ho & Hl).
        exists b. repeat split; auto.
        exact (proj1 (find_slot_None _ _ _ _) Hn b Hb Ho Hl).
      * left. intros b Hb Hm. apply Hne. apply Exists_exists. eauto.
    + simpl in *. congruence.
  - intros Hc. rewrite add_block_data_no_slot; [reflexivity|].
    destruct Hc as [Hg|[Hnone|(b & Hb & Ho & Hl & Hr)]]; [left; exact Hg| |];
      right; apply find_slot_None; intros b' Hb' Ho' Hl'.
    + destruct (Hnone b' Hb'). auto.
    + apply list_elem_of_lookup in Hb as [j Hj].
      apply list_elem_of_lookup in Hb' as [j' Hj'].
      assert (j' = j) as -> by (eapply tiles_offset_inj; eauto; congruence).
      congruence.
  - apply add_block_data_false.
  - intros Htrue.
    destruct (add_block_data_inv off d p)
      as [(Hf & _)|(k & b & _ & Hle & Hk & Ho & Hl & Hr & _ & HL & _ & Hbs & _)];
      [simpl in *; congruence|].
    simpl in HL, Hbs. apply add_block_data_no_slot. right.
    rewrite Hbs, <- Ho. apply (find_slot_stored _ d _ k b); [|exact Hk].
    intros j bj Hj Hoj. eapply tiles_offset_inj; eauto.
Qed.

End Rejection.

(** ** The invariant is established by construction and kept by every
    operation *)
Section Invariant.

Context `{Sha1}.
Implicit Types (bs : list Block.t) (b : Block.t) (p : Piece.t)
  (m : PieceManager.t) (tf : TorrentFile).

Lemma fmap_alter_same {A B} (f : A → B) (g : A → A) k (l : list A) :
  (∀ x, f (g x) = f x) → f <$> alter g k l = f <$> l.
Proof.
  intros Hg. apply list_eq; intros i.
  rewrite !list_lookup_fmap, list_lookup_alter.
  destruct (decide (k = i)) as [->|]; [|reflexivity].
  destruct (l !! i); simpl; [f_equal; apply Hg | reflexivity].
Qed.

Lemma forallb_fmap_eq {A B} (f : A → bool) (g : B → bool) (l : list A) (l' : list B) :
  f <$> l = g <$> l' → forallb f l = forallb g l'.
Proof.
  revert l'. induction l as [|x l IH]; intros [|y l'] Heq; try discriminate; auto.
  rewrite !fmap_cons in Heq. injection Heq as Hx Heq. simpl.
  rewrite Hx, (IH _ Heq). reflexivity.
Qed.

Lemma range_elem i n : i ∈ range n ↔ 0 <= i < n.
Proof.
  unfold range. rewrite list_elem_of_fmap. split.
  - intros (k & -> & Hk). apply elem_of_seq in Hk. lia.
  - intros Hi. exists (Z.to_nat i). split; [lia|]. apply elem_of_seq. lia.
Qed.

Lemma foldl_insert_lookup {V} (f : Z → V) (l : list Z) (ps : gmap Z V) i :
  foldl (λ ps i, <[i := f i]> ps) ps l !! i
  = if decide (i ∈ l) then Some (f i) else ps !! i.
Proof.
  revert ps. induction l as [|j l IH]; intros ps; simpl.
  - destruct (decide (i ∈ [])) as [Hin|]; [apply elem_of_nil in Hin as []|reflexivity].
  - rewrite IH. destruct (decide (i ∈ l)) as [Hin|Hnin].
    + rewrite decide_True by (apply elem_of_cons; auto). reflexivity.
    + destruct (decide (i = j)) as [->|Hne].
      * rewrite decide_True by (apply elem_of_cons; auto).
        apply lookup_insert_eq.
      * rewrite decide_False by (rewrite elem_of_cons; intros [?|?]; auto).
        apply lookup_insert_ne. auto.
Qed.

Lemma initialize_pieces_lookup tf i :
  PieceManager.initialize_pieces tf !! i
  = if decide (0 <= i < get_total_pieces tf)
    then Some (Piece.init i (get_piece_length tf i) (get_piece_hash tf i))
    else None.
Proof.
  unfold PieceManager.initialize_pieces.
  rewrite (foldl_insert_lookup
             (λ i, Piece.init i (get_piece_length tf i) (get_piece_hash tf i))).
  destruct (decide (i ∈ range (get_total_pieces tf))) as [Hin|Hnin];
    rewrite range_elem in *.
  - rewrite decide_True by assumption. reflexivity.
  - rewrite decide_False by assumption. apply lookup_empty.
Qed.

Lemma invariant_init tf : PieceManager.valid_torrent tf → invariant tf (PieceManager.init tf).
Proof.
  intros Hvalid. unfold invariant. simpl.
  split; [reflexivity|]. split; [reflexivity|]. split; [|split].
  - intros i. rewrite initialize_pieces_lookup.
    destruct (decide (0 <= i < get_total_pieces tf)); split; intros Hi; auto;
      try contradiction; try (destruct Hi; discriminate); eauto.
  - intros i p. rewrite initialize_pieces_lookup.
    destruct (decide (0 <= i < get_total_pieces tf)) as [Hi|]; [|discriminate].
    intros [= <-]. split.
    + unfold piece_ok. simpl. specialize (Hvalid i Hi).
      repeat split; auto; try lia; try discriminate.
    + split; [intros Hin; apply not_elem_of_empty in Hin as []|discriminate].
  - intros i Hin. apply not_elem_of_empty in Hin as [].
Qed.

(** Replacing a tracked piece by one in the same completion state. *)
Lemma invariant_update tf m i p p' :
  invariant tf m → PieceManager.pieces m !! i = Some p →
  piece_ok tf i p' → Piece.completed p' = Piece.completed p →
  invariant tf (PieceManager.set_pieces (<[i := p']> (PieceManager.pieces m)) m).
Proof.
  intros (Htf & Hw & Hdom & Hps & Hcs) Hp Hok Hc.
  unfold invariant. simpl. split; [exact Htf|]. split; [exact Hw|].
  split; [|split].
  - intros j. rewrite lookup_insert. destruct (decide (i = j)) as [<-|]; [|apply Hdom].
    rewrite <- Hdom, Hp. split; eauto.
  - intros j q. rewrite lookup_insert. destruct (decide (i = j)) as [<-|].
    + intros [= <-]. split; [exact Hok|]. rewrite Hc. apply (Hps i p Hp).
    + apply Hps.
  - intros j Hj. rewrite lookup_insert. destruct (decide (i = j)); eauto.
Qed.

Lemma piece_ok_requested tf i p k (g : Block.t → Block.t) :
  (∀ b, Block.shape (g b) = Block.shape b) →
  (∀ b, Block.received (g b) = Block.received b) →
  piece_ok tf i p →
  piece_ok tf i (Piece.set_blocks (alter g k (Piece.blocks p)) p).
Proof.
  intros Hs Hr (Hi & Hidx & Hl & Hl0 & Hh & Hsh & Hc).
  unfold piece_ok, Piece.shapes in *. simpl.
  rewrite (fmap_alter_same Block.shape g) by exact Hs.
  repeat split; auto; try lia; try (apply Hc; assumption).
  rewrite (forallb_fmap_eq Block.received Block.received _ (Piece.blocks p)).
  - apply Hc; assumption.
  - apply fmap_alter_same. exact Hr.
Qed.

Lemma piece_ok_reset_requests tf i p :
  piece_ok tf i p → piece_ok tf i (Piece.reset_block_requests p).
Proof.
  intros (Hi & Hidx & Hl & Hl0 & Hh & Hsh & Hc).
  unfold piece_ok, Piece.shapes, Piece.reset_block_requests in *. simpl.
  rewrite shapes_fmap by (intros b; destruct (Block.received b); reflexivity).
  repeat split; auto; try lia; try (apply Hc; assumption).
  rewrite (forallb_fmap_eq Block.received Block.received _ (Piece.blocks p)).
  - apply Hc; assumption.
  - rewrite <- list_fmap_compose. apply list_fmap_ext.
    intros j b _. simpl. destruct (Block.received b) eqn:E; simpl; congruence.
Qed.

Lemma piece_ok_reset tf i p :
  piece_ok tf i p → piece_ok tf i (Piece.reset p).
Proof.
  intros (Hi & Hidx & Hl & Hl0 & Hh & Hsh & Hc).
  unfold piece_ok, Piece.shapes, Piece.reset in *. simpl.
  rewrite shapes_fmap by reflexivity.
  repeat split; auto; try lia; discriminate.
Qed.

End Invariant.

(** ** Selection: what the request loop does *)
Section RequestLoop.

Context `{Sha1}.
Implicit Types (bs : list Block.t) (b : Block.t) (p : Piece.t)
  (m : PieceManager.t) (tf : TorrentFile).

Lemma get_missing_head p k b rest :
  Piece.get_missing_blocks p = (k, b) :: rest →
  Piece.blocks p !! k = Some b
  ∧ Block.received b = false ∧ Block.requested b = false
  ∧ ∀ j bj, (j < k)%nat → Piece.blocks p !! j = Some bj →
            ¬ (Block.received bj = false ∧ Block.requested bj = false).
Proof.
  unfold Piece.get_missing_blocks. intros Hm.
  assert ((k, b) ∈ filter (λ kb : nat * Block.t,
             Block.received kb.2 = false ∧ Block.requested kb.2 = false)
            (imap pair (Piece.blocks p))) as Hin
    by (rewrite Hm; apply elem_of_cons; auto).
  apply list_elem_of_filter in Hin as [[Hr Hq] _]. simpl in Hr, Hq.
  destruct (head_filter_Some
              (λ kb : nat * Block.t,
                 Block.received kb.2 = false ∧ Block.requested kb.2 = false)
              (imap pair (Piece.blocks p)) (k, b))
    as (l1 & l2 & Heq & Hl1); [rewrite Hm; reflexivity|].
  assert (imap pair (Piece.blocks p) !! length l1 = Some (k, b)) as Hat.
  { rewrite Heq. rewrite lookup_app_r by lia. rewrite Nat.sub_diag. reflexivity. }
  rewrite list_lookup_imap in Hat.
  destruct (Piece.blocks p !! length l1) as [b'|] eqn:Hb'; [|discriminate].
  simpl in Hat. injection Hat as Hk <-. subst k.
  repeat split; auto.
  intros j bj Hj Hbj Hmiss.
  assert (l1 !! j = Some (j, bj)) as Hl1j.
  { rewrite <- (lookup_app_l l1 ((length l1, b') :: l2)) by lia.
    rewrite <- Heq, list_lookup_imap, Hbj. reflexivity. }
  rewrite Forall_forall in Hl1.
  apply (Hl1 (j, bj)); [eapply list_elem_of_lookup_2; eauto|exact Hmiss].
Qed.

Lemma get_missing_nil p :
  Piece.get_missing_blocks p = [] →
  ∀ b, b ∈ Piece.blocks p →
       ¬ (Block.received b = false ∧ Block.requested b = false).
Proof.
  unfold Piece.get_missing_blocks. intros Hm b Hb Hmiss.
  apply list_elem_of_lookup in Hb as [k Hk].
  assert ((k, b) ∈ filter (λ kb : nat * Block.t,
             Block.received kb.2 = false ∧ Block.requested kb.2 = false)
            (imap pair (Piece.blocks p))) as Hin.
  { apply list_elem_of_filter. split; [exact Hmiss|].
    apply (elem_of_lookup_imap_2 pair _ _ _ Hk). }
  rewrite Hm in Hin. apply elem_of_nil in Hin as [].
Qed.

(** The state after a block of piece [i] was marked requested. *)
Lemma request_loop_spec needed m :
  match PieceManager.request_loop needed m with
  | (None, m') =>
      m' = m
      ∧ ∀ i p, i ∈ needed → PieceManager.pieces m !! i = Some p →
               Piece.get_missing_blocks p = []
  | (Some (i, off, n), m') =>
      ∃ pre post p k b rest,
        needed = pre ++ i :: post
        ∧ (∀ j q, j ∈ pre → PieceManager.pieces m !! j = Some q →
                  Piece.get_missing_blocks q = [])
        ∧ PieceManager.pieces m !! i = Some p
        ∧ Piece.get_missing_blocks p = (k, b) :: rest
        ∧ off = Block.offset b ∧ n = Block.length b
        ∧ m' = PieceManager.set_pieces
                 (<[i := Piece.set_blocks
                           (alter (Block.set_requested true) k (Piece.blocks p)) p]>
                    (PieceManager.pieces m)) m
  end.
Proof.
  induction needed as [|i needed IH]; simpl.
  - split; [reflexivity|]. intros i p Hi. apply elem_of_nil in Hi as [].
  - destruct (PieceManager.pieces m !! i) as [p|] eqn:Hp.
    + destruct (Piece.get_missing_blocks p) as [|[k b] rest] eqn:Hmiss.
      * destruct (PieceManager.request_loop needed m) as [[[[j off] n]|] m'].
        -- destruct IH as (pre & post & q & k & b & rest & -> & Hpre & Hrest).
           exists (i :: pre), post, q, k, b, rest. split; [reflexivity|].
           split; [|exact Hrest].
           intros j' q' Hj'. apply elem_of_cons in Hj' as [->|Hj'].
           ++ rewrite Hp. intros [= <-]. exact Hmiss.
           ++ apply Hpre. exact Hj'.
        -- destruct IH as [-> Hall]. split; [reflexivity|].
           intros j q Hj. apply elem_of_cons in Hj as [->|Hj].
           ++ rewrite Hp. intros [= <-]. exact Hmiss.
           ++ apply Hall. exact Hj.
      * exists [], needed, p, k, b, rest. repeat split; auto.
        intros j q Hj. apply elem_of_nil in Hj as [].
    + destruct (PieceManager.request_loop needed m) as [[[[j off] n]|] m'].
      * destruct IH as (pre & post & q & k & b & rest & -> & Hpre & Hrest).
        exists (i :: pre), post, q, k, b, rest. split; [reflexivity|].
        split; [|exact Hrest].
        intros j' q' Hj'. apply elem_of_cons in Hj' as [->|Hj'].
        -- rewrite Hp. discriminate.
        -- apply Hpre. exact Hj'.
      * destruct IH as [-> Hall]. split; [reflexivity|].
        intros j q Hj. apply elem_of_cons in Hj as [->|Hj].
        -- rewrite Hp. discriminate.
        -- apply Hall. exact Hj.
Qed.

End RequestLoop.

Section Preservation.

Context `{Sha1}.
Implicit Types (bs : list Block.t) (b : Block.t) (p : Piece.t)
  (m : PieceManager.t) (tf : TorrentFile).

Lemma piece_ok_add_block_data tf i p off d :
  piece_ok tf i p → Piece.completed p = false →
  let r := Piece.add_block_data off d p in
  Piece.verified r.2 = true ∨ Piece.completed r.2 = false →
  piece_ok tf i r.2.
Proof.
  intros Hok Hc r Hv. subst r.
  destruct (add_block_data_shapes off d p) as (Hs & Hi & Hl & Hh).
  pose proof Hok as (H1 & H2 & H3 & H4 & H5 & H6 & H7).
  unfold piece_ok. rewrite Hs, Hi, Hl, Hh.
  split; [exact H1|]. split; [exact H2|]. split; [exact H3|].
  split; [exact H4|]. split; [exact H5|]. split; [exact H6|].
  intros Hc'. destruct Hv as [Hv|Hv]; [|congruence].
  destruct (add_block_data_inv off d p)
    as [(_ & Heq & _)|(k & b & _ & _ & _ & _ & _ & _ & _ & _ & _ & _ & _ & Hcc & Hvv)].
  - rewrite Heq in Hc'. congruence.
  - simpl in Hcc, Hvv.
    destruct (forallb Block.received (Piece.blocks (Piece.add_block_data off d p).2));
      [|congruence].
    split; [exact Hv|]. split; [reflexivity|].
    rewrite Hv in Hvv. symmetry in Hvv. apply bool_decide_eq_true in Hvv. exact Hvv.
Qed.

Lemma piece_ok_static tf i p p' :
  piece_ok tf i p →
  Piece.shapes p' = Piece.shapes p → Piece.index p' = Piece.index p →
  Piece.length p' = Piece.length p → Piece.hash_value p' = Piece.hash_value p →
  Piece.completed p' = false →
  piece_ok tf i p'.
Proof.
  intros (H1 & H2 & H3 & H4 & H5 & H6 & H7) Hs Hi Hl Hh Hc.
  unfold piece_ok. rewrite Hs, Hi, Hl, Hh. repeat split; auto; try lia; congruence.
Qed.

Lemma invariant_add_piece_data tf m i off d :
  invariant tf m → invariant tf (PieceManager.add_piece_data i off d m).2.
Proof.
  intros Hinv. unfold PieceManager.add_piece_data.
  destruct (PieceManager.pieces m !! i) as [p|] eqn:Hp; [|exact Hinv].
  destruct (Piece.completed p) eqn:Hc; [exact Hinv|].
  pose proof Hinv as (Htf & Hw & Hdom & Hps & Hcs).
  destruct (Hps i p Hp) as [Hok Hin].
  pose proof (piece_ok_add_block_data tf i p off d Hok Hc) as Hok'.
  destruct (add_block_data_shapes off d p) as (Hs & Hi & Hl & Hh).
  destruct (Piece.add_block_data off d p) as [success p'] eqn:Hr. simpl in *.
  destruct (success && Piece.completed p') eqn:Hsc; simpl.
  - apply andb_prop in Hsc as [-> Hc'].
    destruct (Piece.verified p') eqn:Hv.
    + specialize (Hok' (or_introl eq_refl)).
      assert (invariant tf
                (PieceManager.set_completed_pieces
                   ({[i]} ∪ PieceManager.completed_pieces m)
                   (PieceManager.set_pieces (<[i:=p']> (PieceManager.pieces m)) m)))
        as Hinv'.
      { unfold invariant. simpl. split; [exact Htf|]. split; [exact Hw|].
        split; [|split].
        - intros j. rewrite lookup_insert.
          destruct (decide (i = j)) as [<-|]; [|apply Hdom].
          rewrite <- Hdom, Hp. split; eauto.
        - intros j q. rewrite lookup_insert. destruct (decide (i = j)) as [<-|Hne].
          + intros [= <-]. split; [exact Hok'|]. split; [auto|].
            intros _. apply elem_of_union_l, elem_of_singleton. reflexivity.
          + intros Hq. destruct (Hps j q Hq) as [Hokq Hinq]. split; [exact Hokq|].
            rewrite <- Hinq, elem_of_union, elem_of_singleton.
            split; [intros [?|?]; [congruence|assumption]|auto].
        - intros j Hj. rewrite lookup_insert. destruct (decide (i = j)); [eauto|].
          apply Hcs. apply elem_of_union in Hj as [Hj|Hj]; [|exact Hj].
          apply elem_of_singleton in Hj. congruence. }
      destruct (PieceManager.on_piece_completed m); exact Hinv'.
    + rewrite insert_insert_eq.
      apply (invariant_update tf m i p (Piece.reset p') Hinv Hp).
      * apply (piece_ok_static tf i p (Piece.reset p')); auto.
        unfold Piece.shapes in *. simpl. rewrite shapes_fmap by reflexivity.
        exact Hs.
      * simpl. congruence.
  - apply (invariant_update tf m i p p' Hinv Hp).
    + destruct success; simpl in Hsc.
      * apply Hok'. right. exact Hsc.
      * pose proof (add_block_data_false off d p) as Hf. rewrite Hr in Hf.
        simpl in Hf. rewrite Hf by reflexivity. exact Hok.
    + destruct success; simpl in Hsc; [congruence|].
      pose proof (add_block_data_false off d p) as Hf. rewrite Hr in Hf.
      simpl in Hf. rewrite Hf by reflexivity. reflexivity.
Qed.

Lemma invariant_request_loop tf needed m :
  invariant tf m → invariant tf (PieceManager.request_loop needed m).2.
Proof.
  intros Hinv. pose proof (request_loop_spec needed m) as Hspec.
  destruct (PieceManager.request_loop needed m) as [[[[i off] n]|] m']; simpl.
  - destruct Hspec as (pre & post & p & k & b & rest & _ & _ & Hp & _ & _ & _ & ->).
    apply (invariant_update tf m i p _ Hinv Hp); [|reflexivity].
    apply piece_ok_requested; auto.
    destruct Hinv as (_ & _ & _ & Hps & _). apply (Hps i p Hp).
  - destruct Hspec as [-> _]. exact Hinv.
Qed.

Lemma invariant_get_next_request tf avail m :
  invariant tf m → invariant tf (PieceManager.get_next_request avail m).2.
Proof.
  intros Hinv. unfold PieceManager.get_next_request.
  destruct (PieceManager.needed_pieces avail m); [exact Hinv|].
  apply invariant_request_loop. exact Hinv.
Qed.

Lemma invariant_mark_block_requested tf i off m :
  invariant tf m → invariant tf (PieceManager.mark_block_requested i off m).
Proof.
  intros Hinv. unfold PieceManager.mark_block_requested.
  destruct (PieceManager.pieces m !! i) as [p|] eqn:Hp; [|exact Hinv].
  destruct (list_find _ _) as [[k b]|]; [|exact Hinv].
  apply (invariant_update tf m i p _ Hinv Hp); [|reflexivity].
  apply piece_ok_requested; auto.
  destruct Hinv as (_ & _ & _ & Hps & _). apply (Hps i p Hp).
Qed.

Lemma invariant_reset_piece_requests tf i m :
  invariant tf m → invariant tf (PieceManager.reset_piece_requests i m).
Proof.
  intros Hinv. unfold PieceManager.reset_piece_requests.
  destruct (PieceManager.pieces m !! i) as [p|] eqn:Hp; [|exact Hinv].
  apply (invariant_update tf m i p _ Hinv Hp); [|reflexivity].
  apply piece_ok_reset_requests.
  destruct Hinv as (_ & _ & _ & Hps & _). apply (Hps i p Hp).
Qed.

Lemma invariant_set_piece_priority tf i v m :
  invariant tf m → invariant tf (PieceManager.set_piece_priority i v m).
Proof.
  intros Hinv. unfold PieceManager.set_piece_priority.
  destruct ((1 <=? v) && (v <=? 10)); exact Hinv.
Qed.

Lemma invariant_sequential_loop tf indices total m :
  invariant tf m → invariant tf (PieceManager.sequential_loop indices total m).2.
Proof.
  revert m. induction indices as [|i rest IH]; intros m Hinv; simpl; [exact Hinv|].
  destruct (PieceManager.floordiv i _) as [e|q]; [exact Hinv|].
  apply IH. apply invariant_set_piece_priority. exact Hinv.
Qed.

Lemma invariant_exec tf o m :
  invariant tf m → invariant tf (PieceManager.exec o m).
Proof.
  intros Hinv. destruct o; simpl; try exact Hinv.
  - apply invariant_add_piece_data; exact Hinv.
  - apply invariant_get_next_request; exact Hinv.
  - apply invariant_mark_block_requested; exact Hinv.
  - apply invariant_reset_piece_requests; exact Hinv.
  - apply invariant_set_piece_priority; exact Hinv.
  - destruct enable; simpl; [|exact Hinv].
    apply invariant_sequential_loop; exact Hinv.
Qed.

Lemma reachable_invariant tf m : PieceManager.reachable tf m → invariant tf m.
Proof.
  induction 1 as [Hvalid|o m _ IH].
  - apply invariant_init; exact Hvalid.
  - apply invariant_exec; exact IH.
Qed.

End Preservation.

(** ** The stable sort *)
Section Sorting.

Context {A : Type}.
Implicit Types (key : A → Z) (l : list A).

Lemma insert_by_perm (before : A → A → bool) x l :
  insert_by before x l ≡ₚ x :: l.
Proof.
  induction l as [|y l IH]; simpl; [reflexivity|].
  destruct (before x y); [reflexivity|].
  rewrite IH. apply perm_swap.
Qed.

Lemma list_sort_perm key reverse l : list_sort key reverse l ≡ₚ l.
Proof.
  induction l as [|x l IH]; simpl; [reflexivity|].
  unfold list_sort in *. simpl. rewrite insert_by_perm, IH. reflexivity.
Qed.

Lemma list_sort_elem key reverse l x : x ∈ list_sort key reverse l ↔ x ∈ l.
Proof. rewrite (list_sort_perm key reverse l). reflexivity. Qed.

(** Equal keys keep their order: the sort is stable. *)
Lemma insert_by_stable key reverse (c : Z) x l :
  filter (λ y, key y = c) (insert_by (key_before key reverse) x l)
  = filter (λ y, key y = c) (x :: l).
Proof.
  induction l as [|y l IH]; simpl; [reflexivity|].
  destruct (key_before key reverse x y) eqn:E; [reflexivity|].
  rewrite (filter_cons _ y), IH, !(filter_cons _ x), (filter_cons _ y).
  assert (key x ≠ key y) as Hne.
  { unfold key_before in E. destruct reverse; apply Z.leb_gt in E; lia. }
  destruct (decide (key y = c)), (decide (key x = c)); congruence.
Qed.

Lemma list_sort_stable key reverse (c : Z) l :
  filter (λ y, key y = c) (list_sort key reverse l) = filter (λ y, key y = c) l.
Proof.
  induction l as [|x l IH]; [reflexivity|].
  unfold list_sort in *. simpl. rewrite insert_by_stable, !filter_cons, IH.
  reflexivity.
Qed.

(** Sorting by [key2] a list that is sorted by [R1] sorts it by [key2]
    first and by [R1] among equal [key2]. *)
Lemma insert_by_lex key2 (R1 : A → A → Prop) x l :
  Forall (R1 x) l →
  StronglySorted (λ a b, key2 a < key2 b ∨ (key2 a = key2 b ∧ R1 a b)) l →
  StronglySorted (λ a b, key2 a < key2 b ∨ (key2 a = key2 b ∧ R1 a b))
                 (insert_by (key_before key2 false) x l).
Proof.
  intros Hx Hs. induction l as [|y l IH]; simpl.
  - repeat constructor.
  - apply StronglySorted_inv in Hs as [Hs Hy].
    apply Forall_cons in Hx as [Hxy Hx].
    unfold key_before at 1. destruct (Z.leb_spec (key2 x) (key2 y)) as [Hle|Hgt].
    + constructor; [constructor; assumption|].
      constructor.
      * destruct (Z.eq_dec (key2 x) (key2 y)); [right; auto|left; lia].
      * rewrite Forall_forall in Hy, Hx |- *. intros z Hz.
        destruct (Hy z Hz) as [?|[? ?]].
        -- left; lia.
        -- destruct (Z.eq_dec (key2 x) (key2 y)); [right|left; lia].
           split; [congruence|]. apply Hx. exact Hz.
    + constructor; [apply IH; assumption|].
      rewrite (insert_by_perm _ x l). constructor; [left; lia|exact Hy].
Qed.

Lemma list_sort_lex key2 (R1 : A → A → Prop) l :
  StronglySorted R1 l →
  StronglySorted (λ a b, key2 a < key2 b ∨ (key2 a = key2 b ∧ R1 a b))
                 (list_sort key2 false l).
Proof.
  induction 1 as [|x l Hs IH Hx]; [constructor|].
  unfold list_sort in *. simpl. apply insert_by_lex; [|exact IH].
  fold (list_sort key2 false l). rewrite (list_sort_perm key2 false l). exact Hx.
Qed.

Lemma StronglySorted_weaken (R R' : A → A → Prop) l :
  (∀ a b, R a b → R' a b) → StronglySorted R l → StronglySorted R' l.
Proof.
  intros HR. induction 1 as [|x l Hs IH Hx]; constructor; [exact IH|].
  eapply Forall_impl; [exact Hx|]. intros y. apply HR.
Qed.

Lemma list_sort_sorted key reverse l :
  StronglySorted (λ a b, key_before key reverse a b = true)
                 (list_sort key reverse l).
Proof.
  induction l as [|x l IH]; [constructor|].
  unfold list_sort in *. simpl.
  set (s := foldr (insert_by (key_before key reverse)) [] l) in *.
  clearbody s. induction s as [|y s IHs]; simpl.
  - repeat constructor.
  - apply StronglySorted_inv in IH as [Hs Hy].
    destruct (key_before key reverse x y) eqn:E.
    + constructor; [constructor; assumption|]. constructor; [exact E|].
      rewrite Forall_forall in Hy |- *. intros z Hz. specialize (Hy z Hz).
      unfold key_before in *. destruct reverse;
        apply Z.leb_le in E; apply Z.leb_le in Hy; apply Z.leb_le; lia.
    + constructor; [apply IHs; assumption|].
      rewrite (insert_by_perm _ x s). constructor; [|exact Hy].
      unfold key_before in *. destruct reverse;
        apply Z.leb_gt in E; apply Z.leb_le; lia.
Qed.

End Sorting.

(** ** Selection *)
Section Selection.

Implicit Types (p : Piece.t) (m : PieceManager.t).

Lemma get_next_request_unfold avail m :
  PieceManager.get_next_request avail m
  = PieceManager.request_loop (PieceManager.request_order avail m) m.
Proof.
  unfold PieceManager.get_next_request, PieceManager.request_order.
  destruct (PieceManager.needed_pieces avail m); reflexivity.
Qed.

Lemma needed_pieces_elem avail m i :
  i ∈ PieceManager.needed_pieces avail m
  ↔ i ∈ avail ∧ is_Some (PieceManager.pieces m !! i)
    ∧ i ∉ PieceManager.completed_pieces m.
Proof.
  unfold PieceManager.needed_pieces. rewrite list_elem_of_filter, elem_of_dom.
  tauto.
Qed.

Lemma request_order_no_override avail m :
  (∀ i, i ∈ PieceManager.needed_pieces avail m →
        i ∉ PieceManager.high_priority_pieces m) →
  PieceManager.request_order avail m
  = list_sort (PieceManager.missing_count m) false
      (list_sort (PieceManager.priority m) true
         (PieceManager.needed_pieces avail m)).
Proof.
  intros Hno. unfold PieceManager.request_order.
  destruct (filter _ (PieceManager.needed_pieces avail m)) as [|i l] eqn:Hf;
    [reflexivity|].
  assert (i ∈ i :: l) as Hi by (apply elem_of_cons; auto).
  rewrite <- Hf in Hi.
  apply list_elem_of_filter in Hi as [Hhp Hin]. destruct (Hno i Hin Hhp).
Qed.

Lemma request_order_override avail m :
  (∃ i, i ∈ PieceManager.needed_pieces avail m
        ∧ i ∈ PieceManager.high_priority_pieces m) →
  PieceManager.request_order avail m
  = list_sort (PieceManager.missing_count m) false
      (filter (λ x, x ∈ PieceManager.high_priority_pieces m)
              (PieceManager.needed_pieces avail m)).
Proof.
  intros (i & Hin & Hhp). unfold PieceManager.request_order.
  destruct (filter _ (PieceManager.needed_pieces avail m)) as [|j l] eqn:Hf;
    [|reflexivity].
  exfalso. exact (filter_nil_not_elem_of _ _ i Hf Hhp Hin).
Qed.

Lemma request_order_subset avail m i :
  i ∈ PieceManager.request_order avail m → i ∈ PieceManager.needed_pieces avail m.
Proof.
  unfold PieceManager.request_order.
  destruct (filter _ (PieceManager.needed_pieces avail m)) as [|j l] eqn:Hf.
  - rewrite !list_sort_elem. auto.
  - rewrite list_sort_elem, <- Hf, list_elem_of_filter. tauto.
Qed.

Lemma request_order_tracked avail m i :
  i ∈ PieceManager.request_order avail m → is_Some (PieceManager.pieces m !! i).
Proof.
  intros Hi. apply request_order_subset, needed_pieces_elem in Hi. tauto.
Qed.

Lemma missing_count_zero m i p :
  PieceManager.pieces m !! i = Some p →
  (PieceManager.missing_count m i = 0 ↔ Piece.get_missing_blocks p = []).
Proof.
  intros Hp. unfold PieceManager.missing_count, len. rewrite Hp.
  destruct (Piece.get_missing_blocks p); simpl; split; auto; try discriminate; lia.
Qed.

(** The outcome of the walk over a list of tracked candidates. *)
Lemma request_loop_first order m :
  (∀ i, i ∈ order → is_Some (PieceManager.pieces m !! i)) →
  match PieceManager.request_loop order m with
  | (None, m') => m' = m ∧ ∀ i, i ∈ order → PieceManager.missing_count m i = 0
  | (Some (i, off, n), m') =>
      ∃ pre post p k b,
        order = pre ++ i :: post
        ∧ (∀ j, j ∈ pre → PieceManager.missing_count m j = 0)
        ∧ PieceManager.pieces m !! i = Some p
        ∧ 0 < PieceManager.missing_count m i
        ∧ Piece.blocks p !! k = Some b
        ∧ Block.state_of b = Block.Missing
        ∧ (∀ j bj, (j < k)%nat → Piece.blocks p !! j = Some bj →
                   Block.state_of bj ≠ Block.Missing)
        ∧ off = Block.offset b ∧ n = Block.length b
        ∧ m' = PieceManager.set_pieces
                 (<[i := Piece.set_blocks
                           (alter (Block.set_requested true) k (Piece.blocks p)) p]>
                    (PieceManager.pieces m)) m
  end.
Proof.
  intros Htracked. pose proof (request_loop_spec order m) as Hspec.
  destruct (PieceManager.request_loop order m) as [[[[i off] n]|] m'].
  - destruct Hspec as (pre & post & p & k & b & rest & -> & Hpre & Hp & Hmiss & -> & -> & ->).
    exists pre, post, p, k, b.
    destruct (get_missing_head p k b rest Hmiss) as (Hk & Hr & Hq & Hbefore).
    split; [reflexivity|]. split.
    { intros j Hj. destruct (Htracked j) as [q Hq'].
      - apply elem_of_app. auto.
      - apply (missing_count_zero m j q Hq'). eapply Hpre; eauto. }
    split; [exact Hp|]. split.
    { unfold PieceManager.missing_count, len. rewrite Hp, Hmiss. simpl. lia. }
    split; [exact Hk|]. split.
    { unfold Block.state_of. rewrite Hr, Hq. reflexivity. }
    split; [|auto].
    intros j bj Hj Hbj Hst. apply (Hbefore j bj Hj Hbj).
    unfold Block.state_of in Hst.
    destruct (Block.received bj), (Block.requested bj); try discriminate; auto.
  - destruct Hspec as [-> Hall]. split; [reflexivity|].
    intros i Hi. destruct (Htracked i Hi) as [q Hq].
    apply (missing_count_zero m i q Hq). eapply Hall; eauto.
Qed.

End Selection.

Section SelectionClaims.

Implicit Types (p : Piece.t) (m : PieceManager.t).

(** [block.requested = True] on a missing block makes it a requested one. *)
Lemma marked_block_requested (b : Block.t) :
  Block.state_of b = Block.Missing →
  Block.state_of (Block.set_requested true b) = Block.Requested.
Proof.
  unfold Block.state_of. simpl.
  destruct (Block.received b); [discriminate|reflexivity].
Qed.

(** C1. With no high-priority candidate, [get_next_request] walks the
    tracked, not completed members of the availability set ordered by the
    number of missing blocks ascending and, among equal numbers, by numeric
    priority descending; it returns the first missing block, in partition
    order, of the first candidate that has one, and marks that block
    requested.  Of two candidates without priorities, one with 5 and one
    with 1 missing block, the latter is served. *)
Theorem get_next_request_ranking avail m :
  (∀ i, i ∈ PieceManager.needed_pieces avail m →
        i ∉ PieceManager.high_priority_pieces m) →
  let order := PieceManager.request_order avail m in
  (∀ i, i ∈ order ↔ i ∈ avail ∧ is_Some (PieceManager.pieces m !! i)
                    ∧ i ∉ PieceManager.completed_pieces m)
  ∧ order ≡ₚ PieceManager.needed_pieces avail m
  ∧ StronglySorted
      (λ a b, PieceManager.missing_count m a < PieceManager.missing_count m b
              ∨ (PieceManager.missing_count m a = PieceManager.missing_count m b
                 ∧ PieceManager.priority m b <= PieceManager.priority m a))
      order
  ∧ match PieceManager.get_next_request avail m with
    | (None, m') =>
        m' = m ∧ ∀ i, i ∈ order → PieceManager.missing_count m i = 0
    | (Some (i, off, n), m') =>
        ∃ pre post p k b,
          order = pre ++ i :: post
          ∧ (∀ j, j ∈ pre → PieceManager.missing_count m j = 0)
          ∧ PieceManager.pieces m !! i = Some p
          ∧ 0 < PieceManager.missing_count m i
          ∧ Piece.blocks p !! k = Some b
          ∧ Block.state_of b = Block.Missing
          ∧ (∀ j bj, (j < k)%nat → Piece.blocks p !! j = Some bj →
                     Block.state_of bj ≠ Block.Missing)
          ∧ off = Block.offset b ∧ n = Block.length b
          ∧ m' = PieceManager.set_pieces
                   (<[i := Piece.set_blocks
                             (alter (Block.set_requested true) k (Piece.blocks p)) p]>
                      (PieceManager.pieces m)) m
          ∧ ∃ p' b',
              PieceManager.pieces m' !! i = Some p'
              ∧ Piece.blocks p' !! k = Some b'
              ∧ Block.shape b' = Block.shape b
              ∧ Block.state_of b' = Block.Requested
              ∧ (∀ j, j ≠ k → Piece.blocks p' !! j = Piece.blocks p !! j)
              ∧ (∀ j, j ≠ i →
                      PieceManager.pieces m' !! j = PieceManager.pieces m !! j)
    end
  ∧ (∀ A B,
       PieceManager.piece_priorities m = ∅ →
       PieceManager.needed_pieces avail m ≡ₚ [A; B] →
       PieceManager.missing_count m A = 5 →
       PieceManager.missing_count m B = 1 →
       ∃ off n m', PieceManager.get_next_request avail m = (Some (B, off, n), m')).
Proof.
  intros Hno order.
  assert (order ≡ₚ PieceManager.needed_pieces avail m) as Hperm.
  { subst order. rewrite request_order_no_override by exact Hno.
    rewrite !list_sort_perm. reflexivity. }
  assert (StronglySorted
      (λ a b, PieceManager.missing_count m a < PieceManager.missing_count m b
              ∨ (PieceManager.missing_count m a = PieceManager.missing_count m b
                 ∧ PieceManager.priority m b <= PieceManager.priority m a))
      order) as Hsorted.
  { subst order. rewrite request_order_no_override by exact Hno.
    apply (list_sort_lex (PieceManager.missing_count m)
             (λ a b, PieceManager.priority m b <= PieceManager.priority m a)).
    eapply StronglySorted_weaken; [|apply list_sort_sorted].
    intros a b Hab. simpl in Hab. apply Z.leb_le in Hab. exact Hab. }
  assert (∀ i, i ∈ order → is_Some (PieceManager.pieces m !! i)) as Htracked
    by (intros i; apply request_order_tracked).
  pose proof (request_loop_first order m Htracked) as Hloop.
  unfold order in Hloop at 1. rewrite <- get_next_request_unfold in Hloop.
  fold order in Hloop.
  split; [|split; [exact Hperm|split; [exact Hsorted|split]]].
  { intros i. rewrite Hperm. apply needed_pieces_elem. }
  { revert Hloop.
    destruct (PieceManager.get_next_request avail m) as [[[[i off] n]|] m'];
      [|tauto].
    intros (pre & post & p & k & b & Ho & Hpre & Hp & Hpos & Hk & Hst & Hbefore
            & Hoff & Hn & Hm').
    exists pre, post, p, k, b. repeat (split; [assumption|]).
    exists (Piece.set_blocks (alter (Block.set_requested true) k (Piece.blocks p)) p),
           (Block.set_requested true b).
    rewrite Hm'. simpl. split; [apply lookup_insert_eq|].
    split; [rewrite list_lookup_alter_eq, Hk; reflexivity|].
    split; [reflexivity|]. split; [apply marked_block_requested; exact Hst|].
    split.
    - intros j Hj. apply list_lookup_alter_ne. congruence.
    - intros j Hj. apply lookup_insert_ne. congruence. }
  intros A B _ HAB HA HB. rewrite <- Hperm in HAB.
  assert (order = [B; A]) as Horder.
  { symmetry in HAB. apply Permutation_length_2_inv in HAB as [Ho|Ho]; [|exact Ho].
    rewrite Ho in Hsorted. apply StronglySorted_inv in Hsorted as [_ Hhd].
    apply Forall_cons in Hhd as [[Hlt|[Heq _]] _]; lia. }
  destruct (PieceManager.get_next_request avail m) as [[[[i off] n]|] m'].
  - destruct Hloop as (pre & post & p & k & b & Ho & Hpre & _ & Hpos & _).
    exists off, n, m'. rewrite Horder in Ho.
    destruct pre as [|j pre]; simpl in Ho.
    + injection Ho as <- _. reflexivity.
    + injection Ho as <- _. specialize (Hpre B). rewrite Hpre in HB; [lia|].
      apply elem_of_cons; auto.
  - destruct Hloop as [_ Hall]. specialize (Hall B). rewrite Hall in HB; [lia|].
    rewrite Horder. apply elem_of_cons; auto.
Qed.

(** C2, as the code has it.  When a candidate is high priority, the walk is
    over the high-priority candidates alone, ordered by the number of missing
    blocks ascending; candidates with the same number keep the iteration order
    of the availability set, and the numeric priorities are not looked at.
    Only blocks of high-priority pieces are returned, and one is returned as
    long as a high-priority candidate has a missing block. *)
Theorem high_priority_override avail m :
  (∃ i, i ∈ PieceManager.needed_pieces avail m
        ∧ i ∈ PieceManager.high_priority_pieces m) →
  let candidates :=
    filter (λ x, x ∈ PieceManager.high_priority_pieces m)
           (PieceManager.needed_pieces avail m) in
  let order := PieceManager.request_order avail m in
  order ≡ₚ candidates
  ∧ StronglySorted
      (λ a b, PieceManager.missing_count m a <= PieceManager.missing_count m b)
      order
  ∧ (∀ c, filter (λ x, PieceManager.missing_count m x = c) order
          = filter (λ x, PieceManager.missing_count m x = c) candidates)
  ∧ PieceManager.get_next_request avail m = PieceManager.request_loop order m
  ∧ (∀ i off n m',
       PieceManager.get_next_request avail m = (Some (i, off, n), m') →
       i ∈ PieceManager.high_priority_pieces m
       ∧ i ∈ PieceManager.needed_pieces avail m)
  ∧ ((∃ i, i ∈ candidates ∧ 0 < PieceManager.missing_count m i) →
     is_Some (PieceManager.get_next_request avail m).1)
  ∧ (∀ priorities,
       PieceManager.get_next_request avail
         (PieceManager.set_piece_priorities priorities m)
       = ((PieceManager.get_next_request avail m).1,
          PieceManager.set_piece_priorities priorities
            (PieceManager.get_next_request avail m).2)).
Proof.
  intros Hex candidates order.
  assert (order = list_sort (PieceManager.missing_count m) false candidates)
    as Horder by (apply request_order_override; exact Hex).
  assert (order ≡ₚ candidates) as Hperm
    by (rewrite Horder; apply list_sort_perm).
  assert (∀ i, i ∈ order → is_Some (PieceManager.pieces m !! i)) as Htracked
    by (intros i; apply request_order_tracked).
  pose proof (request_loop_first order m Htracked) as Hloop.
  unfold order in Hloop at 1. rewrite <- get_next_request_unfold in Hloop.
  fold order in Hloop.
  split; [exact Hperm|]. split.
  { rewrite Horder. eapply StronglySorted_weaken; [|apply list_sort_sorted].
    intros a b Hab. simpl in Hab. apply Z.leb_le in Hab. exact Hab. }
  split; [intros c; rewrite Horder; apply list_sort_stable|].
  split; [apply get_next_request_unfold|]. split; [|split].
  - intros i off n m' Hr. rewrite Hr in Hloop.
    destruct Hloop as (pre & post & p & k & b & Ho & _).
    assert (i ∈ candidates) as Hi
      by (rewrite <- Hperm, Ho; apply elem_of_app; right; apply elem_of_cons; auto).
    apply list_elem_of_filter in Hi. exact Hi.
  - intros (i & Hi & Hpos).
    destruct (PieceManager.get_next_request avail m) as [[r|] m']; simpl; [eauto|].
    destruct Hloop as [_ Hall]. rewrite (Hall i) in Hpos; [lia|].
    rewrite Hperm. exact Hi.
  - intros priorities. rewrite !get_next_request_unfold.
    assert (PieceManager.request_order avail
              (PieceManager.set_piece_priorities priorities m)
            = PieceManager.request_order avail m) as ->.
    { rewrite !request_order_override; [reflexivity|exact Hex|exact Hex]. }
    generalize (PieceManager.request_order avail m). clear. intros l.
    induction l as [|i l IH]; simpl; [reflexivity|].
    destruct (PieceManager.pieces m !! i) as [p|]; [|exact IH].
    destruct (Piece.get_missing_blocks p) as [|[k b] rest]; [exact IH|reflexivity].
Qed.

(** C10. A call of [get_next_request] that returns a block changes the
    [requested] flag of that block, which was missing and is the only block
    of its piece at that offset, and nothing else; a call that returns none
    changes nothing. *)
Theorem get_next_request_frame `{Sha1} tf avail m :
  PieceManager.reachable tf m →
  match PieceManager.get_next_request avail m with
  | (None, m') => m' = m
  | (Some (i, off, n), m') =>
      ∃ p k b,
        PieceManager.pieces m !! i = Some p
        ∧ Piece.blocks p !! k = Some b
        ∧ Block.offset b = off ∧ Block.length b = n
        ∧ Block.state_of b = Block.Missing
        ∧ Block.state_of (Block.set_requested true b) = Block.Requested
        ∧ (∀ j bj, Piece.blocks p !! j = Some bj → Block.offset bj = off → j = k)
        ∧ m' = PieceManager.set_pieces
                 (<[i := Piece.set_blocks
                           (<[k := Block.set_requested true b]> (Piece.blocks p)) p]>
                    (PieceManager.pieces m)) m
  end.
Proof.
  intros Hreach. apply reachable_invariant in Hreach as Hinv.
  assert (∀ i, i ∈ PieceManager.request_order avail m →
               is_Some (PieceManager.pieces m !! i)) as Htracked
    by (intros i; apply request_order_tracked).
  pose proof (request_loop_first _ m Htracked) as Hloop.
  rewrite <- get_next_request_unfold in Hloop.
  destruct (PieceManager.get_next_request avail m) as [[[[i off] n]|] m'];
    [|apply Hloop].
  destruct Hloop as (pre & post & p & k & b & _ & _ & Hp & _ & Hk & Hst & _ & -> & -> & ->).
  exists p, k, b. repeat split; auto.
  - unfold Block.state_of in *. simpl.
    destruct (Block.received b); [discriminate|reflexivity].
  - intros j bj Hj Hoff.
    destruct Hinv as (_ & _ & _ & Hps & _). destruct (Hps i p Hp) as [Hok _].
    destruct Hok as (_ & _ & _ & Hlen & _ & Hshape & _).
    destruct (create_blocks_spec i (Piece.length p) Hlen) as (Htiles & _).
    apply (tiles_shapes _ (Piece.blocks p)) in Htiles; [|symmetry; exact Hshape].
    eapply tiles_offset_inj; eauto.
  - do 3 f_equal. apply list_eq. intros j.
    rewrite list_lookup_alter, list_lookup_insert.
    pose proof (lookup_lt_Some _ _ _ Hk) as Hlt.
    destruct (decide (k = j)) as [<-|Hne].
    + rewrite decide_True by auto. rewrite Hk. reflexivity.
    + rewrite decide_False by tauto. reflexivity.
Qed.

End SelectionClaims.

(** ** Ingestion *)
Section Ingestion.

Context `{Sha1}.
Implicit Types (bs : list Block.t) (b : Block.t) (p : Piece.t)
  (m : PieceManager.t) (tf : TorrentFile).

(** A completed piece takes no more bytes. *)
Lemma add_block_data_completed tf i p off d :
  piece_ok tf i p → Piece.completed p = true →
  Piece.add_block_data off d p = (false, p).
Proof.
  intros (_ & _ & _ & _ & _ & _ & Hc) Hcompleted.
  destruct (Hc Hcompleted) as (_ & Hall & _).
  apply add_block_data_no_slot. right. apply find_slot_None.
  intros b Hb _ _. rewrite forallb_forall in Hall. apply Hall.
  apply list_elem_of_In. exact Hb.
Qed.

Lemma cleared_blocks_fresh idx bs bs' :
  Block.shape <$> bs = Block.shape <$> bs' →
  Forall (λ b, b = Block.init idx (Block.offset b) (Block.length b)) bs' →
  Block.clear <$> bs = bs'.
Proof.
  revert bs'. induction bs as [|b bs IH]; intros [|b' bs'] Heq Hall;
    try discriminate; [reflexivity|].
  rewrite !fmap_cons in Heq. injection Heq as Hi Ho Hl Heq.
  apply Forall_cons in Hall as [Hb' Hall].
  rewrite fmap_cons, (IH bs' Heq Hall). f_equal.
  rewrite Hb'. unfold Block.clear, Block.init. rewrite Hi, Ho, Hl.
  rewrite Hb'. reflexivity.
Qed.

Lemma reset_is_init tf i p :
  Piece.shapes p = Block.shape <$> Piece.create_blocks i (Piece.length p) →
  0 <= Piece.length p → Piece.index p = i →
  Piece.reset p = Piece.init i (Piece.length p) (Piece.hash_value p).
Proof.
  intros Hs Hl Hi. unfold Piece.reset, Piece.init. rewrite Hi. f_equal.
  apply (cleared_blocks_fresh i); [exact Hs|].
  destruct (create_blocks_spec i (Piece.length p) Hl) as (_ & Hall & _).
  eapply Forall_impl; [exact Hall|]. intros b Hb. apply Hb.
Qed.

(** C5. [add_piece_data] answers false and changes nothing for an index that
    is not tracked, answers true and changes nothing for a piece of the
    completed set, and otherwise answers what [add_block_data] of the piece
    answers. *)
Theorem add_piece_data_short_circuits tf m i off d :
  PieceManager.reachable tf m →
  (PieceManager.pieces m !! i = None →
   PieceManager.add_piece_data i off d m = (false, m))
  ∧ (i ∈ PieceManager.completed_pieces m →
     PieceManager.add_piece_data i off d m = (true, m))
  ∧ (∀ p, PieceManager.pieces m !! i = Some p →
          i ∉ PieceManager.completed_pieces m →
          (PieceManager.add_piece_data i off d m).1
          = (Piece.add_block_data off d p).1).
Proof.
  intros Hreach. apply reachable_invariant in Hreach as Hinv.
  destruct Hinv as (_ & _ & _ & Hps & Hcs).
  unfold PieceManager.add_piece_data. split; [|split].
  - intros ->. reflexivity.
  - intros Hi. destruct (Hcs i Hi) as [p Hp]. rewrite Hp.
    destruct (Hps i p Hp) as [_ Hc]. rewrite (proj1 Hc Hi). reflexivity.
  - intros p Hp Hi. rewrite Hp. destruct (Hps i p Hp) as [_ Hc].
    destruct (Piece.completed p) eqn:Hcp; [exfalso; apply Hi, Hc; reflexivity|].
    destruct (Piece.add_block_data off d p) as [success p']. simpl.
    destruct (success && Piece.completed p'); [|reflexivity].
    destruct (Piece.verified p'); [|reflexivity].
    destruct (PieceManager.on_piece_completed _); reflexivity.
Qed.

(** C3. When the block that [add_piece_data] ingests makes the piece
    complete and the digest of the buffer differs from the expected one, the
    piece is as it was created: every block missing without payload, the
    buffer zero, neither completed nor verified; its index is not in the
    completed set and no callback is called.  No tracked piece is left
    completed and not verified. *)
Theorem failed_verification_resets tf m i off d p :
  PieceManager.reachable tf m →
  PieceManager.pieces m !! i = Some p →
  let r := Piece.add_block_data off d p in
  r.1 = true → Piece.is_complete r.2 = true →
  sha1_hash (Piece.data r.2) ≠ Piece.hash_value p →
  let out := PieceManager.add_piece_data i off d m in
  out.1 = true
  ∧ (∃ p', PieceManager.pieces out.2 !! i = Some p'
           ∧ p' = Piece.init i (get_piece_length tf i) (get_piece_hash tf i)
           ∧ Forall (λ b, Block.state_of b = Block.Missing ∧ Block.data b = None)
                    (Piece.blocks p')
           ∧ Piece.shapes p' = Piece.shapes p
           ∧ Piece.data p' = Piece.bytearray (Piece.length p)
           ∧ Piece.completed p' = false ∧ Piece.verified p' = false
           ∧ out.2 = PieceManager.set_pieces (<[i := p']> (PieceManager.pieces m)) m)
  ∧ (i ∉ PieceManager.completed_pieces out.2)
  ∧ PieceManager.delivered out.2 = PieceManager.delivered m
  ∧ (∀ j q, PieceManager.pieces out.2 !! j = Some q →
            Piece.completed q = true → Piece.verified q = true).
Proof.
  intros Hreach Hp r Htrue Hcomplete Hhash out.
  pose proof (reachable_invariant tf m Hreach) as Hinv.
  pose proof (invariant_add_piece_data tf m i off d Hinv) as Hinv'.
  fold out in Hinv'.
  destruct Hinv as (_ & _ & _ & Hps & _). destruct (Hps i p Hp) as [Hok Hc].
  assert (Piece.completed p = false) as Hcp.
  { destruct (Piece.completed p) eqn:E; [|reflexivity].
    subst r. rewrite (add_block_data_completed tf i p off d Hok E) in Htrue.
    discriminate. }
  destruct (add_block_data_shapes off d p) as (Hs & Hi & Hl & Hh).
  destruct (add_block_data_inv off d p)
    as [(Hf & _)|(k & b & _ & _ & _ & _ & _ & _ & _ & _ & _ & _ & _ & Hcc & Hvv)];
    [fold r in Hf; congruence|].
  fold r in Hs, Hi, Hl, Hh, Hcc, Hvv. simpl in Hcc, Hvv.
  unfold Piece.is_complete in Hcomplete. rewrite Hcomplete in Hcc, Hvv.
  rewrite bool_decide_eq_false_2 in Hvv by exact Hhash.
  assert (out = (true, PieceManager.set_pieces
                         (<[i := Piece.reset r.2]> (PieceManager.pieces m)) m))
    as Hout.
  { subst out. unfold PieceManager.add_piece_data. rewrite Hp, Hcp.
    fold r. destruct r as [success p'] eqn:Hr. simpl in *.
    rewrite Htrue, Hcc, Hvv. simpl. rewrite insert_insert_eq. reflexivity. }
  assert (Piece.reset r.2
          = Piece.init i (get_piece_length tf i) (get_piece_hash tf i)) as Hinit.
  { destruct Hok as (_ & Hidx & Hlen & Hl0 & Hhv & Hshape & _).
    rewrite <- Hlen, <- Hhv, <- Hl, <- Hh.
    apply (reset_is_init tf); [|lia|congruence].
    unfold Piece.shapes in *. rewrite Hs, Hl. exact Hshape. }
  split; [rewrite Hout; reflexivity|]. split; [|split; [|split]].
  - exists (Piece.reset r.2). rewrite Hout. simpl.
    split; [apply lookup_insert_eq|]. split; [exact Hinit|].
    split; [|split; [|split; [|split; [|split]]]]; auto.
    + apply Forall_fmap, Forall_true. intros b'. split; reflexivity.
    + unfold Piece.shapes in *. simpl. rewrite shapes_fmap by reflexivity. exact Hs.
    + rewrite Hl. reflexivity.
  - rewrite Hout. simpl. intros Hin. apply Hc in Hin. congruence.
  - rewrite Hout. reflexivity.
  - intros j q Hq Hcq. destruct Hinv' as (_ & _ & _ & Hps' & _).
    destruct (Hps' j q Hq) as [(_ & _ & _ & _ & _ & _ & Hv) _].
    apply Hv. exact Hcq.
Qed.

End Ingestion.

(** ** What the operations leave alone *)
Section Frames.

Context `{Sha1}.
Implicit Types (bs : list Block.t) (b : Block.t) (p : Piece.t)
  (m : PieceManager.t) (tf : TorrentFile).

Lemma set_piece_priority_only_priorities i v m :
  PieceManager.set_piece_priority i v m
  = PieceManager.set_piece_priorities
      (PieceManager.piece_priorities (PieceManager.set_piece_priority i v m)) m.
Proof.
  unfold PieceManager.set_piece_priority.
  destruct ((1 <=? v) && (v <=? 10)); [reflexivity|]. destruct m; reflexivity.
Qed.

Lemma sequential_loop_only_priorities indices total m :
  (PieceManager.sequential_loop indices total m).2
  = PieceManager.set_piece_priorities
      (PieceManager.piece_priorities
         (PieceManager.sequential_loop indices total m).2) m.
Proof.
  revert m. induction indices as [|i rest IH]; intros m; simpl.
  - destruct m; reflexivity.
  - destruct (PieceManager.floordiv i _) as [e|q]; simpl; [destruct m; reflexivity|].
    etransitivity; [apply IH|].
    generalize (PieceManager.piece_priorities
                  (PieceManager.sequential_loop rest total
                     (PieceManager.set_piece_priority i (10 - q) m)).2).
    intros X. rewrite set_piece_priority_only_priorities. reflexivity.
Qed.

(** An operation keeps the completed set and the buffers of its pieces. *)
Lemma exec_keeps_completed tf o m i p :
  invariant tf m →
  i ∈ PieceManager.completed_pieces m → PieceManager.pieces m !! i = Some p →
  i ∈ PieceManager.completed_pieces (PieceManager.exec o m)
  ∧ ∃ p', PieceManager.pieces (PieceManager.exec o m) !! i = Some p'
          ∧ Piece.data p' = Piece.data p.
Proof.
  intros Hinv Hi Hp. pose proof Hinv as (_ & _ & _ & Hps & _).
  destruct (Hps i p Hp) as [Hok Hc]. apply Hc in Hi as Hcp.
  destruct o; simpl; try (split; [exact Hi|exists p; split; [exact Hp|reflexivity]]).
  - (* add_piece_data *)
    unfold PieceManager.add_piece_data.
    destruct (PieceManager.pieces m !! piece_index) as [q|] eqn:Hq;
      [|split; [exact Hi|eauto]].
    destruct (Piece.completed q) eqn:Hcq; [split; [exact Hi|eauto]|].
    assert (piece_index ≠ i) as Hne by (intros ->; congruence).
    destruct (Piece.add_block_data offset d q) as [success q'].
    destruct (success && Piece.completed q'); simpl.
    + destruct (Piece.verified q'); simpl.
      * destruct (PieceManager.on_piece_completed m); simpl;
          (split; [apply elem_of_union_r; exact Hi|]);
          exists p; rewrite lookup_insert_ne by exact Hne; auto.
      * split; [exact Hi|]. exists p.
        rewrite !lookup_insert_ne by exact Hne. auto.
    + split; [exact Hi|]. exists p. rewrite lookup_insert_ne by exact Hne. auto.
  - (* get_next_request *)
    rewrite get_next_request_unfold.
    pose proof (request_loop_spec (PieceManager.request_order available_pieces m) m)
      as Hspec.
    destruct (PieceManager.request_loop _ m) as [[[[j off] n]|] m']; simpl.
    + destruct Hspec as (pre & post & q & k & b & rest & _ & _ & Hq & _ & _ & _ & ->).
      simpl. split; [exact Hi|]. rewrite lookup_insert.
      destruct (decide (j = i)) as [->|]; [|eauto].
      rewrite Hp in Hq. injection Hq as <-. eexists; split; reflexivity.
    + destruct Hspec as [-> _]. split; [exact Hi|eauto].
  - (* mark_block_requested *)
    unfold PieceManager.mark_block_requested.
    destruct (PieceManager.pieces m !! piece_index) as [q|] eqn:Hq;
      [|split; [exact Hi|eauto]].
    destruct (list_find _ _) as [[k b]|]; [|split; [exact Hi|eauto]].
    simpl. split; [exact Hi|]. rewrite lookup_insert.
    destruct (decide (piece_index = i)) as [->|]; [|eauto].
    rewrite Hp in Hq. injection Hq as <-. eexists; split; reflexivity.
  - (* reset_piece_requests *)
    unfold PieceManager.reset_piece_requests.
    destruct (PieceManager.pieces m !! piece_index) as [q|] eqn:Hq;
      [|split; [exact Hi|eauto]].
    simpl. split; [exact Hi|]. rewrite lookup_insert.
    destruct (decide (piece_index = i)) as [->|]; [|eauto].
    rewrite Hp in Hq. injection Hq as <-. eexists; split; reflexivity.
  - (* set_piece_priority *)
    rewrite set_piece_priority_only_priorities. simpl. eauto.
  - (* set_sequential_download *)
    destruct enable; simpl; [|eauto].
    rewrite sequential_loop_only_priorities. simpl. eauto.
Qed.

(** C6. The blocks of a tracked piece of length [L > 0] tile [[0, L)] in
    order: every block but the last is 16384 bytes long, the last one at
    most; the loop that builds them ends, and no operation changes the
    offsets and lengths. *)
Theorem blocks_partition_fixed tf m i p :
  PieceManager.reachable tf m →
  PieceManager.pieces m !! i = Some p →
  0 < Piece.length p →
  let bs := Piece.blocks p in
  Piece.create_blocks_loop (Z.to_nat (Piece.length p)) i (Piece.length p) 0
  = Some (Piece.create_blocks i (Piece.length p))
  ∧ Piece.tiles bs 0 (Piece.length p)
  ∧ (∀ k b, bs !! k = Some b → (S k < length bs)%nat →
            Block.length b = BLOCK_SIZE)
  ∧ (∃ b, last bs = Some b ∧ 0 < Block.length b <= BLOCK_SIZE)
  ∧ Piece.length p = get_piece_length tf i
  ∧ Piece.shapes p = Block.shape <$> Piece.create_blocks i (get_piece_length tf i)
  ∧ (∀ o, ∃ p', PieceManager.pieces (PieceManager.exec o m) !! i = Some p'
                ∧ Piece.shapes p' = Piece.shapes p
                ∧ Piece.length p' = Piece.length p).
Proof.
  intros Hreach Hp Hpos bs.
  pose proof (reachable_invariant tf m Hreach) as Hinv.
  pose proof Hinv as (_ & _ & Hdom & Hps & _).
  destruct (Hps i p Hp) as [(Hi & Hidx & Hlen & Hl0 & Hh & Hshape & _) _].
  destruct (create_blocks_spec i (Piece.length p) Hl0) as (Htiles & Hall & Hstd).
  unfold Piece.shapes in Hshape. fold bs in Hshape.
  assert (length bs = length (Piece.create_blocks i (Piece.length p))) as Hlength
    by (rewrite <- (length_fmap Block.shape bs), Hshape, length_fmap; reflexivity).
  assert (∀ k b, bs !! k = Some b →
                 ∃ b', Piece.create_blocks i (Piece.length p) !! k = Some b'
                       ∧ Block.shape b' = Block.shape b) as Hsame.
  { intros k b Hk.
    assert ((Block.shape <$> bs) !! k = Some (Block.shape b)) as Hk'
      by (rewrite list_lookup_fmap, Hk; reflexivity).
    rewrite Hshape, list_lookup_fmap in Hk'.
    destruct (Piece.create_blocks i (Piece.length p) !! k) as [b'|];
      [|discriminate].
    simpl in Hk'. exists b'. split; [reflexivity|congruence]. }
  split; [apply create_blocks_loop_fuel; exact Hl0|].
  split; [apply (tiles_shapes (Piece.create_blocks i (Piece.length p)));
          [symmetry; exact Hshape|exact Htiles]|].
  split; [|split; [|split; [exact Hlen|split]]].
  - intros k b Hk Hlt. destruct (Hsame k b Hk) as (b' & Hk' & Hs).
    injection Hs as _ _ Hl. rewrite <- Hl. apply (Hstd k b' Hk'). lia.
  - destruct bs as [|b0 bs0] eqn:Hbs.
    + exfalso. symmetry in Hshape. apply fmap_nil_inv in Hshape.
      rewrite Hshape in Htiles. simpl in Htiles. lia.
    + destruct (last (b0 :: bs0)) as [b|] eqn:Hlast;
        [|apply last_None in Hlast; discriminate].
      exists b. split; [reflexivity|].
      rewrite last_lookup in Hlast. destruct (Hsame _ b Hlast) as (b' & Hk' & Hs).
      injection Hs as _ _ Hl. rewrite <- Hl.
      rewrite Forall_forall in Hall.
      apply (Hall b'). eapply list_elem_of_lookup_2; eauto.
  - rewrite <- Hlen. exact Hshape.
  - intros o. pose proof (invariant_exec tf o m Hinv) as (_ & _ & Hdom' & Hps' & _).
    destruct (proj2 (Hdom' i) Hi) as [p' Hp']. exists p'. split; [exact Hp'|].
    destruct (Hps' i p' Hp') as [(_ & _ & Hlen' & _ & _ & Hshape' & _) _].
    unfold Piece.shapes in *. unfold bs in Hshape.
    split; [|congruence]. rewrite Hshape', Hshape, Hlen', Hlen. reflexivity.
Qed.

(** C9. In a reachable state every index of the completed set is of a
    tracked piece, all of whose blocks are received, which is completed and
    verified and whose buffer has the expected digest; an operation neither
    takes the index out of the completed set nor changes the buffer. *)
Theorem completed_pieces_stable tf m :
  PieceManager.reachable tf m →
  (∀ i, i ∈ PieceManager.completed_pieces m →
        ∃ p, PieceManager.pieces m !! i = Some p
             ∧ Forall (λ b, Block.state_of b = Block.Received) (Piece.blocks p)
             ∧ Piece.completed p = true ∧ Piece.verified p = true
             ∧ sha1_hash (Piece.data p) = Piece.hash_value p
             ∧ Piece.hash_value p = get_piece_hash tf i
             ∧ PieceManager.get_piece_data i m = Some (Piece.data p))
  ∧ (∀ o i p,
       i ∈ PieceManager.completed_pieces m →
       PieceManager.pieces m !! i = Some p →
       i ∈ PieceManager.completed_pieces (PieceManager.exec o m)
       ∧ ∃ p', PieceManager.pieces (PieceManager.exec o m) !! i = Some p'
               ∧ Piece.data p' = Piece.data p).
Proof.
  intros Hreach. pose proof (reachable_invariant tf m Hreach) as Hinv.
  split.
  - intros i Hi. destruct Hinv as (_ & _ & _ & Hps & Hcs).
    destruct (Hcs i Hi) as [p Hp]. exists p. split; [exact Hp|].
    destruct (Hps i p Hp) as [(_ & _ & _ & _ & Hh & _ & Hc) Hin].
    apply Hin in Hi as Hcp. destruct (Hc Hcp) as (Hv & Hall & Hsha).
    split; [|split; [exact Hcp|split; [exact Hv|split; [exact Hsha|split; [exact Hh|]]]]].
    + rewrite forallb_forall in Hall. apply Forall_forall. intros b Hb.
      unfold Block.state_of. rewrite (Hall b); [reflexivity|].
      apply list_elem_of_In. exact Hb.
    + unfold PieceManager.get_piece_data. rewrite bool_decide_eq_true_2 by exact Hi.
      rewrite Hp. reflexivity.
  - intros o i p Hi Hp. apply (exec_keeps_completed tf); assumption.
Qed.

End Frames.

(** ** Priorities in sequential mode *)
Section Sequential.

Context `{Sha1}.
Implicit Types (m : PieceManager.t) (tf : TorrentFile).

Lemma range_length n : length (range n) = Z.to_nat n.
Proof. unfold range. rewrite length_fmap, length_seq. reflexivity. Qed.

Lemma range_NoDup n : NoDup (range n).
Proof.
  unfold range. apply NoDup_fmap_2; [|apply NoDup_seq].
  intros a b Hab. lia.
Qed.

Lemma pieces_size tf m :
  invariant tf m → 0 <= get_total_pieces tf →
  Z.of_nat (size (PieceManager.pieces m)) = get_total_pieces tf.
Proof.
  intros (_ & _ & Hdom & _) Hpos.
  assert (dom (PieceManager.pieces m) = list_to_set (range (get_total_pieces tf)))
    as Hd.
  { apply set_eq. intros i.
    rewrite elem_of_dom, Hdom, elem_of_list_to_set, range_elem. reflexivity. }
  rewrite <- size_dom, Hd, size_list_to_set by apply range_NoDup.
  rewrite range_length. lia.
Qed.

Lemma sequential_loop_priorities indices total m :
  total / 10 ≠ 0 →
  (PieceManager.sequential_loop indices total m).1 = None
  ∧ ∀ i,
      PieceManager.piece_priorities
        (PieceManager.sequential_loop indices total m).2 !! i
      = if decide (i ∈ indices ∧ 1 <= spec_sequential_priority total i <= 10)
        then Some (spec_sequential_priority total i)
        else PieceManager.piece_priorities m !! i.
Proof.
  intros Hw. revert m. induction indices as [|j rest IH]; intros m.
  - split; [reflexivity|]. intros i.
    rewrite decide_False; [reflexivity|]. intros [Hin _]. apply elem_of_nil in Hin as [].
  - change (PieceManager.sequential_loop (j :: rest) total m)
      with (match PieceManager.floordiv j (total / 10) with
            | inl e => (Some e, m)
            | inr bucket =>
                PieceManager.sequential_loop rest total
                  (PieceManager.set_piece_priority j (10 - bucket) m)
            end).
    unfold PieceManager.floordiv.
    destruct (Z.eqb_spec (total / 10) 0) as [?|_]; [contradiction|].
    destruct (IH (PieceManager.set_piece_priority j (10 - j / (total / 10)) m))
      as [Hnone Hlook].
    split; [exact Hnone|]. intros i. rewrite Hlook. clear Hlook Hnone IH.
    fold (spec_sequential_priority total j).
    unfold PieceManager.set_piece_priority.
    destruct (decide (i ∈ rest ∧ 1 <= spec_sequential_priority total i <= 10))
      as [[Hin Hok]|Hnot].
    + rewrite decide_True; [reflexivity|]. split; [apply elem_of_cons; auto|exact Hok].
    + destruct (Z.leb_spec 1 (spec_sequential_priority total j));
        destruct (Z.leb_spec (spec_sequential_priority total j) 10); simpl.
      * rewrite lookup_insert. destruct (decide (j = i)) as [->|Hne].
        -- rewrite decide_True; [reflexivity|].
           split; [apply elem_of_cons; auto|lia].
        -- rewrite decide_False; [reflexivity|].
           intros [Hin Hok]. apply elem_of_cons in Hin as [?|?]; [congruence|tauto].
      * rewrite decide_False; [reflexivity|]. intros [Hin Hok].
        apply elem_of_cons in Hin as [->|?]; [lia|tauto].
      * rewrite decide_False; [reflexivity|]. intros [Hin Hok].
        apply elem_of_cons in Hin as [->|?]; [lia|tauto].
      * rewrite decide_False; [reflexivity|]. intros [Hin Hok].
        apply elem_of_cons in Hin as [->|?]; [lia|tauto].
Qed.

(** X23.  What [set_sequential_download] does.  With at least ten pieces,
    [set_sequential_download(True)] gives every index [i] whose value
    [10 - i // (total // 10)] is at least 1 that explicit priority and
    leaves the explicit priority of every other index as it was; when
    the number of pieces is a multiple of ten that is every index.
    [set_sequential_download(False)] removes every explicit priority, so
    every piece has the default 5. *)
Theorem sequential_download_priorities tf m :
  PieceManager.reachable tf m →
  let total := get_total_pieces tf in
  let on := PieceManager.set_sequential_download true m in
  let off := PieceManager.set_sequential_download false m in
  (10 <= total →
   Z.of_nat (size (PieceManager.pieces m)) = total
   ∧ on.1 = None
   ∧ (∀ i, 0 <= i < total → 1 <= spec_sequential_priority total i →
           PieceManager.piece_priorities on.2 !! i
           = Some (spec_sequential_priority total i))
   ∧ (∀ i, ¬ (0 <= i < total ∧ 1 <= spec_sequential_priority total i) →
           PieceManager.piece_priorities on.2 !! i
           = PieceManager.piece_priorities m !! i)
   ∧ (total mod 10 = 0 → ∀ i, 0 <= i < total →
        PieceManager.piece_priorities on.2 !! i
        = Some (spec_sequential_priority total i))
   ∧ on.2 = PieceManager.set_piece_priorities
              (PieceManager.piece_priorities on.2) m)
  ∧ off = (None, PieceManager.set_piece_priorities ∅ m)
  ∧ (∀ i, PieceManager.priority off.2 i = 5).
Proof.
  intros Hreach total on off.
  pose proof (reachable_invariant tf m Hreach) as Hinv.
  split; [|split; [reflexivity|]].
  2:{ intros i. unfold PieceManager.priority. simpl. rewrite lookup_empty.
      reflexivity. }
  intros Hten.
  assert (Z.of_nat (size (PieceManager.pieces m)) = total) as Hsize
    by (apply (pieces_size tf); [exact Hinv|unfold total in *; lia]).
  assert (0 < total / 10) as Hw
    by (apply Z.div_str_pos; lia).
  assert (∀ i, 0 <= i → spec_sequential_priority total i <= 10) as Hup.
  { intros i Hi. unfold spec_sequential_priority.
    pose proof (Z.div_pos i (total / 10) Hi Hw). lia. }
  destruct (sequential_loop_priorities (range total) total m ltac:(lia))
    as [Hnone Hlook].
  subst on. unfold PieceManager.set_sequential_download. rewrite Hsize.
  split; [reflexivity|]. split; [exact Hnone|].
  assert (∀ i, 0 <= i < total → 1 <= spec_sequential_priority total i →
     PieceManager.piece_priorities
       (PieceManager.sequential_loop (range total) total m).2 !! i
     = Some (spec_sequential_priority total i)) as Hset.
  { intros i Hi Hone. rewrite Hlook. rewrite decide_True; [reflexivity|].
    split; [apply range_elem; exact Hi|]. split; [exact Hone|apply Hup; lia]. }
  split; [exact Hset|]. split; [|split].
  - intros i Hnot. rewrite Hlook. rewrite decide_False; [reflexivity|].
    intros [Hin Hok]. apply Hnot. split; [apply range_elem; exact Hin|lia].
  - intros Hmod i Hi. apply Hset; [exact Hi|].
    unfold spec_sequential_priority.
    assert (i / (total / 10) < 10); [|lia].
    apply Z.div_lt_upper_bound; [exact Hw|].
    pose proof (Z.div_mod total 10 ltac:(lia)). lia.
  - apply sequential_loop_only_priorities.
Qed.

End Sequential.

(** ** The rate limiter *)
Section RateLimit.

Context `{Sha1}.
Implicit Types (m : PieceManager.t) (tf : TorrentFile).

Lemma in_window_five now m :
  PieceManager.rate_window_size m = 5 →
  filter (λ tb, PieceManager.in_window now m tb)
         (PieceManager.bytes_downloaded_window m)
  = filter (λ tb : float * Z, float_le_int (float_sub now tb.1) 5)
           (PieceManager.bytes_downloaded_window m).
Proof.
  intros Hw. apply list_filter_iff. intros tb.
  unfold PieceManager.in_window. rewrite Hw. tauto.
Qed.

Lemma int_true_divide_exn a b e :
  int_true_divide a b = inl e →
  (e = ZeroDivisionError ∧ b = 0) ∨ (e = OverflowError ∧ b ≠ 0).
Proof.
  unfold int_true_divide. destruct (Z.eqb_spec b 0) as [->|Hb].
  - intros [= <-]. left. split; reflexivity.
  - intros He. right. split; [|exact Hb]. destruct e; [|reflexivity].
    destruct (a =? 0); [discriminate|].
    destruct (SFdiv_core_binary 53 1024 (Z.abs a) 0 (Z.abs b) 0) as [[mz ez] lz].
    destruct (binary_round_aux 53 1024 _ mz ez lz); discriminate.
Qed.

(** *** Floats that are computed without rounding *)

Lemma digits2_log2 (m : positive) : Z.pos (digits2_pos m) = Z.log2 (Z.pos m) + 1.
Proof.
  induction m as [m IH|m IH|]; simpl digits2_pos.
  - rewrite Pos2Z.inj_succ, IH. 
    change (Z.pos m~1) with (2 * Z.pos m + 1).
    rewrite Z.log2_succ_double by lia. lia.
  - rewrite Pos2Z.inj_succ, IH.
    change (Z.pos m~0) with (2 * Z.pos m).
    rewrite Z.log2_double by lia. lia.
  - reflexivity.
Qed.

Lemma iter_xO (m d : positive) : Z.pos (Pos.iter xO m d) = Z.pos m * 2 ^ Z.pos d.
Proof.
  induction d as [|d IH] using Pos.peano_ind.
  - simpl. lia.
  - rewrite Pos.iter_succ, Pos2Z.inj_succ, Z.pow_succ_r by lia.
    change (Z.pos (Pos.iter xO m d)~0) with (2 * Z.pos (Pos.iter xO m d)).
    rewrite IH. lia.
Qed.

Lemma shr_1_double (a : Z) :
  shr_1 {| shr_m := 2 * a; shr_r := false; shr_s := false |}
  = {| shr_m := a; shr_r := false; shr_s := false |}.
Proof. destruct a; reflexivity. Qed.

Lemma iter_shr_1 (p : positive) : ∀ a : Z,
  SpecFloat.iter_pos shr_1 p
    {| shr_m := a * 2 ^ Z.pos p; shr_r := false; shr_s := false |}
  = {| shr_m := a; shr_r := false; shr_s := false |}.
Proof.
  induction p as [p IH|p IH|]; intros a; cbn [SpecFloat.iter_pos].
  - replace (a * 2 ^ Z.pos p~1) with (2 * ((a * 2 ^ Z.pos p) * 2 ^ Z.pos p)).
    + rewrite shr_1_double, IH, IH. reflexivity.
    + replace (Z.pos p~1) with (Z.pos p + Z.pos p + 1) by lia.
      rewrite !Z.pow_add_r by lia. lia.
  - replace (a * 2 ^ Z.pos p~0) with ((a * 2 ^ Z.pos p) * 2 ^ Z.pos p).
    + rewrite IH, IH. reflexivity.
    + replace (Z.pos p~0) with (Z.pos p + Z.pos p) by lia.
      rewrite Z.pow_add_r by lia. lia.
  - replace (a * 2 ^ 1) with (2 * a) by lia. apply shr_1_double.
Qed.

(** The float of [m * 2^e], when it is [k * 2^e'] with [k] of 53 bits. *)
Lemma binary_round_exact (s : bool) (m k : positive) (e e' : Z) :
  Z.pos (digits2_pos k) = 53 →
  -1074 <= e' <= 971 →
  (e' <= e ∧ Z.pos k = Z.pos m * 2 ^ (e - e'))
  ∨ (e < e' ∧ Z.pos m = Z.pos k * 2 ^ (e' - e)) →
  binary_round 53 1024 s m e = S754_finite s k e'.
Proof.
  intros Hk He' Hrel.
  assert (Z.pos (digits2_pos m) + e - 53 = e') as Hd.
  { rewrite digits2_log2 in Hk |- *.
    destruct Hrel as [[Hle Hkm]|[Hlt Hmk]].
    - rewrite Hkm in Hk. rewrite Z.log2_mul_pow2 in Hk by lia. lia.
    - rewrite Hmk. rewrite Z.log2_mul_pow2 by lia. lia. }
  unfold binary_round.
  assert (fexp 53 1024 (Z.pos (digits2_pos m) + e) = e') as ->.
  { unfold fexp, emin. lia. }
  assert (fexp 53 1024 (Z.pos (digits2_pos k) + e') = e') as Hfk.
  { unfold fexp, emin. lia. }
  assert (binary_round_aux 53 1024 s (Z.pos k) e' loc_Exact = S754_finite s k e')
    as Haux.
  { unfold binary_round_aux, shr_fexp. cbn [Zdigits2 shr_record_of_loc].
    rewrite Hfk, Z.sub_diag. cbn [shr shr_m loc_of_shr_record round_nearest_even].
    cbn [Zdigits2 shr_record_of_loc]. rewrite Hfk, Z.sub_diag. cbn [shr shr_m].
    destruct (Z.leb_spec e' (1024 - 53)) as [_|Hbad]; [reflexivity|lia]. }
  destruct Hrel as [[Hle Hkm]|[Hlt Hmk]].
  - unfold shl_align. destruct (e' - e) as [|d|d] eqn:Hdiff.
    + assert (e' = e) as -> by lia. rewrite Z.sub_diag, Z.mul_1_r in Hkm.
      injection Hkm as ->. exact Haux.
    + lia.
    + assert (Pos.iter xO m d = k) as ->.
      { apply Pos2Z.inj. rewrite iter_xO, Hkm. f_equal. f_equal. lia. }
      exact Haux.
  - unfold shl_align. destruct (e' - e) as [|d|d] eqn:Hdiff; [lia| |lia].
    unfold binary_round_aux, shr_fexp. cbn [Zdigits2 shr_record_of_loc].
    assert (fexp 53 1024 (Z.pos (digits2_pos m) + e) - e = Z.pos d) as ->.
    { unfold fexp, emin. lia. }
    cbn [shr]. rewrite Hmk, iter_shr_1.
    cbn [shr_m loc_of_shr_record round_nearest_even Zdigits2 shr_record_of_loc].
    replace (e + Z.pos d) with e' by lia.
    rewrite Hfk, Z.sub_diag. cbn [shr shr_m].
    destruct (Z.leb_spec e' (1024 - 53)) as [_|Hbad]; [reflexivity|lia].
Qed.

Lemma digits2_bound (n : positive) : Z.pos n < 2 ^ 53 → Z.pos (digits2_pos n) <= 53.
Proof.
  intros Hn. rewrite digits2_log2.
  assert (Z.log2 (Z.pos n) < 53); [|lia].
  apply Z.log2_lt_pow2; lia.
Qed.

Lemma mantissa_value (n : positive) :
  Z.pos n < 2 ^ 53 →
  Z.pos (mantissa n) = Z.pos n * 2 ^ (53 - Z.pos (digits2_pos n)).
Proof.
  intros Hn. pose proof (digits2_bound n Hn) as Hd. unfold mantissa.
  rewrite Z2Pos.id; [reflexivity|].
  apply Z.mul_pos_pos; [lia|]. apply Z.pow_pos_nonneg; lia.
Qed.

Lemma mantissa_digits (n : positive) :
  Z.pos n < 2 ^ 53 → Z.pos (digits2_pos (mantissa n)) = 53.
Proof.
  intros Hn. pose proof (digits2_bound n Hn) as Hd.
  rewrite digits2_log2, (mantissa_value n Hn).
  rewrite Z.log2_mul_pow2 by lia. rewrite digits2_log2. lia.
Qed.

Lemma ticks_pos (n : positive) :
  Z.pos n < 2 ^ 53 →
  ticks (Z.pos n) = S754_finite false (mantissa n) (Z.pos (digits2_pos n) - 75).
Proof.
  intros Hn. pose proof (digits2_bound n Hn) as Hd.
  unfold ticks, binary_normalize. apply binary_round_exact.
  - apply mantissa_digits, Hn.
  - lia.
  - left. split; [lia|]. rewrite (mantissa_value n Hn). f_equal. f_equal. lia.
Qed.





(** Every float from [2^30] up to [2^31], which has the exponent [-22], is on
    the grid. *)
Lemma ticks_cover (m : positive) :
  valid_binary 53 1024 (S754_finite false m (-22)) = true →
  2 ^ 52 <= Z.pos m < 2 ^ 53 ∧ S754_finite false m (-22) = ticks (Z.pos m).
Proof.
  unfold valid_binary, bounded, canonical_mantissa, fexp, emin.
  intros Hv. apply andb_prop in Hv as [Hc _]. apply Z.eqb_eq in Hc.
  assert (Z.pos (digits2_pos m) = 53) as Hd by lia.
  assert (2 ^ 52 <= Z.pos m < 2 ^ 53) as Hm.
  { rewrite digits2_log2 in Hd.
    pose proof (Z.log2_spec (Z.pos m) ltac:(lia)) as Hs.
    replace (Z.log2 (Z.pos m)) with 52 in Hs by lia.
    exact Hs. }
  split; [exact Hm|].
  rewrite (ticks_pos m) by lia. rewrite Hd. f_equal.
  apply Pos2Z.inj. rewrite mantissa_value by lia. rewrite Hd. simpl. lia.
Qed.

(** The clock value [ticks i] is [i / 2^22] seconds. *)
Lemma ticks_exact (i : Z) :
  0 <= i < 2 ^ 53 →
  ∃ q, float_exact (ticks i) = Some q ∧ (q == inject_Z i / inject_Z (2 ^ 22))%Q.
Proof.
  intros Hi. destruct i as [|i|i]; [| |lia].
  - exists 0%Q. split; reflexivity.
  - assert (Z.pos i < 2 ^ 53) as Hi53 by lia.
    pose proof (digits2_bound i Hi53) as Hd.
    rewrite (ticks_pos i Hi53). eexists. split; [reflexivity|].
    rewrite (mantissa_value i Hi53), inject_Z_mult.
    rewrite (Zpower_Qpower 2 (53 - Z.pos (digits2_pos i))) by lia.
    rewrite (Zpower_Qpower 2 22) by lia.
    rewrite <- Qmult_assoc, <- Qpower_plus by discriminate.
    replace (53 - Z.pos (digits2_pos i) + (Z.pos (digits2_pos i) - 75))
      with (- (22)) by lia.
    rewrite Qpower_opp. reflexivity.
Qed.

(** The value of [check_rate_limit] on the pruned window [kept], for the
    window of 5 seconds. *)
Lemma check_rate_limit_five now n m :
  PieceManager.rate_window_size m = 5 →
  let kept := filter (λ tb : float * Z, float_le_int (float_sub now tb.1) 5)
                     (PieceManager.bytes_downloaded_window m) in
  PieceManager.check_rate_limit now n m
  = (match
       match kept with
       | _ :: _ => int_true_divide (PieceManager.window_bytes kept) 5
       | [] => inr (S754_zero false)
       end
     with
     | inl e => inl e
     | inr current_rate =>
         match int_true_divide n 5 with
         | inl e => inl e
         | inr requested_rate =>
             inr (float_le_int (float_add current_rate requested_rate)
                               (PieceManager.download_rate_limit m))
         end
     end, PieceManager.set_window kept m).
Proof.
  intros Hw kept. unfold PieceManager.check_rate_limit.
  rewrite (in_window_five now m Hw). fold kept.
  change (PieceManager.rate_window_size (PieceManager.set_window kept m))
    with (PieceManager.rate_window_size m).
  change (PieceManager.download_rate_limit (PieceManager.set_window kept m))
    with (PieceManager.download_rate_limit m).
  rewrite Hw. reflexivity.
Qed.




(** [float_le_int] compares the exact value of the float with the
    integer. *)
Lemma float_le_int_exact (x : float) (q : Q) (n : Z) :
  float_exact x = Some q →
  float_le_int x n = true ↔ (q <= inject_Z n)%Q.
Proof.
  destruct x as [s|s| |s mx ex]; simpl; try discriminate.
  - intros [= <-]. rewrite Z.leb_le. rewrite (Zle_Qle 0 n). reflexivity.
  - intros [= <-]. set (v := if s then Z.neg mx else Z.pos mx).
    destruct (Z.leb_spec 0 ex) as [Hex|Hex]; rewrite Z.leb_le.
    + rewrite Zle_Qle, inject_Z_mult, Zpower_Qpower by exact Hex. reflexivity.
    + assert (0 < inject_Z (2 ^ (- ex)))%Q as Hpos.
      { rewrite <- (Zlt_Qlt 0). apply Z.pow_pos_nonneg; lia. }
      assert ((2 ^ ex)%Q == / inject_Z (2 ^ (- ex)))%Q as ->.
      { rewrite Zpower_Qpower by lia. rewrite <- Qpower_opp, Z.opp_involutive.
        reflexivity. }
      rewrite Zle_Qle, inject_Z_mult.
      split; intros Hle.
      * apply Qle_shift_div_r; [exact Hpos|exact Hle].
      * apply (Qle_shift_div_l _ _ (/ inject_Z (2 ^ (- ex)))) in Hle;
          [|apply Qinv_lt_0_compat; exact Hpos].
        unfold Qdiv in Hle. rewrite Qinv_involutive in Hle. exact Hle.
Qed.



End RateLimit.

(** * Runs on the sample inputs *)
Section Samples.

Lemma small_torrent_valid : PieceManager.valid_torrent small_torrent.
Proof. intros i _. simpl. lia. Qed.

Lemma wide_torrent_valid : PieceManager.valid_torrent wide_torrent.
Proof. intros i _. simpl. destruct (i =? 0); lia. Qed.

Lemma eleven_torrent_valid : PieceManager.valid_torrent eleven_torrent.
Proof. intros i _. simpl. lia. Qed.

(** Five missing blocks against one: the block of piece 1 is requested. *)
Example wide_torrent_request :
  (PieceManager.get_next_request [0; 1] (PieceManager.init wide_torrent)).1
  = Some (1, 0, 16384)
  ∧ PieceManager.missing_count (PieceManager.init wide_torrent) 0 = 5
  ∧ PieceManager.missing_count (PieceManager.init wide_torrent) 1 = 1.
Proof. vm_compute. auto. Qed.

(** With fewer than ten pieces sequential mode divides by zero. *)
Example small_torrent_sequential :
  (PieceManager.set_sequential_download true (PieceManager.init small_torrent)).1
  = Some ZeroDivisionError.
Proof. reflexivity. Qed.

Lemma get_next_request_ranking_witness :
  (∀ i, i ∈ PieceManager.needed_pieces [0; 1] (PieceManager.init wide_torrent) →
        i ∉ PieceManager.high_priority_pieces (PieceManager.init wide_torrent))
  ∧ ∃ off n m',
      PieceManager.get_next_request [0; 1] (PieceManager.init wide_torrent)
      = (Some (1, off, n), m').
Proof.
  assert (∀ i, i ∈ PieceManager.needed_pieces [0; 1] (PieceManager.init wide_torrent) →
        i ∉ PieceManager.high_priority_pieces (PieceManager.init wide_torrent))
    as Hno by (intros i _; apply not_elem_of_empty).
  split; [exact Hno|].
  destruct (get_next_request_ranking [0; 1] (PieceManager.init wide_torrent) Hno)
    as (_ & _ & _ & _ & Hfive).
  apply (Hfive 0 1).
  - reflexivity.
  - vm_compute. reflexivity.
  - vm_compute. reflexivity.
  - vm_compute. reflexivity.
Defined.

(** C2, as the claim has it, fails: both candidates are high priority and
    have one missing block, piece 1 has the higher numeric priority, and the
    code serves piece 0, the first in iteration order, where the order of the
    specification serves piece 1. *)
Lemma override_ignores_priority :
  0 ∈ PieceManager.high_priority_pieces override_state
  ∧ 1 ∈ PieceManager.high_priority_pieces override_state
  ∧ PieceManager.missing_count override_state 0
    = PieceManager.missing_count override_state 1
  ∧ PieceManager.priority override_state 0 < PieceManager.priority override_state 1
  ∧ (PieceManager.get_next_request [0; 1] override_state).1 = Some (0, 0, 4)
  ∧ (PieceManager.request_loop (spec_request_order [0; 1] override_state)
       override_state).1 = Some (1, 0, 4).
Proof.
  split; [apply (bool_decide_unpack _); vm_compute; exact I|].
  split; [apply (bool_decide_unpack _); vm_compute; exact I|].
  vm_compute. repeat split; reflexivity.
Qed.

Lemma high_priority_override_witness :
  (∃ i, i ∈ PieceManager.needed_pieces [0; 1] override_state
        ∧ i ∈ PieceManager.high_priority_pieces override_state)
  ∧ (∀ i off n m',
       PieceManager.get_next_request [0; 1] override_state = (Some (i, off, n), m') →
       i ∈ PieceManager.high_priority_pieces override_state
       ∧ i ∈ PieceManager.needed_pieces [0; 1] override_state)
  ∧ ∀ priorities,
      PieceManager.get_next_request [0; 1]
        (PieceManager.set_piece_priorities priorities override_state)
      = ((PieceManager.get_next_request [0; 1] override_state).1,
         PieceManager.set_piece_priorities priorities
           (PieceManager.get_next_request [0; 1] override_state).2).
Proof.
  assert (∃ i, i ∈ PieceManager.needed_pieces [0; 1] override_state
               ∧ i ∈ PieceManager.high_priority_pieces override_state) as Hex.
  { exists 0. split; apply (bool_decide_unpack _); vm_compute; exact I. }
  split; [exact Hex|].
  destruct (high_priority_override [0; 1] override_state Hex)
    as (_ & _ & _ & _ & Hin & _ & Hprio).
  split; [exact Hin|exact Hprio].
Defined.

Lemma small_init_reachable :
  @PieceManager.reachable sample_hash small_torrent (PieceManager.init small_torrent).
Proof. apply PieceManager.reachable_init, small_torrent_valid. Qed.

Lemma failed_verification_resets_witness :
  let m := PieceManager.init small_torrent in
  let out := @PieceManager.add_piece_data sample_hash 0 0 [x02; x00; x00; x00] m in
  out.1 = true
  ∧ (∃ p', PieceManager.pieces out.2 !! 0 = Some p'
           ∧ p' = Piece.init 0 4 [x01]
           ∧ out.2 = PieceManager.set_pieces (<[0 := p']> (PieceManager.pieces m)) m)
  ∧ (0 ∉ PieceManager.completed_pieces out.2)
  ∧ PieceManager.delivered out.2 = PieceManager.delivered m.
Proof.
  intros m out.
  destruct (@failed_verification_resets sample_hash small_torrent m 0 0
              [x02; x00; x00; x00] (Piece.init 0 4 [x01]))
    as (Hres & (p' & Hp' & Hinit & _ & _ & _ & _ & _ & Hout) & Hnot & Hdel & _).
  - exact small_init_reachable.
  - reflexivity.
  - reflexivity.
  - reflexivity.
  - vm_compute. discriminate.
  - split; [exact Hres|]. split; [|split; [exact Hnot|exact Hdel]].
    exists p'. split; [exact Hp'|]. split; [exact Hinit|exact Hout].
Defined.

Lemma add_block_data_rejects_witness :
  let p := Piece.init 0 4 [x01] in
  let r := @Piece.add_block_data sample_hash 0 [x01; x00; x00; x00] p in
  Piece.tiles (Piece.blocks p) 0 (Piece.length p)
  ∧ r.1 = true
  ∧ @Piece.add_block_data sample_hash 0 [x01; x00; x00; x00] r.2 = (false, r.2)
  ∧ (@Piece.add_block_data sample_hash 2 [x01; x00; x00] p).1 = false
  ∧ (@Piece.add_block_data sample_hash 2 [x01; x00; x00] p).2 = p.
Proof.
  intros p r.
  assert (Piece.tiles (Piece.blocks p) 0 (Piece.length p)) as Ht
    by (vm_compute; repeat split; reflexivity).
  destruct (@add_block_data_rejects sample_hash 0 [x01; x00; x00; x00] p Ht)
    as (_ & _ & Htwice).
  destruct (@add_block_data_rejects sample_hash 2 [x01; x00; x00] p Ht)
    as (Hiff & Hsame & _).
  split; [exact Ht|]. split; [reflexivity|]. split; [apply Htwice; reflexivity|].
  assert ((@Piece.add_block_data sample_hash 2 [x01; x00; x00] p).1 = false) as Hf.
  { apply Hiff. left. vm_compute. reflexivity. }
  split; [exact Hf|apply Hsame; exact Hf].
Defined.

(** [small_torrent] after piece 0 was ingested with the right first byte. *)
Lemma one_done_reachable :
  @PieceManager.reachable sample_hash small_torrent
    (@PieceManager.exec sample_hash
       (PieceManager.AddPieceData 0 0 [x01; x00; x00; x00])
       (PieceManager.init small_torrent)).
Proof. apply PieceManager.reachable_exec, small_init_reachable. Qed.

Lemma add_piece_data_short_circuits_witness :
  let m := @PieceManager.exec sample_hash
             (PieceManager.AddPieceData 0 0 [x01; x00; x00; x00])
             (PieceManager.init small_torrent) in
  @PieceManager.add_piece_data sample_hash 7 0 [x01] m = (false, m)
  ∧ @PieceManager.add_piece_data sample_hash 0 0 [x01; x00; x00; x00] m = (true, m)
  ∧ (@PieceManager.add_piece_data sample_hash 1 0 [x01; x00; x00; x00] m).1
    = (@Piece.add_block_data sample_hash 0 [x01; x00; x00; x00]
         (Piece.init 1 4 [x01])).1.
Proof.
  intros m.
  split; [|split].
  - apply (@add_piece_data_short_circuits sample_hash small_torrent m 7 0 [x01]
             one_done_reachable).
    reflexivity.
  - apply (@add_piece_data_short_circuits sample_hash small_torrent m 0 0
             [x01; x00; x00; x00] one_done_reachable).
    apply (bool_decide_unpack _). vm_compute. exact I.
  - apply (@add_piece_data_short_circuits sample_hash small_torrent m 1 0
             [x01; x00; x00; x00] one_done_reachable).
    + reflexivity.
    + apply (bool_decide_unpack _). vm_compute. exact I.
Defined.

Lemma blocks_partition_fixed_witness :
  let p := Piece.init 0 81920 [x00] in
  Piece.tiles (Piece.blocks p) 0 81920
  ∧ (∀ k b, Piece.blocks p !! k = Some b → (S k < length (Piece.blocks p))%nat →
            Block.length b = BLOCK_SIZE)
  ∧ (∃ b, last (Piece.blocks p) = Some b ∧ 0 < Block.length b <= BLOCK_SIZE)
  ∧ ∀ o, ∃ p', PieceManager.pieces
                 (@PieceManager.exec sample_hash o (PieceManager.init wide_torrent))
               !! 0 = Some p'
               ∧ Piece.shapes p' = Piece.shapes p
               ∧ Piece.length p' = Piece.length p.
Proof.
  intros p.
  destruct (@blocks_partition_fixed sample_hash wide_torrent
              (PieceManager.init wide_torrent) 0 p)
    as (_ & Htiles & Hstd & Hlast & _ & _ & Hfixed).
  - apply PieceManager.reachable_init, wide_torrent_valid.
  - reflexivity.
  - simpl. lia.
  - split; [exact Htiles|]. split; [exact Hstd|]. split; [exact Hlast|exact Hfixed].
Defined.


Lemma early_state_reachable :
  @PieceManager.reachable sample_hash small_torrent early_state.
Proof.
  apply (@PieceManager.reachable_exec sample_hash small_torrent
           (PieceManager.UpdateRateStats float_0_7 5000)).
  apply (@PieceManager.reachable_exec sample_hash small_torrent
           (PieceManager.SetDownloadRateLimit 1000)).
  exact small_init_reachable.
Qed.


(** The rates are rounded as well: of 6249749507073853 bytes in the window
    and 3 bytes to download, the two rates add up to more than the limit of
    1249949901414771 bytes per second, and their float sum is the limit; the
    check passes. *)
Lemma rate_limit_quotient_rounding :
  (PieceManager.check_rate_limit (seconds 0) 3 heavy_state).1 = inr true
  ∧ ¬ (inject_Z 6249749507073853 / 5 + inject_Z 3 / 5
       <= inject_Z 1249949901414771)%Q.
Proof.
  split; [vm_compute; reflexivity|].
  unfold Qle. simpl. lia.
Qed.

(** C8.  The code does not do what the claim, and its own comment "Set
    decreasing priorities for pieces in order", say: with eleven pieces the
    value for the last index is 0, [set_piece_priority] drops it, and piece 10
    keeps the default priority 5, above the pieces 6 to 9 before it, or the
    explicit priority it had, such as 7.  With fewer than ten pieces the call
    raises [ZeroDivisionError], the divisor [total_pieces // 10] being 0. *)
Lemma sequential_priority_skipped :
  let m' := (PieceManager.set_sequential_download true
               (PieceManager.init eleven_torrent)).2 in
  let stale := (PieceManager.set_sequential_download true
                  (PieceManager.set_piece_priority 10 7
                     (PieceManager.init eleven_torrent))).2 in
  is_Some (PieceManager.pieces m' !! 10)
  ∧ Z.of_nat (size (PieceManager.pieces m')) = 11
  ∧ spec_sequential_priority 11 10 = 0
  ∧ PieceManager.piece_priorities m' !! 10 = None
  ∧ PieceManager.piece_priorities m' !! 10 ≠ Some (spec_sequential_priority 11 10)
  ∧ PieceManager.priority m' 10 = 5
  ∧ PieceManager.priority m' <$> [5; 6; 7; 8; 9; 10] = [5; 4; 3; 2; 1; 5]
  ∧ PieceManager.priority stale <$> [5; 6; 7; 8; 9; 10] = [5; 4; 3; 2; 1; 7]
  ∧ (PieceManager.set_sequential_download true
       (PieceManager.init small_torrent)).1 = Some ZeroDivisionError.
Proof.
  intros m' stale. split; [eexists; reflexivity|].
  split; [reflexivity|]. split; [reflexivity|].
  split; [reflexivity|]. split; [discriminate|].
  split; [reflexivity|]. split; [reflexivity|]. split; reflexivity.
Qed.

Lemma sequential_download_priorities_witness :
  let m := PieceManager.init eleven_torrent in
  let on := PieceManager.set_sequential_download true m in
  on.1 = None
  ∧ (∀ i, 0 <= i < 11 → 1 <= spec_sequential_priority 11 i →
          PieceManager.piece_priorities on.2 !! i
          = Some (spec_sequential_priority 11 i))
  ∧ (∀ i, ¬ (0 <= i < 11 ∧ 1 <= spec_sequential_priority 11 i) →
          PieceManager.piece_priorities on.2 !! i
          = PieceManager.piece_priorities m !! i)
  ∧ PieceManager.set_sequential_download false m
    = (None, PieceManager.set_piece_priorities ∅ m).
Proof.
  intros m on.
  destruct (@sequential_download_priorities sample_hash eleven_torrent m)
    as (Hon & Hoff & _).
  - apply PieceManager.reachable_init, eleven_torrent_valid.
  - destruct Hon as (_ & Hnone & Hset & Hkeep & _); [simpl; lia|].
    split; [exact Hnone|]. split; [exact Hset|]. split; [exact Hkeep|exact Hoff].
Defined.

Lemma completed_pieces_stable_witness :
  let m := @PieceManager.exec sample_hash
             (PieceManager.AddPieceData 0 0 [x01; x00; x00; x00])
             (PieceManager.init small_torrent) in
  0 ∈ PieceManager.completed_pieces m
  ∧ (∃ p, PieceManager.pieces m !! 0 = Some p
          ∧ Piece.completed p = true ∧ Piece.verified p = true
          ∧ sample_hash (Piece.data p) = Piece.hash_value p
          ∧ PieceManager.get_piece_data 0 m = Some (Piece.data p))
  ∧ ∀ o, 0 ∈ PieceManager.completed_pieces (@PieceManager.exec sample_hash o m).
Proof.
  intros m.
  assert (0 ∈ PieceManager.completed_pieces m) as Hin
    by (apply (bool_decide_unpack _); vm_compute; exact I).
  destruct (@completed_pieces_stable sample_hash small_torrent m one_done_reachable)
    as [Hstate Hkeep].
  destruct (Hstate 0 Hin) as (p & Hp & _ & Hc & Hv & Hsha & _ & Hdata).
  split; [exact Hin|]. split.
  - exists p. split; [exact Hp|]. split; [exact Hc|]. split; [exact Hv|].
    split; [exact Hsha|exact Hdata].
  - intros o. apply (Hkeep o 0 p Hin Hp).
Defined.

Lemma get_next_request_frame_witness :
  let m := PieceManager.init small_torrent in
  match PieceManager.get_next_request [0; 1] m with
  | (None, m') => m' = m
  | (Some (i, off, n), m') =>
      ∃ p k b,
        PieceManager.pieces m !! i = Some p
        ∧ Piece.blocks p !! k = Some b
        ∧ Block.offset b = off ∧ Block.length b = n
        ∧ Block.state_of b = Block.Missing
        ∧ Block.state_of (Block.set_requested true b) = Block.Requested
        ∧ (∀ j bj, Piece.blocks p !! j = Some bj → Block.offset bj = off → j = k)
        ∧ m' = PieceManager.set_pieces
                 (<[i := Piece.set_blocks
                           (<[k := Block.set_requested true b]> (Piece.blocks p)) p]>
                    (PieceManager.pieces m)) m
  end
  ∧ (PieceManager.get_next_request [0; 1] m).1 = Some (0, 0, 4).
Proof.
  intros m. split; [|reflexivity].
  apply (@get_next_request_frame sample_hash small_torrent [0; 1] m
           small_init_reachable).
Defined.

End Samples.

(** * Further properties of the code *)

(** ** Piece by piece: what an operation does to a tracked piece *)
Section PieceSteps.

Context `{Sha1}.
Implicit Types (bs : list Block.t) (b : Block.t) (p : Piece.t)
  (m : PieceManager.t) (tf : TorrentFile).

Lemma add_piece_data_piece i off d m j p' :
  PieceManager.pieces (PieceManager.add_piece_data i off d m).2 !! j = Some p' →
  ∃ p, PieceManager.pieces m !! j = Some p ∧ (p' = p ∨ piece_step p p').
Proof.
  unfold PieceManager.add_piece_data.
  destruct (PieceManager.pieces m !! i) as [q|] eqn:Hq; [|eauto].
  destruct (Piece.completed q) eqn:Hcq; [eauto|].
  pose proof (add_block_data_false off d q) as Hfalse.
  pose proof (step_ingested q off d Hcq) as Hingest.
  pose proof (step_failed q off d Hcq) as Hfail.
  destruct (Piece.add_block_data off d q) as [success q']. simpl in *.
  destruct (success && Piece.completed q') eqn:Hsc; simpl.
  - apply andb_prop in Hsc as [-> Hc'].
    destruct (Piece.verified q') eqn:Hv.
    + destruct (PieceManager.on_piece_completed m); simpl;
        (rewrite lookup_insert; destruct (decide (i = j)) as [<-|]; [|eauto];
         intros [= <-]; exists q; split; [exact Hq|]; right; apply Hingest; auto).
    + simpl. rewrite insert_insert_eq, lookup_insert.
      destruct (decide (i = j)) as [<-|]; [|eauto].
      intros [= <-]. exists q. split; [exact Hq|]. right. apply Hfail; auto.
  - rewrite lookup_insert. destruct (decide (i = j)) as [<-|]; [|eauto].
    intros [= <-]. exists q. split; [exact Hq|]. right. apply Hingest.
    intros Hc'. destruct success; simpl in Hsc; [congruence|].
    rewrite Hfalse in Hc' by reflexivity. congruence.
Qed.

Lemma exec_piece o m j p' :
  PieceManager.pieces (PieceManager.exec o m) !! j = Some p' →
  ∃ p, PieceManager.pieces m !! j = Some p ∧ (p' = p ∨ piece_step p p').
Proof.
  destruct o; simpl; try (intros Hj; exists p'; auto; fail).
  - apply add_piece_data_piece.
  - rewrite get_next_request_unfold.
    pose proof (request_loop_spec (PieceManager.request_order available_pieces m) m)
      as Hspec.
    destruct (PieceManager.request_loop _ m) as [[[[i off] n]|] m']; simpl.
    + destruct Hspec as (pre & post & q & k & b & rest & _ & _ & Hq & _ & _ & _ & ->).
      simpl. rewrite lookup_insert. destruct (decide (i = j)) as [<-|]; [|eauto].
      intros [= <-]. exists q. split; [exact Hq|]. right. constructor.
    + destruct Hspec as [-> _]. eauto.
  - unfold PieceManager.mark_block_requested.
    destruct (PieceManager.pieces m !! piece_index) as [q|] eqn:Hq; [|eauto].
    destruct (list_find _ _) as [[k b]|]; [|eauto].
    simpl. rewrite lookup_insert.
    destruct (decide (piece_index = j)) as [<-|]; [|eauto].
    intros [= <-]. exists q. split; [exact Hq|]. right. constructor.
  - unfold PieceManager.reset_piece_requests.
    destruct (PieceManager.pieces m !! piece_index) as [q|] eqn:Hq; [|eauto].
    simpl. rewrite lookup_insert.
    destruct (decide (piece_index = j)) as [<-|]; [|eauto].
    intros [= <-]. exists q. split; [exact Hq|]. right. constructor.
  - rewrite set_piece_priority_only_priorities. simpl. eauto.
  - destruct enable; simpl; [|eauto].
    rewrite sequential_loop_only_priorities. simpl. eauto.
Qed.

(** A property of the constructed pieces that every piece step keeps holds
    of every tracked piece of a reachable state. *)
Lemma piece_invariant_reachable (P : Piece.t → Prop) tf :
  (∀ i L h, 0 <= L → P (Piece.init i L h)) →
  (∀ i p p', piece_ok tf i p → P p → piece_step p p' → P p') →
  ∀ m, PieceManager.reachable tf m →
       ∀ i p, PieceManager.pieces m !! i = Some p → P p.
Proof.
  intros Hinit Hstep m Hreach. induction Hreach as [Hvalid|o m Hreach IH].
  - intros i p. simpl. rewrite initialize_pieces_lookup.
    destruct (decide (0 <= i < get_total_pieces tf)) as [Hi|]; [|discriminate].
    intros [= <-]. apply Hinit. apply Hvalid. exact Hi.
  - intros i p' Hp'. destruct (exec_piece o m i p' Hp') as (p & Hp & [->|Hs]).
    + eapply IH; eauto.
    + apply (Hstep i p p'); [|eapply IH; eauto|exact Hs].
      apply reachable_invariant in Hreach as (_ & _ & _ & Hps & _).
      apply (Hps i p Hp).
Qed.

End PieceSteps.

(** ** The assembly buffer *)
Section Buffer.

Context `{Sha1}.
Implicit Types (bs : list Block.t) (b : Block.t) (p : Piece.t)
  (m : PieceManager.t) (tf : TorrentFile) (buf d : list byte).

(** Within the bounds of the buffer the slice assignment replaces
    [len d] bytes at [off]. *)
Lemma slice_assign_valid buf off d :
  0 <= off → off + len d <= len buf →
  Piece.slice_assign buf off (off + len d) d
  = take (Z.to_nat off) buf ++ d ++ drop (Z.to_nat (off + len d)) buf.
Proof.
  intros H0 Hle. unfold Piece.slice_assign, Piece.slice_bound, len in *.
  destruct (Z.ltb_spec off 0) as [?|_]; [lia|].
  destruct (Z.ltb_spec (off + Z.of_nat (length d)) 0) as [?|_]; [lia|].
  rewrite !Z.min_l by lia. rewrite Z.max_r by lia. reflexivity.
Qed.

Lemma slice_assign_length buf off d :
  0 <= off → off + len d <= len buf →
  length (Piece.slice_assign buf off (off + len d) d) = length buf.
Proof.
  intros H0 Hle. rewrite slice_assign_valid by assumption. unfold len in *.
  rewrite !length_app, length_take, length_drop. lia.
Qed.

Lemma slice_assign_here buf off d :
  0 <= off → off + len d <= len buf →
  slice (Piece.slice_assign buf off (off + len d) d) off (len d) = d.
Proof.
  intros H0 Hle. rewrite slice_assign_valid by assumption. unfold slice, len in *.
  rewrite drop_app_length' by (rewrite length_take; lia).
  rewrite take_app_length' by lia. reflexivity.
Qed.

Lemma slice_assign_before buf off d o n :
  0 <= off → off + len d <= len buf → 0 <= o → 0 <= n → o + n <= off →
  slice (Piece.slice_assign buf off (off + len d) d) o n = slice buf o n.
Proof.
  intros H0 Hle Ho Hn Hbefore. rewrite slice_assign_valid by assumption.
  unfold slice, len in *.
  rewrite drop_app_le by (rewrite length_take; lia).
  rewrite take_app_le by (rewrite length_drop, length_take; lia).
  rewrite !take_drop_commute, take_take. do 2 f_equal. lia.
Qed.

Lemma slice_assign_after buf off d o n :
  0 <= off → off + len d <= len buf → 0 <= n → off + len d <= o →
  slice (Piece.slice_assign buf off (off + len d) d) o n = slice buf o n.
Proof.
  intros H0 Hle Hn Hafter. rewrite slice_assign_valid by assumption.
  unfold slice, len in *.
  rewrite app_assoc.
  rewrite drop_app_ge by (rewrite length_app, length_take; lia).
  rewrite length_app, length_take, drop_drop. do 2 f_equal. lia.
Qed.

Lemma tiles_bounds bs a e k b :
  Piece.tiles bs a e → bs !! k = Some b →
  a <= Block.offset b ∧ 0 < Block.length b ∧ Block.offset b + Block.length b <= e.
Proof.
  revert a k. induction bs as [|b' bs IH]; intros a k Ht Hk;
    [rewrite lookup_nil in Hk; discriminate|].
  simpl in Ht. destruct Ht as (Hoff & Hpos & Ht).
  destruct (tiles_offsets _ _ _ Ht) as [Hle _].
  destruct k as [|k]; simpl in Hk.
  - injection Hk as <-. lia.
  - destruct (IH _ k Ht Hk) as (? & ? & ?). lia.
Qed.

(** The blocks of a tiling do not overlap. *)
Lemma tiles_disjoint bs a e j k bj bk :
  Piece.tiles bs a e → bs !! j = Some bj → bs !! k = Some bk → (j < k)%nat →
  a <= Block.offset bj ∧ 0 < Block.length bj
  ∧ Block.offset bj + Block.length bj <= Block.offset bk
  ∧ Block.offset bk + Block.length bk <= e.
Proof.
  revert a j k. induction bs as [|b bs IH]; intros a j k Ht Hj Hk Hjk;
    [rewrite lookup_nil in Hj; discriminate|].
  simpl in Ht. destruct Ht as (Hoff & Hpos & Ht).
  destruct k as [|k]; [lia|]. simpl in Hk.
  destruct j as [|j]; simpl in Hj.
  - injection Hj as <-. destruct (tiles_bounds _ _ _ _ _ Ht Hk) as (? & ? & ?).
    repeat split; lia.
  - destruct (IH _ j k Ht Hj Hk ltac:(lia)) as (? & ? & ? & ?).
    repeat split; lia.
Qed.

Lemma piece_ok_tiles tf i p :
  piece_ok tf i p → Piece.tiles (Piece.blocks p) 0 (Piece.length p).
Proof.
  intros (_ & _ & _ & Hlen & _ & Hshape & _).
  destruct (create_blocks_spec i (Piece.length p) Hlen) as (Htiles & _).
  apply (tiles_shapes (Piece.create_blocks i (Piece.length p)));
    [symmetry; exact Hshape|exact Htiles].
Qed.

End Buffer.

Section Assembly.

Context `{Sha1}.
Implicit Types (bs : list Block.t) (b : Block.t) (p : Piece.t)
  (m : PieceManager.t) (tf : TorrentFile) (buf d : list byte).

Lemma assembled_init i L h : 0 <= L → assembled (Piece.init i L h).
Proof.
  intros HL. split; simpl.
  - unfold Piece.bytearray. apply length_replicate.
  - intros k b Hk. destruct (create_blocks_spec i L HL) as (_ & Hall & _).
    rewrite Forall_forall in Hall.
    destruct (Hall b) as [-> _]; [eapply list_elem_of_lookup_2; eauto|].
    reflexivity.
Qed.

Lemma assembled_ingest tf i p off d :
  piece_ok tf i p → assembled p → assembled (Piece.add_block_data off d p).2.
Proof.
  intros Hok [Hlen Hblocks].
  pose proof (piece_ok_tiles tf i p Hok) as Htiles.
  destruct Hok as (_ & _ & _ & HL & _).
  destruct (add_block_data_inv off d p)
    as [(_ & -> & _)|(k & b & _ & Hle & Hk & Ho & Hl & Hr & _ & HL' & _ & Hbs & Hd & _)];
    [split; assumption|].
  simpl in HL', Hbs, Hd.
  destruct (tiles_bounds _ _ _ _ _ Htiles Hk) as (Hoff0 & Hpos & Hend).
  assert (len (Piece.data p) = Piece.length p) as Hlenz by (unfold len; lia).
  assert (0 <= off ∧ off + len d <= len (Piece.data p)) as [H0 Hfit] by lia.
  split.
  - rewrite Hd, HL'. rewrite slice_assign_length by assumption. exact Hlen.
  - intros k' b'. rewrite Hbs, Hd, list_lookup_alter.
    destruct (decide (k = k')) as [<-|Hne].
    + rewrite Hk. simpl. intros [= <-]. simpl. rewrite Ho, Hl.
      rewrite slice_assign_here by assumption. reflexivity.
    + intros Hk'. rewrite (Hblocks k' b' Hk').
      destruct (Block.received b'); [|reflexivity]. f_equal. symmetry.
      destruct (lt_eq_lt_dec k' k) as [[Hlt|Heq]|Hgt]; [|congruence|].
      * destruct (tiles_disjoint _ _ _ _ _ _ _ Htiles Hk' Hk Hlt) as (? & ? & ? & ?).
        apply slice_assign_before; lia.
      * destruct (tiles_disjoint _ _ _ _ _ _ _ Htiles Hk Hk' Hgt) as (? & ? & ? & ?).
        destruct (tiles_bounds _ _ _ _ _ Htiles Hk') as (? & ? & ?).
        apply slice_assign_after; lia.
Qed.

Lemma assembled_step tf i p p' :
  piece_ok tf i p → assembled p → piece_step p p' → assembled p'.
Proof.
  intros Hok Ha Hstep. pose proof Ha as [Hlen Hblocks].
  destruct Hstep as [k| |off d _ _|off d _ _ _ _].
  - split; [exact Hlen|]. simpl. intros k' b'. rewrite list_lookup_alter.
    destruct (decide (k = k')) as [<-|]; [|apply Hblocks].
    destruct (Piece.blocks p !! k) as [b|] eqn:Hk; [|discriminate].
    simpl. intros [= <-]. simpl. apply (Hblocks k b Hk).
  - split; [exact Hlen|]. simpl. intros k b'. rewrite list_lookup_fmap.
    destruct (Piece.blocks p !! k) as [b|] eqn:Hk; [|discriminate].
    simpl. intros [= <-]. specialize (Hblocks k b Hk).
    destruct (Block.received b) eqn:Hr; simpl; rewrite ?Hr; exact Hblocks.
  - apply (assembled_ingest tf i); assumption.
  - destruct (add_block_data_shapes off d p) as (_ & _ & HL & _).
    split; simpl.
    + rewrite HL. unfold Piece.bytearray. apply length_replicate.
    + intros k b'. rewrite list_lookup_fmap.
      destruct (Piece.blocks _ !! k) as [b|]; [|discriminate].
      simpl. intros [= <-]. reflexivity.
Qed.

Lemma reachable_assembled tf m i p :
  PieceManager.reachable tf m → PieceManager.pieces m !! i = Some p → assembled p.
Proof.
  intros Hreach. revert i p.
  apply (piece_invariant_reachable assembled tf);
    [|exact (assembled_step tf)|exact Hreach].
  intros i L h. apply assembled_init.
Qed.

(** The payloads of received blocks that tile a range are that range of
    the buffer. *)
Lemma payloads_tiles buf bs a e :
  0 <= a → Piece.tiles bs a e →
  (∀ k b, bs !! k = Some b →
          Block.data b = Some (slice buf (Block.offset b) (Block.length b))) →
  payloads bs = slice buf a (e - a).
Proof.
  revert a. induction bs as [|b bs IH]; intros a Ha Ht Hdata; simpl in Ht.
  - subst e. unfold payloads, slice. rewrite Z.sub_diag. reflexivity.
  - destruct Ht as (Hoff & Hpos & Ht).
    destruct (tiles_offsets _ _ _ Ht) as [Hle _].
    unfold payloads in *. rewrite fmap_cons. simpl.
    rewrite (Hdata 0%nat b eq_refl). simpl.
    rewrite (IH (a + Block.length b)); [|lia|exact Ht|].
    + rewrite Hoff. unfold slice.
      replace (Z.to_nat (a + Block.length b))
        with (Z.to_nat a + Z.to_nat (Block.length b))%nat by lia.
      rewrite <- drop_drop, take_take_drop. f_equal. lia.
    + intros k b' Hk. apply (Hdata (S k) b' Hk).
Qed.

(** X1. In a reachable state the buffer of a tracked piece has the length
    of the piece, a block holds a payload exactly when it is received, and
    that payload is what the buffer holds at the block's place; so what
    [get_piece_data] returns for a completed piece is the payloads of its
    blocks, one after the other, and has the expected digest. *)
Theorem assembled_buffer tf m i p :
  PieceManager.reachable tf m →
  PieceManager.pieces m !! i = Some p →
  len (Piece.data p) = get_piece_length tf i
  ∧ (∀ k b, Piece.blocks p !! k = Some b →
            Block.data b
            = if Block.received b
              then Some (slice (Piece.data p) (Block.offset b) (Block.length b))
              else None)
  ∧ (i ∈ PieceManager.completed_pieces m →
     PieceManager.get_piece_data i m = Some (payloads (Piece.blocks p))
     ∧ sha1_hash (payloads (Piece.blocks p)) = get_piece_hash tf i).
Proof.
  intros Hreach Hp.
  destruct (reachable_assembled tf m i p Hreach Hp) as [Hlen Hblocks].
  pose proof (reachable_invariant tf m Hreach) as (_ & _ & _ & Hps & _).
  destruct (Hps i p Hp) as [Hok Hin].
  pose proof (piece_ok_tiles tf i p Hok) as Htiles.
  destruct Hok as (_ & _ & HL & HL0 & Hh & _ & Hc).
  split; [unfold len; lia|]. split; [exact Hblocks|].
  intros Hi. apply Hin in Hi as Hcp. destruct (Hc Hcp) as (_ & Hall & Hsha).
  assert (payloads (Piece.blocks p) = Piece.data p) as ->.
  { rewrite (payloads_tiles (Piece.data p) _ 0 (Piece.length p)); [|lia|exact Htiles|].
    - unfold slice. rewrite drop_0, Z.sub_0_r. apply take_ge. lia.
    - intros k b Hk. rewrite (Hblocks k b Hk).
      rewrite forallb_forall in Hall. rewrite (Hall b); [reflexivity|].
      apply list_elem_of_In. eapply list_elem_of_lookup_2; eauto. }
  split; [|congruence].
  unfold PieceManager.get_piece_data. rewrite bool_decide_eq_true_2 by exact Hi.
  rewrite Hp. reflexivity.
Qed.

End Assembly.

(** ** More on ingestion *)
Section IngestionMore.

Context `{Sha1}.
Implicit Types (bs : list Block.t) (b : Block.t) (p : Piece.t)
  (m : PieceManager.t) (tf : TorrentFile) (d : list byte).

(** X2. When the block that [add_piece_data] ingests makes the piece
    complete and the digest of the buffer is the expected one, the piece
    stays completed and verified, its index enters the completed set, the
    callback, if one is registered, is called once with the index and the
    buffer, and [get_piece_data] returns the buffer; the other pieces are
    untouched. *)
Theorem verified_piece_completes tf m i off d p :
  PieceManager.reachable tf m →
  PieceManager.pieces m !! i = Some p →
  let r := Piece.add_block_data off d p in
  r.1 = true → Piece.is_complete r.2 = true →
  sha1_hash (Piece.data r.2) = Piece.hash_value p →
  let out := PieceManager.add_piece_data i off d m in
  out.1 = true
  ∧ PieceManager.pieces out.2 = <[i := r.2]> (PieceManager.pieces m)
  ∧ Piece.completed r.2 = true ∧ Piece.verified r.2 = true
  ∧ (i ∉ PieceManager.completed_pieces m)
  ∧ PieceManager.completed_pieces out.2 = {[i]} ∪ PieceManager.completed_pieces m
  ∧ PieceManager.delivered out.2
    = PieceManager.delivered m
      ++ (if PieceManager.on_piece_completed m then [(i, Piece.data r.2)] else [])
  ∧ PieceManager.get_piece_data i out.2 = Some (Piece.data r.2).
Proof.
  intros Hreach Hp r Htrue Hcomplete Hhash out.
  pose proof (reachable_invariant tf m Hreach) as (_ & _ & _ & Hps & _).
  destruct (Hps i p Hp) as [Hok Hc].
  assert (Piece.completed p = false) as Hcp.
  { destruct (Piece.completed p) eqn:E; [|reflexivity].
    subst r. rewrite (add_block_data_completed tf i p off d Hok E) in Htrue.
    discriminate. }
  destruct (add_block_data_inv off d p)
    as [(Hf & _)|(k & b & _ & _ & _ & _ & _ & _ & _ & _ & _ & _ & _ & Hcc & Hvv)];
    [fold r in Hf; congruence|].
  fold r in Hcc, Hvv. simpl in Hcc, Hvv.
  unfold Piece.is_complete in Hcomplete. rewrite Hcomplete in Hcc, Hvv.
  rewrite bool_decide_eq_true_2 in Hvv by exact Hhash.
  assert (i ∉ PieceManager.completed_pieces m) as Hnot
    by (intros Hin; apply Hc in Hin; congruence).
  subst out. unfold PieceManager.add_piece_data, PieceManager.get_piece_data.
  rewrite Hp, Hcp. fold r. destruct r as [success p'] eqn:Hr. simpl in *.
  rewrite Htrue, Hcc, Hvv. simpl.
  destruct (PieceManager.on_piece_completed m); simpl;
    rewrite ?app_nil_r;
    (rewrite bool_decide_eq_true_2
       by (apply elem_of_union_l, elem_of_singleton; reflexivity));
    rewrite lookup_insert_eq; repeat split; auto.
Qed.

(** X3. A submission that [add_piece_data] answers with false leaves the
    manager exactly as it was. *)
Theorem rejected_data_changes_nothing i off d m :
  (PieceManager.add_piece_data i off d m).1 = false →
  (PieceManager.add_piece_data i off d m).2 = m.
Proof.
  unfold PieceManager.add_piece_data.
  destruct (PieceManager.pieces m !! i) as [p|] eqn:Hp; [|reflexivity].
  destruct (Piece.completed p); [discriminate|].
  pose proof (add_block_data_false off d p) as Hfalse.
  destruct (Piece.add_block_data off d p) as [success p']. simpl in *.
  destruct success; simpl.
  - destruct (Piece.completed p'); simpl; [|discriminate].
    destruct (Piece.verified p'); [|discriminate].
    destruct (PieceManager.on_piece_completed m); discriminate.
  - intros _. rewrite Hfalse by reflexivity. rewrite insert_id by exact Hp.
    destruct m; reflexivity.
Qed.

Lemma create_blocks_empty i : Piece.create_blocks i 0 = [].
Proof. reflexivity. Qed.

Lemma empty_piece_step tf i p p' :
  piece_ok tf i p →
  (Piece.length p = 0 → Piece.completed p = false) →
  piece_step p p' →
  Piece.length p' = 0 → Piece.completed p' = false.
Proof.
  intros Hok Hp Hstep. destruct Hstep as [k| |off d Hc _|off d _ _ _ _]; simpl;
    try exact Hp; [|reflexivity].
  destruct (add_block_data_shapes off d p) as (_ & _ & HL & _). rewrite HL.
  intros Hzero. destruct Hok as (_ & _ & _ & _ & _ & Hshape & _).
  rewrite Hzero, create_blocks_empty in Hshape. apply fmap_nil_inv in Hshape.
  rewrite add_block_data_no_slot; [exact Hc|]. right. rewrite Hshape. reflexivity.
Qed.

(** X4. A piece of length zero has no block to receive: it is never
    completed, every submission for it is refused without any change, and
    the download that tracks it never counts as complete. *)
Theorem empty_piece_never_completes tf m i :
  PieceManager.reachable tf m →
  0 <= i < get_total_pieces tf → get_piece_length tf i = 0 →
  (i ∉ PieceManager.completed_pieces m)
  ∧ (∀ off d, PieceManager.add_piece_data i off d m = (false, m))
  ∧ PieceManager.is_complete m = false.
Proof.
  intros Hreach Hi Hzero.
  pose proof (reachable_invariant tf m Hreach) as (_ & _ & Hdom & Hps & Hcs).
  destruct (proj2 (Hdom i) Hi) as [p Hp]. destruct (Hps i p Hp) as [Hok Hc].
  assert (Piece.completed p = false) as Hcp.
  { apply (piece_invariant_reachable
             (λ p, Piece.length p = 0 → Piece.completed p = false) tf)
      with (m := m) (i := i); auto.
    - intros j p0 p1. apply empty_piece_step.
    - destruct Hok as (_ & _ & -> & _). exact Hzero. }
  assert (i ∉ PieceManager.completed_pieces m) as Hnot
    by (intros Hin; apply Hc in Hin; congruence).
  split; [exact Hnot|]. split.
  - intros off d. unfold PieceManager.add_piece_data. rewrite Hp, Hcp.
    destruct Hok as (_ & _ & HL & _ & _ & Hshape & _).
    rewrite HL, Hzero, create_blocks_empty in Hshape. apply fmap_nil_inv in Hshape.
    rewrite add_block_data_no_slot by (right; rewrite Hshape; reflexivity).
    simpl. rewrite insert_id by exact Hp. destruct m; reflexivity.
  - unfold PieceManager.is_complete. apply bool_decide_eq_false_2. intros Hsize.
    assert (PieceManager.completed_pieces m ⊆ dom (PieceManager.pieces m)) as Hsub
      by (intros j Hj; apply elem_of_dom, Hcs; exact Hj).
    apply Hnot. rewrite <- size_dom in Hsize.
    apply set_subseteq_size_eq in Hsub; [|lia].
    rewrite Hsub. apply elem_of_dom. eauto.
Qed.

Lemma received_step tf i p p' :
  piece_ok tf i p → 0 < Piece.length p →
  Piece.completed p = forallb Block.received (Piece.blocks p) →
  piece_step p p' →
  Piece.completed p' = forallb Block.received (Piece.blocks p').
Proof.
  intros Hok Hpos Hp Hstep. destruct Hstep as [k| |off d Hc _|off d _ _ _ _]; simpl.
  - rewrite Hp. apply forallb_fmap_eq. symmetry. apply fmap_alter_same. reflexivity.
  - rewrite Hp. apply forallb_fmap_eq. rewrite <- list_fmap_compose.
    apply list_fmap_ext. intros j b _. simpl.
    destruct (Block.received b) eqn:E; simpl; congruence.
  - destruct (add_block_data_inv off d p)
      as [(_ & -> & _)|(k & b & _ & _ & _ & _ & _ & _ & _ & _ & _ & _ & _ & Hcc & _)];
      [exact Hp|].
    simpl in Hcc. rewrite Hcc.
    destruct (forallb Block.received
                (Piece.blocks (Piece.add_block_data off d p).2));
      [reflexivity|exact Hc].
  - destruct (add_block_data_shapes off d p) as (Hs & _).
    pose proof (piece_ok_tiles tf i p Hok) as Htiles.
    unfold Piece.shapes in Hs.
    destruct (Piece.blocks (Piece.add_block_data off d p).2) as [|b bs].
    + symmetry in Hs. apply fmap_nil_inv in Hs. rewrite Hs in Htiles.
      simpl in Htiles. lia.
    + reflexivity.
Qed.

(** X5. In a reachable state the [completed] flag of a tracked piece of
    positive length says exactly that all its blocks are received, and that
    is the case exactly for the pieces of the completed set. *)
Theorem completed_iff_all_received tf m i p :
  PieceManager.reachable tf m →
  PieceManager.pieces m !! i = Some p →
  0 < get_piece_length tf i →
  Piece.completed p = Piece.is_complete p
  ∧ (i ∈ PieceManager.completed_pieces m ↔ Piece.is_complete p = true).
Proof.
  intros Hreach Hp Hpos.
  pose proof (reachable_invariant tf m Hreach) as (_ & _ & _ & Hps & _).
  destruct (Hps i p Hp) as [Hok Hc].
  assert (Piece.completed p = Piece.is_complete p) as Heq.
  { unfold Piece.is_complete.
    apply (piece_invariant_reachable
             (λ p, 0 < Piece.length p →
                   Piece.completed p = forallb Block.received (Piece.blocks p)) tf)
      with (m := m) (i := i); auto.
    - intros j L h HL0 HL. simpl in *.
      destruct (create_blocks_spec j L HL0) as (Htiles & Hall & _).
      destruct (Piece.create_blocks j L) as [|b bs]; [simpl in Htiles; lia|].
      apply Forall_cons in Hall as [[-> _] _]. reflexivity.
    - intros j p0 p1 Hok0 HP Hstep HL.
      assert (Piece.length p1 = Piece.length p0) as HL'.
      { destruct Hstep as [k| |off d _ _|off d _ _ _ _]; simpl; auto;
          destruct (add_block_data_shapes off d p0) as (_ & _ & -> & _); reflexivity. }
      apply (received_step tf j p0 p1); auto; [lia|]. apply HP. lia.
    - destruct Hok as (_ & _ & -> & _). exact Hpos. }
  split; [exact Heq|]. rewrite <- Heq. exact Hc.
Qed.

End IngestionMore.

(** ** More on selection *)
Section SelectionMore.

Context `{Sha1}.
Implicit Types (bs : list Block.t) (b : Block.t) (p : Piece.t)
  (m : PieceManager.t) (tf : TorrentFile).

Lemma create_blocks_loop_lengths fuel idx L off bs :
  Piece.create_blocks_loop fuel idx L off = Some bs →
  Forall (λ b, Block.length b = Z.min BLOCK_SIZE (L - Block.offset b)) bs.
Proof.
  revert off bs. induction fuel as [|fuel IH]; intros off bs; simpl;
    destruct (off <? L); try discriminate; try (intros [= <-]; constructor).
  destruct (Piece.create_blocks_loop fuel idx L _) as [bs'|] eqn:Hbs';
    [|discriminate].
  simpl. intros [= <-]. constructor; [reflexivity|]. eapply IH. exact Hbs'.
Qed.

Lemma tiles_standard_offsets bs a e :
  Piece.tiles bs a e →
  (∀ k b, bs !! k = Some b → (S k < length bs)%nat → Block.length b = BLOCK_SIZE) →
  ∀ k b, bs !! k = Some b → Block.offset b = a + BLOCK_SIZE * Z.of_nat k.
Proof.
  revert a. induction bs as [|b0 bs IH]; intros a Ht Hstd k b Hk;
    [rewrite lookup_nil in Hk; discriminate|].
  simpl in Ht. destruct Ht as (Hoff & Hpos & Ht). destruct k as [|k]; simpl in Hk.
  - injection Hk as <-. lia.
  - assert (Block.length b0 = BLOCK_SIZE) as Hl0.
    { apply (Hstd 0%nat b0 eq_refl). simpl.
      apply lookup_lt_Some in Hk. lia. }
    rewrite (IH (a + Block.length b0) Ht) with (k := k) (b := b); [lia| |exact Hk].
    intros k' b' Hk' Hlt. apply (Hstd (S k') b' Hk'). simpl. lia.
Qed.

(** The place and size of the block at position [k] of a tracked piece. *)
Lemma piece_ok_block tf i p k b :
  piece_ok tf i p → Piece.blocks p !! k = Some b →
  Block.piece_index b = i
  ∧ Block.offset b = BLOCK_SIZE * Z.of_nat k
  ∧ Block.length b = Z.min BLOCK_SIZE (Piece.length p - Block.offset b)
  ∧ Block.offset b < Piece.length p.
Proof.
  intros (_ & _ & _ & HL & _ & Hshape & _) Hk.
  assert ((Block.shape <$> Piece.blocks p) !! k = Some (Block.shape b)) as Hk'
    by (rewrite list_lookup_fmap, Hk; reflexivity).
  unfold Piece.shapes in Hshape. rewrite Hshape, list_lookup_fmap in Hk'.
  destruct (Piece.create_blocks i (Piece.length p) !! k) as [b'|] eqn:Hb';
    [|discriminate].
  simpl in Hk'. injection Hk' as Hi Ho Hl. rewrite <- Hi, <- Ho, <- Hl.
  destruct (create_blocks_spec i (Piece.length p) HL) as (Htiles & Hall & Hstd).
  pose proof (create_blocks_loop_fuel i (Piece.length p) HL) as Hloop.
  apply create_blocks_loop_lengths in Hloop.
  rewrite Forall_forall in Hall, Hloop.
  assert (b' ∈ Piece.create_blocks i (Piece.length p)) as Hin
    by (eapply list_elem_of_lookup_2; eauto).
  destruct (Hall b' Hin) as (Hinit & _ & Hlen & Hend).
  split; [rewrite Hinit; reflexivity|]. split.
  - rewrite (tiles_standard_offsets _ 0 _ Htiles Hstd k b' Hb'). lia.
  - split; [apply Hloop; exact Hin|lia].
Qed.

(** X6. A request that [get_next_request] returns is for a piece of the
    availability set that is tracked and not completed; its offset is a
    multiple of the block size inside the piece, and its length is the block
    size or, for the last block, what is left of the piece. *)
Theorem request_is_well_formed tf avail m i off n m' :
  PieceManager.reachable tf m →
  PieceManager.get_next_request avail m = (Some (i, off, n), m') →
  i ∈ avail ∧ 0 <= i < get_total_pieces tf
  ∧ (i ∉ PieceManager.completed_pieces m)
  ∧ (∃ k : nat, off = BLOCK_SIZE * Z.of_nat k)
  ∧ 0 <= off < get_piece_length tf i
  ∧ n = Z.min BLOCK_SIZE (get_piece_length tf i - off).
Proof.
  intros Hreach Hget.
  pose proof (reachable_invariant tf m Hreach) as (_ & _ & Hdom & Hps & _).
  assert (∀ j, j ∈ PieceManager.request_order avail m →
               is_Some (PieceManager.pieces m !! j)) as Htracked
    by (intros j; apply request_order_tracked).
  pose proof (request_loop_first _ m Htracked) as Hloop.
  rewrite <- get_next_request_unfold, Hget in Hloop.
  destruct Hloop as (pre & post & p & k & b & Horder & _ & Hp & _ & Hk & _ & _ & -> & -> & _).
  assert (i ∈ PieceManager.needed_pieces avail m) as Hin.
  { apply request_order_subset. rewrite Horder.
    apply elem_of_app. right. apply elem_of_cons. auto. }
  apply needed_pieces_elem in Hin as (Hav & Htr & Hnc).
  destruct (Hps i p Hp) as [Hok _].
  destruct (piece_ok_block tf i p k b Hok Hk) as (_ & Ho & Hl & Hlt).
  destruct Hok as (_ & _ & HL & _).
  split; [exact Hav|]. split; [apply Hdom; exact Htr|]. split; [exact Hnc|].
  split; [exists k; exact Ho|]. rewrite <- HL.
  split; [unfold BLOCK_SIZE in *; lia|exact Hl].
Qed.

(** X7. The block that [get_next_request] has just returned is not returned
    by the next call, whatever the availability set of that call. *)
Theorem request_is_not_repeated tf avail avail' m i off n m' :
  PieceManager.reachable tf m →
  PieceManager.get_next_request avail m = (Some (i, off, n), m') →
  ∀ n', (PieceManager.get_next_request avail' m').1 ≠ Some (i, off, n').
Proof.
  intros Hreach Hget n' Hagain.
  assert (PieceManager.reachable tf m') as Hreach'.
  { replace m' with (PieceManager.exec (PieceManager.GetNextRequest avail) m)
      by (simpl; rewrite Hget; reflexivity).
    constructor. exact Hreach. }
  pose proof (reachable_invariant tf m' Hreach') as (_ & _ & _ & Hps' & _).
  pose proof (request_loop_first _ m (λ j, request_order_tracked avail m j)) as Hloop.
  rewrite <- get_next_request_unfold, Hget in Hloop.
  destruct Hloop as (_ & _ & p & k & b & _ & _ & Hp & _ & Hk & _ & _ & -> & _ & ->).
  pose proof (request_loop_first _ _
                (λ j, request_order_tracked avail'
                        (PieceManager.set_pieces
                           (<[i:=Piece.set_blocks
                                   (alter (Block.set_requested true) k
                                      (Piece.blocks p)) p]>
                              (PieceManager.pieces m)) m) j)) as Hloop'.
  rewrite <- get_next_request_unfold in Hloop'.
  destruct (PieceManager.get_next_request avail' _) as [[[[i' off'] n'']|] m''];
    [|discriminate].
  simpl in Hagain. injection Hagain as -> Hoff ->.
  destruct Hloop' as (_ & _ & p' & k' & b' & _ & _ & Hp' & _ & Hk' & Hst & _ & Ho' & _).
  simpl in Hp'. rewrite lookup_insert_eq in Hp'. injection Hp' as <-.
  simpl in Hk'.
  assert (k' = k) as ->.
  { destruct (Hps' i _ (lookup_insert_eq _ _ _)) as [Hok _].
    apply piece_ok_tiles in Hok. simpl in Hok.
    apply (tiles_offset_inj _ _ _ k' k b' (Block.set_requested true b) Hok Hk').
    - rewrite list_lookup_alter_eq, Hk. reflexivity.
    - simpl. congruence. }
  rewrite list_lookup_alter_eq, Hk in Hk'. simpl in Hk'. injection Hk' as <-.
  unfold Block.state_of in Hst. simpl in Hst.
  destruct (Block.received b); discriminate.
Qed.

(** X8. The override is not lifted when the high-priority candidates have
    nothing left to request: as long as one candidate is high priority and
    none of the high-priority candidates has a missing block, the call
    returns none and changes nothing, whatever the other candidates miss. *)
Theorem override_starves_others avail m :
  (∃ i, i ∈ PieceManager.needed_pieces avail m
        ∧ i ∈ PieceManager.high_priority_pieces m) →
  (∀ i, i ∈ PieceManager.needed_pieces avail m →
        i ∈ PieceManager.high_priority_pieces m →
        PieceManager.missing_count m i = 0) →
  PieceManager.get_next_request avail m = (None, m).
Proof.
  intros Hex Hnone.
  pose proof (request_loop_first _ m (λ j, request_order_tracked avail m j)) as Hloop.
  rewrite <- get_next_request_unfold in Hloop.
  destruct (PieceManager.get_next_request avail m) as [[[[i off] n]|] m'].
  - destruct Hloop as (pre & post & p & k & b & Horder & _ & _ & Hpos & _).
    assert (i ∈ PieceManager.request_order avail m) as Hin
      by (rewrite Horder; apply elem_of_app; right; apply elem_of_cons; auto).
    rewrite request_order_override in Hin by exact Hex.
    apply list_sort_elem, list_elem_of_filter in Hin as [Hhp Hneeded].
    rewrite (Hnone i Hneeded Hhp) in Hpos. lia.
  - destruct Hloop as [-> _]. reflexivity.
Qed.

End SelectionMore.

(** ** Request flags *)
Section RequestFlags.

Context `{Sha1}.
Implicit Types (bs : list Block.t) (b : Block.t) (p : Piece.t)
  (m : PieceManager.t) (tf : TorrentFile).

Lemma filter_imap_length {A} (Q : A → Prop)
      (D1 : ∀ kx : nat * A, Decision (Q kx.2)) (D2 : ∀ x, Decision (Q x))
      (f : nat → A → nat * A) (l : list A) :
  (∀ k x, (f k x).2 = x) →
  length (@filter _ _ _ (λ kx : nat * A, Q kx.2) D1 (imap f l))
  = length (@filter _ _ _ Q D2 l).
Proof.
  revert f. induction l as [|x l IH]; intros f Hf; [reflexivity|].
  rewrite imap_cons, !filter_cons.
  destruct (decide (Q (f 0%nat x).2)) as [Hq|Hq]; rewrite Hf in Hq;
    destruct (decide (Q x)); try contradiction; simpl;
    rewrite IH; auto; intros k y; apply Hf.
Qed.

Lemma missing_length p :
  length (Piece.get_missing_blocks p)
  = length (filter (λ b, Block.received b = false ∧ Block.requested b = false)
                   (Piece.blocks p)).
Proof.
  unfold Piece.get_missing_blocks.
  apply (filter_imap_length
           (λ b, Block.received b = false ∧ Block.requested b = false) _ _ pair).
  reflexivity.
Qed.

Lemma requested_length p :
  length (Piece.get_requested_blocks p)
  = length (filter (λ b, Block.requested b = true ∧ Block.received b = false)
                   (Piece.blocks p)).
Proof.
  unfold Piece.get_requested_blocks.
  apply (filter_imap_length
           (λ b, Block.requested b = true ∧ Block.received b = false) _ _ pair).
  reflexivity.
Qed.

(** X9. Every block of a piece is counted once: as missing, as requested or
    as received. *)
Theorem blocks_are_counted_once p :
  (length (Piece.get_missing_blocks p) + length (Piece.get_requested_blocks p)
   + length (filter (λ b, Block.received b = true) (Piece.blocks p))
   = length (Piece.blocks p))%nat
  ∧ (∀ kb, kb ∈ Piece.get_missing_blocks p → kb ∉ Piece.get_requested_blocks p)
  ∧ (∀ k b, Piece.blocks p !! k = Some b →
            match Block.state_of b with
            | Block.Missing => (k, b) ∈ Piece.get_missing_blocks p
            | Block.Requested => (k, b) ∈ Piece.get_requested_blocks p
            | Block.Received =>
                ((k, b) ∉ Piece.get_missing_blocks p)
                ∧ ((k, b) ∉ Piece.get_requested_blocks p)
            end).
Proof.
  split; [|split].
  - rewrite missing_length, requested_length.
    induction (Piece.blocks p) as [|b bs IH]; [reflexivity|].
    rewrite !filter_cons. simpl.
    destruct (Block.received b), (Block.requested b);
      repeat (destruct (decide _) as [?|?]; try (exfalso; intuition congruence));
      simpl; lia.
  - unfold Piece.get_missing_blocks, Piece.get_requested_blocks.
    intros kb Hm Hr. apply list_elem_of_filter in Hm as [[_ Hm] _].
    apply list_elem_of_filter in Hr as [[Hr _] _]. congruence.
  - intros k b Hk. unfold Piece.get_missing_blocks, Piece.get_requested_blocks.
    pose proof (elem_of_lookup_imap_2 pair _ _ _ Hk) as Hin.
    unfold Block.state_of.
    destruct (Block.received b) eqn:Hr, (Block.requested b) eqn:Hq;
      rewrite ?list_elem_of_filter; simpl; rewrite ?Hr, ?Hq;
      intuition congruence.
Qed.

(** X10. [reset_piece_requests] does nothing for an index that is not
    tracked; for a tracked piece it turns the requested blocks into missing
    ones and leaves the received blocks, the payloads, the buffer and the
    flags of the piece alone, so that the blocks that are not received are
    all missing again. *)
Theorem reset_piece_requests_effect i m :
  (PieceManager.pieces m !! i = None → PieceManager.reset_piece_requests i m = m)
  ∧ ∀ p, PieceManager.pieces m !! i = Some p →
      ∃ p', PieceManager.reset_piece_requests i m
            = PieceManager.set_pieces (<[i := p']> (PieceManager.pieces m)) m
        ∧ Piece.get_requested_blocks p' = []
        ∧ (∀ k, Piece.blocks p' !! k
                = (λ b, Block.mk (Block.piece_index b) (Block.offset b)
                          (Block.length b) (Block.data b)
                          (Block.requested b && Block.received b)
                          (Block.received b))
                  <$> Piece.blocks p !! k)
        ∧ (∀ k b', Piece.blocks p' !! k = Some b' →
                   ∃ b, Piece.blocks p !! k = Some b
                        ∧ Block.state_of b'
                          = match Block.state_of b with
                            | Block.Requested => Block.Missing
                            | s => s
                            end)
        ∧ PieceManager.missing_count (PieceManager.reset_piece_requests i m) i
          = len (filter (λ b, Block.received b = false) (Piece.blocks p))
        ∧ Piece.data p' = Piece.data p
        ∧ Piece.completed p' = Piece.completed p
        ∧ Piece.verified p' = Piece.verified p.
Proof.
  unfold PieceManager.reset_piece_requests. split; [intros ->; reflexivity|].
  intros p Hp. rewrite Hp. exists (Piece.reset_block_requests p).
  split; [reflexivity|].
  assert (∀ k, Piece.blocks (Piece.reset_block_requests p) !! k
               = (λ b, Block.mk (Block.piece_index b) (Block.offset b)
                         (Block.length b) (Block.data b)
                         (Block.requested b && Block.received b)
                         (Block.received b))
                 <$> Piece.blocks p !! k) as Hblocks.
  { intros k. simpl. rewrite list_lookup_fmap.
    destruct (Piece.blocks p !! k) as [b|]; [|reflexivity]. simpl. f_equal.
    destruct b as [pi o l dt rq rc]. simpl.
    destruct rc; simpl; [rewrite andb_true_r|rewrite andb_false_r]; reflexivity. }
  split; [|split; [exact Hblocks|split; [|split; [|auto]]]].
  - unfold Piece.get_requested_blocks.
    destruct (filter _ _) as [|[k b'] rest] eqn:Hf; [reflexivity|].
    assert ((k, b') ∈ (k, b') :: rest) as Hin by (apply elem_of_cons; auto).
    rewrite <- Hf in Hin. apply list_elem_of_filter in Hin as [[Hr Hn] Hin].
    apply elem_of_lookup_imap_1 in Hin as (k' & b'' & Heq & Hk').
    injection Heq as -> ->. rewrite Hblocks in Hk'.
    destruct (Piece.blocks p !! k') as [b|]; [|discriminate].
    simpl in Hk'. injection Hk' as <-. simpl in *.
    destruct (Block.received b), (Block.requested b); discriminate.
  - intros k b' Hk. rewrite Hblocks in Hk.
    destruct (Piece.blocks p !! k) as [b|]; [|discriminate].
    simpl in Hk. injection Hk as <-. exists b. split; [reflexivity|].
    unfold Block.state_of. simpl.
    destruct (Block.received b), (Block.requested b); reflexivity.
  - unfold PieceManager.missing_count, len. simpl. rewrite lookup_insert_eq.
    rewrite missing_length. simpl. f_equal. clear Hblocks Hp.
    induction (Piece.blocks p) as [|b bs IH]; [reflexivity|].
    rewrite fmap_cons, !filter_cons. simpl.
    destruct (Block.received b) eqn:Hr; simpl; rewrite ?Hr;
      repeat (destruct (decide _) as [?|?]; try (exfalso; intuition congruence));
      simpl; rewrite IH; reflexivity.
Qed.

(** X11. [mark_block_requested] does nothing for an index that is not
    tracked and for an offset at which the piece has no block; otherwise it
    sets the [requested] flag of the one block at that offset and nothing
    else, so a missing block becomes requested and a received block stays
    received. *)
Theorem mark_block_requested_effect tf m i off :
  PieceManager.reachable tf m →
  (PieceManager.pieces m !! i = None → PieceManager.mark_block_requested i off m = m)
  ∧ ∀ p, PieceManager.pieces m !! i = Some p →
      ((∀ b, b ∈ Piece.blocks p → Block.offset b ≠ off) →
       PieceManager.mark_block_requested i off m = m)
      ∧ ∀ k b, Piece.blocks p !! k = Some b → Block.offset b = off →
          PieceManager.mark_block_requested i off m
          = PieceManager.set_pieces
              (<[i := Piece.set_blocks
                        (<[k := Block.set_requested true b]> (Piece.blocks p)) p]>
                 (PieceManager.pieces m)) m
          ∧ Block.state_of (Block.set_requested true b)
            = match Block.state_of b with
              | Block.Missing => Block.Requested
              | s => s
              end.
Proof.
  intros Hreach.
  pose proof (reachable_invariant tf m Hreach) as (_ & _ & _ & Hps & _).
  unfold PieceManager.mark_block_requested. split; [intros ->; reflexivity|].
  intros p Hp. rewrite Hp. destruct (Hps i p Hp) as [Hok _].
  apply piece_ok_tiles in Hok. split.
  - intros Hnone.
    destruct (list_find _ _) as [[k b]|] eqn:Hf; [|reflexivity].
    apply list_find_Some in Hf as (Hk & Ho & _).
    destruct (Hnone b); [eapply list_elem_of_lookup_2; eauto|exact Ho].
  - intros k b Hk Ho.
    destruct (list_find _ _) as [[k' b']|] eqn:Hf.
    + apply list_find_Some in Hf as (Hk' & Ho' & _).
      assert (k' = k) as -> by (eapply tiles_offset_inj; eauto; congruence).
      split.
      * do 3 f_equal. apply list_eq. intros j.
        rewrite list_lookup_alter, list_lookup_insert.
        pose proof (lookup_lt_Some _ _ _ Hk) as Hlt.
        destruct (decide (k = j)) as [<-|Hne].
        -- rewrite decide_True by auto. rewrite Hk. reflexivity.
        -- rewrite decide_False by tauto. reflexivity.
      * unfold Block.state_of. simpl.
        destruct (Block.received b), (Block.requested b); reflexivity.
    + apply list_find_None in Hf. rewrite Forall_forall in Hf.
      destruct (Hf b); [eapply list_elem_of_lookup_2; eauto|exact Ho].
Qed.

End RequestFlags.

(** ** Completion and statistics *)
Section Completion.

Context `{Sha1}.
Implicit Types (m : PieceManager.t) (tf : TorrentFile).

Lemma completed_subset tf m :
  invariant tf m →
  PieceManager.completed_pieces m ⊆ dom (PieceManager.pieces m).
Proof.
  intros (_ & _ & _ & _ & Hcs) i Hi. apply elem_of_dom, Hcs. exact Hi.
Qed.

Lemma tracked_dom tf m :
  invariant tf m →
  dom (PieceManager.pieces m) = list_to_set (range (get_total_pieces tf)).
Proof.
  intros (_ & _ & Hdom & _). apply set_eq. intros i.
  rewrite elem_of_dom, Hdom, elem_of_list_to_set, range_elem. reflexivity.
Qed.

(** X12. In a reachable state [is_complete] holds exactly when every
    index of the torrent is in the completed set; the completed set never
    holds more indices than are tracked. *)
Theorem is_complete_iff_all tf m :
  PieceManager.reachable tf m →
  (PieceManager.is_complete m = true
   ↔ ∀ i, 0 <= i < get_total_pieces tf → i ∈ PieceManager.completed_pieces m)
  ∧ (size (PieceManager.completed_pieces m) ≤ size (PieceManager.pieces m))%nat.
Proof.
  intros Hreach. pose proof (reachable_invariant tf m Hreach) as Hinv.
  pose proof (completed_subset tf m Hinv) as Hsub.
  pose proof Hinv as (_ & _ & Hdom & _).
  split; [|rewrite <- size_dom; apply subseteq_size; exact Hsub].
  unfold PieceManager.is_complete. rewrite bool_decide_eq_true, <- size_dom.
  split.
  - intros Hsize i Hi. apply set_subseteq_size_eq in Hsub; [|lia].
    rewrite Hsub. apply elem_of_dom, Hdom. exact Hi.
  - intros Hall. f_equal. apply set_eq. intros i. split; [apply Hsub|].
    intros Hi. apply Hall, Hdom, elem_of_dom. exact Hi.
Qed.


End Completion.

(** ** Which fields an operation writes *)
Section Fields.

Context `{Sha1}.
Implicit Types (m : PieceManager.t) (tf : TorrentFile).

Lemma add_piece_data_fields i off d m :
  ∃ ps cs dl,
    (PieceManager.add_piece_data i off d m).2
    = PieceManager.set_delivered dl
        (PieceManager.set_completed_pieces cs (PieceManager.set_pieces ps m)).
Proof.
  assert (∃ ps cs dl,
             m = PieceManager.set_delivered dl
                   (PieceManager.set_completed_pieces cs
                      (PieceManager.set_pieces ps m))) as Hsame
    by (exists (PieceManager.pieces m), (PieceManager.completed_pieces m),
          (PieceManager.delivered m); destruct m; reflexivity).
  unfold PieceManager.add_piece_data.
  destruct (PieceManager.pieces m !! i) as [p|]; [|exact Hsame].
  destruct (Piece.completed p); [exact Hsame|].
  destruct (Piece.add_block_data off d p) as [success p'].
  destruct (success && Piece.completed p'); simpl.
  - destruct (Piece.verified p'); simpl.
    + destruct (PieceManager.on_piece_completed m); simpl.
      * do 3 eexists. reflexivity.
      * exists (<[i:=p']> (PieceManager.pieces m)),
          ({[i]} ∪ PieceManager.completed_pieces m), (PieceManager.delivered m).
        reflexivity.
    + exists (<[i:=Piece.reset p']> (<[i:=p']> (PieceManager.pieces m))),
        (PieceManager.completed_pieces m), (PieceManager.delivered m).
      reflexivity.
  - exists (<[i:=p']> (PieceManager.pieces m)),
      (PieceManager.completed_pieces m), (PieceManager.delivered m).
    reflexivity.
Qed.

Lemma get_next_request_fields avail m :
  ∃ ps, (PieceManager.get_next_request avail m).2 = PieceManager.set_pieces ps m.
Proof.
  rewrite get_next_request_unfold.
  pose proof (request_loop_spec (PieceManager.request_order avail m) m) as Hspec.
  destruct (PieceManager.request_loop _ m) as [[[[i off] n]|] m']; simpl.
  - destruct Hspec as (_ & _ & p & k & _ & _ & _ & _ & _ & _ & _ & _ & ->).
    eexists. reflexivity.
  - destruct Hspec as [-> _]. exists (PieceManager.pieces m).
    destruct m; reflexivity.
Qed.

Lemma exec_high_priority o m :
  PieceManager.high_priority_pieces (PieceManager.exec o m)
  = match o with
    | PieceManager.SetHighPriorityPiece i =>
        {[i]} ∪ PieceManager.high_priority_pieces m
    | _ => PieceManager.high_priority_pieces m
    end.
Proof.
  destruct o; simpl; try reflexivity.
  - destruct (add_piece_data_fields piece_index offset d m) as (ps & cs & dl & ->).
    reflexivity.
  - destruct (get_next_request_fields available_pieces m) as (ps & ->). reflexivity.
  - unfold PieceManager.mark_block_requested.
    destruct (PieceManager.pieces m !! piece_index); [|reflexivity].
    destruct (list_find _ _) as [[k b]|]; reflexivity.
  - unfold PieceManager.reset_piece_requests.
    destruct (PieceManager.pieces m !! piece_index); reflexivity.
  - rewrite set_piece_priority_only_priorities. reflexivity.
  - destruct enable; simpl; [|reflexivity].
    rewrite sequential_loop_only_priorities. reflexivity.
Qed.

Lemma exec_priorities o m :
  PieceManager.piece_priorities (PieceManager.exec o m)
  = match o with
    | PieceManager.SetPiecePriority i v =>
        PieceManager.piece_priorities (PieceManager.set_piece_priority i v m)
    | PieceManager.SetSequentialDownload enable =>
        PieceManager.piece_priorities
          (PieceManager.set_sequential_download enable m).2
    | _ => PieceManager.piece_priorities m
    end.
Proof.
  destruct o; simpl; try reflexivity.
  - destruct (add_piece_data_fields piece_index offset d m) as (ps & cs & dl & ->).
    reflexivity.
  - destruct (get_next_request_fields available_pieces m) as (ps & ->). reflexivity.
  - unfold PieceManager.mark_block_requested.
    destruct (PieceManager.pieces m !! piece_index); [|reflexivity].
    destruct (list_find _ _) as [[k b]|]; reflexivity.
  - unfold PieceManager.reset_piece_requests.
    destruct (PieceManager.pieces m !! piece_index); reflexivity.
Qed.

Lemma set_piece_priority_range i v m :
  (∀ j w, PieceManager.piece_priorities m !! j = Some w → 1 <= w <= 10) →
  ∀ j w, PieceManager.piece_priorities (PieceManager.set_piece_priority i v m) !! j
         = Some w → 1 <= w <= 10.
Proof.
  intros Hm j w. unfold PieceManager.set_piece_priority.
  destruct (Z.leb_spec 1 v); destruct (Z.leb_spec v 10); simpl; try apply Hm.
  rewrite lookup_insert. destruct (decide (i = j)); [|apply Hm].
  intros [= <-]. lia.
Qed.

Lemma sequential_loop_range indices total m :
  (∀ j w, PieceManager.piece_priorities m !! j = Some w → 1 <= w <= 10) →
  ∀ j w, PieceManager.piece_priorities
           (PieceManager.sequential_loop indices total m).2 !! j = Some w →
         1 <= w <= 10.
Proof.
  revert m. induction indices as [|i rest IH]; intros m Hm; simpl; [exact Hm|].
  destruct (PieceManager.floordiv i _) as [e|q]; [exact Hm|].
  apply IH. apply set_piece_priority_range. exact Hm.
Qed.

(** X14. Every explicit priority of a reachable state is between 1 and 10,
    and so is the priority that the selection uses for any index. *)
Theorem priorities_stay_in_range tf m :
  PieceManager.reachable tf m →
  ∀ i, 1 <= PieceManager.priority m i <= 10
       ∧ ∀ v, PieceManager.piece_priorities m !! i = Some v → 1 <= v <= 10.
Proof.
  intros Hreach.
  assert (∀ j w, PieceManager.piece_priorities m !! j = Some w → 1 <= w <= 10)
    as Hrange.
  { induction Hreach as [_|o m _ IH].
    - intros j w. simpl. rewrite lookup_empty. discriminate.
    - rewrite exec_priorities. destruct o; try exact IH.
      + apply set_piece_priority_range. exact IH.
      + destruct enable; simpl.
        * apply sequential_loop_range. exact IH.
        * intros j w. rewrite lookup_empty. discriminate. }
  intros i. split; [|apply Hrange]. unfold PieceManager.priority.
  destruct (PieceManager.piece_priorities m !! i) as [v|] eqn:Hv; simpl; [|lia].
  apply (Hrange i v Hv).
Qed.

(** X15. No operation takes an index out of the high-priority set: an
    index that is high priority stays so after any sequence of operations. *)
Theorem high_priority_is_permanent (ops : list PieceManager.op) m i :
  i ∈ PieceManager.high_priority_pieces m →
  i ∈ PieceManager.high_priority_pieces
        (foldl (λ m o, PieceManager.exec o m) m ops).
Proof.
  revert m. induction ops as [|o ops IH]; intros m Hi; simpl; [exact Hi|].
  apply IH. rewrite exec_high_priority.
  destruct o; try exact Hi. apply elem_of_union_r. exact Hi.
Qed.

(** X16. With one to nine pieces [set_sequential_download(True)] raises
    [ZeroDivisionError] at the first index and leaves the manager as it was;
    with no piece it does nothing. *)
Theorem few_pieces_sequential_raises tf m :
  PieceManager.reachable tf m →
  get_total_pieces tf < 10 →
  PieceManager.set_sequential_download true m
  = (if 0 <? get_total_pieces tf then Some ZeroDivisionError else None, m).
Proof.
  intros Hreach Hfew. pose proof (reachable_invariant tf m Hreach) as Hinv.
  unfold PieceManager.set_sequential_download.
  destruct (Z.ltb_spec 0 (get_total_pieces tf)) as [Hpos|Hnone].
  - rewrite (pieces_size tf m Hinv) by lia.
    unfold range. destruct (Z.to_nat (get_total_pieces tf)) as [|n] eqn:Hn; [lia|].
    simpl. unfold PieceManager.floordiv.
    rewrite Z.div_small by lia. reflexivity.
  - assert (size (PieceManager.pieces m) = 0%nat) as ->.
    { rewrite <- size_dom, (tracked_dom tf m Hinv).
      rewrite size_list_to_set by apply range_NoDup.
      rewrite range_length. lia. }
    reflexivity.
Qed.

End Fields.

(** ** More on the rate limiter *)
Section RateLimitMore.

Context `{Sha1}.
Implicit Types (m : PieceManager.t) (tf : TorrentFile).

(** X22. In a reachable state [check_rate_limit] raises no
    [ZeroDivisionError], the window being 5 seconds, but it raises
    [OverflowError] for a byte count whose rate is beyond the floats, such as
    5 * 2^1024 and its opposite; the stored window is pruned all the same. *)
Theorem check_rate_limit_raises tf m now n :
  PieceManager.reachable tf m →
  (PieceManager.check_rate_limit now n m).1 ≠ inl ZeroDivisionError
  ∧ (PieceManager.check_rate_limit now (5 * 2 ^ 1024) m).1 = inl OverflowError
  ∧ (PieceManager.check_rate_limit now (- (5 * 2 ^ 1024)) m).1 = inl OverflowError
  ∧ (PieceManager.check_rate_limit now (5 * 2 ^ 1024) m).2
    = (PieceManager.check_rate_limit now n m).2.
Proof.
  intros Hreach. pose proof (reachable_invariant tf m Hreach) as (_ & Hw & _).
  assert (∀ a e, int_true_divide a 5 = inl e → e = OverflowError) as Hexn.
  { intros a e Ha. apply int_true_divide_exn in Ha as [[_ ?]|[? _]];
      [discriminate|assumption]. }
  assert (∀ k, int_true_divide k 5 = inl OverflowError →
               (PieceManager.check_rate_limit now k m).1 = inl OverflowError)
    as Hover.
  { intros k Hk. rewrite (check_rate_limit_five now k m Hw). cbn [fst].
    destruct (filter _ (PieceManager.bytes_downloaded_window m)) as [|tb kept].
    - rewrite Hk. reflexivity.
    - destruct (int_true_divide (PieceManager.window_bytes (tb :: kept)) 5)
        as [e|r] eqn:Hr.
      + rewrite (Hexn _ e Hr). reflexivity.
      + rewrite Hk. reflexivity. }
  split; [|split; [|split]].
  - rewrite (check_rate_limit_five now n m Hw). cbn [fst].
    destruct (filter _ (PieceManager.bytes_downloaded_window m)) as [|tb kept].
    + destruct (int_true_divide n 5) as [e|q] eqn:Hq; [|discriminate].
      rewrite (Hexn _ e Hq). discriminate.
    + destruct (int_true_divide (PieceManager.window_bytes (tb :: kept)) 5)
        as [e|r] eqn:Hr.
      * rewrite (Hexn _ e Hr). discriminate.
      * destruct (int_true_divide n 5) as [e|q] eqn:Hq; [|discriminate].
        rewrite (Hexn _ e Hq). discriminate.
  - apply Hover. vm_compute. reflexivity.
  - apply Hover. vm_compute. reflexivity.
  - reflexivity.
Qed.

(** X18. A check prunes for its moment once and for all: a second check at
    the same moment answers as it would have on the state before the first,
    and stores what the first check stored. *)
Theorem check_rate_limit_settles now n n' m :
  PieceManager.check_rate_limit now n' (PieceManager.check_rate_limit now n m).2
  = ((PieceManager.check_rate_limit now n' m).1,
     (PieceManager.check_rate_limit now n m).2).
Proof.
  unfold PieceManager.check_rate_limit. simpl.
  set (kept := filter (λ tb, PieceManager.in_window now m tb)
                      (PieceManager.bytes_downloaded_window m)).
  assert (filter
            (λ tb, PieceManager.in_window now (PieceManager.set_window kept m) tb)
            kept = kept) as ->.
  { unfold kept. rewrite list_filter_filter. apply list_filter_iff.
    intros tb. unfold PieceManager.in_window. simpl. tauto. }
  reflexivity.
Qed.

End RateLimitMore.

(** ** Deliveries *)
Section Deliveries.

Context `{Sha1}.
Implicit Types (m : PieceManager.t) (tf : TorrentFile).

Lemma exec_delivered tf o m :
  invariant tf m →
  PieceManager.delivered (PieceManager.exec o m) = PieceManager.delivered m
  ∨ ∃ i p',
      (i ∉ PieceManager.completed_pieces m)
      ∧ i ∈ PieceManager.completed_pieces (PieceManager.exec o m)
      ∧ PieceManager.pieces (PieceManager.exec o m) !! i = Some p'
      ∧ PieceManager.delivered (PieceManager.exec o m)
        = PieceManager.delivered m ++ [(i, Piece.data p')].
Proof.
  intros (_ & _ & _ & Hps & _).
  destruct o; simpl; try (left; reflexivity).
  - unfold PieceManager.add_piece_data.
    destruct (PieceManager.pieces m !! piece_index) as [p|] eqn:Hp; [|auto].
    destruct (Piece.completed p) eqn:Hc; [auto|].
    destruct (Piece.add_block_data offset d p) as [success p'].
    destruct (success && Piece.completed p'); simpl; [|auto].
    destruct (Piece.verified p'); simpl; [|auto].
    destruct (PieceManager.on_piece_completed m); simpl; [|auto].
    right. exists piece_index, p'. split.
    + intros Hin. apply (Hps piece_index p Hp) in Hin. congruence.
    + split; [apply elem_of_union_l, elem_of_singleton; reflexivity|].
      split; [apply lookup_insert_eq|reflexivity].
  - destruct (get_next_request_fields available_pieces m) as (ps & ->). auto.
  - unfold PieceManager.mark_block_requested.
    destruct (PieceManager.pieces m !! piece_index); [|auto].
    destruct (list_find _ _) as [[k b]|]; auto.
  - unfold PieceManager.reset_piece_requests.
    destruct (PieceManager.pieces m !! piece_index); auto.
  - rewrite set_piece_priority_only_priorities. auto.
  - destruct enable; simpl; [|auto].
    rewrite sequential_loop_only_priorities. auto.
Qed.

(** X19. The callback is called at most once for an index, only for
    indices of the completed set, and with the buffer that [get_piece_data]
    returns for the index, which has the expected digest. *)
Theorem completion_is_delivered_once tf m :
  PieceManager.reachable tf m →
  NoDup (PieceManager.delivered m).*1
  ∧ ∀ i d, (i, d) ∈ PieceManager.delivered m →
           i ∈ PieceManager.completed_pieces m
           ∧ PieceManager.get_piece_data i m = Some d
           ∧ sha1_hash d = get_piece_hash tf i.
Proof.
  intros Hreach.
  assert (NoDup (PieceManager.delivered m).*1
          ∧ ∀ i d, (i, d) ∈ PieceManager.delivered m →
                   i ∈ PieceManager.completed_pieces m
                   ∧ ∃ p, PieceManager.pieces m !! i = Some p ∧ Piece.data p = d)
    as [Hnodup Hall].
  { induction Hreach as [_|o m Hreach [IHn IHd]].
    - simpl. split; [constructor|]. intros i d Hin. apply elem_of_nil in Hin as [].
    - pose proof (reachable_invariant tf m Hreach) as Hinv.
      assert (∀ i d, (i, d) ∈ PieceManager.delivered m →
                i ∈ PieceManager.completed_pieces (PieceManager.exec o m)
                ∧ ∃ p, PieceManager.pieces (PieceManager.exec o m) !! i = Some p
                       ∧ Piece.data p = d) as Hold.
      { intros i d Hin. destruct (IHd i d Hin) as (Hi & p & Hp & <-).
        apply (exec_keeps_completed tf o m i p Hinv Hi Hp). }
      destruct (exec_delivered tf o m Hinv)
        as [->|(i & p' & Hnot & Hi & Hp' & ->)]; [split; assumption|].
      split.
      + rewrite fmap_app. apply NoDup_app. split; [exact IHn|].
        split; [|apply NoDup_singleton].
        intros j Hj Hj'. apply list_elem_of_singleton in Hj'. simpl in Hj'.
        subst j. apply list_elem_of_fmap in Hj as ([j d] & Hjd & Hin).
        simpl in Hjd. subst j. apply Hnot. apply (IHd _ d Hin).
      + intros j d [Hin|Hin]%elem_of_app; [apply Hold; exact Hin|].
        apply list_elem_of_singleton in Hin. injection Hin as -> ->.
        split; [exact Hi|eauto]. }
  split; [exact Hnodup|]. intros i d Hin.
  destruct (Hall i d Hin) as (Hi & p & Hp & <-).
  split; [exact Hi|].
  pose proof (reachable_invariant tf m Hreach) as (_ & _ & _ & Hps & _).
  destruct (Hps i p Hp) as [(_ & _ & _ & _ & Hh & _ & Hc) Hin'].
  split.
  - unfold PieceManager.get_piece_data. rewrite bool_decide_eq_true_2 by exact Hi.
    rewrite Hp. reflexivity.
  - rewrite <- Hh. apply Hc, Hin'. exact Hi.
Qed.

End Deliveries.

(** ** Download statistics *)
Section Statistics.

Context `{Sha1}.
Implicit Types (m : PieceManager.t) (tf : TorrentFile).

Lemma completed_bytes_sum tf (pieces : gmap Z Piece.t) (l : list Z) acc :
  (∀ i, i ∈ l → ∃ p, pieces !! i = Some p ∧ Piece.length p = get_piece_length tf i) →
  completed_bytes pieces l acc
  = Some (acc + foldr Z.add 0 (get_piece_length tf <$> l)).
Proof.
  revert acc. induction l as [|i l IH]; intros acc Hl;
    rewrite ?fmap_nil, ?fmap_cons; simpl.
  - f_equal. lia.
  - destruct (Hl i) as (p & -> & ->); [apply elem_of_cons; auto|].
    rewrite IH by (intros j Hj; apply Hl; apply elem_of_cons; auto).
    f_equal. lia.
Qed.

Lemma sum_permutation (f : Z → Z) (l l' : list Z) :
  l ≡ₚ l' → foldr Z.add 0 (f <$> l) = foldr Z.add 0 (f <$> l').
Proof.
  induction 1 as [|x l l' _ IH|x y l|l l' l'' _ IH _ IH'];
    rewrite ?fmap_cons; simpl; lia.
Qed.

Lemma sum_nonneg (f : Z → Z) (l : list Z) :
  (∀ i, i ∈ l → 0 <= f i) → 0 <= foldr Z.add 0 (f <$> l).
Proof.
  induction l as [|i l IH]; intros Hl; rewrite ?fmap_cons; simpl; [lia|].
  pose proof (Hl i ltac:(apply elem_of_cons; auto)).
  pose proof (IH ltac:(intros j Hj; apply Hl; apply elem_of_cons; auto)). lia.
Qed.

(** X20. In a reachable state [get_download_stats] raises no [KeyError];
    it reports the number of pieces of the torrent, a number of completed
    pieces that is not larger, and as downloaded bytes the sum of the
    lengths of the completed pieces, whatever the order in which the set is
    iterated, which is at most the sum of the lengths of all pieces. *)
Theorem download_stats_consistent tf m :
  PieceManager.reachable tf m →
  ∃ s, get_download_stats m = Some s
       ∧ stats_total_pieces s = Z.max 0 (get_total_pieces tf)
       ∧ 0 <= stats_completed_pieces s <= stats_total_pieces s
       ∧ stats_bytes_downloaded s
         = foldr Z.add 0
             (get_piece_length tf <$> elements (PieceManager.completed_pieces m))
       ∧ 0 <= stats_bytes_downloaded s
         <= foldr Z.add 0 (get_piece_length tf <$> range (get_total_pieces tf))
       ∧ (∀ l, l ≡ₚ elements (PieceManager.completed_pieces m) →
               completed_bytes (PieceManager.pieces m) l 0
               = Some (stats_bytes_downloaded s))
       ∧ stats_total_bytes s = total_length tf.
Proof.
  intros Hreach. pose proof (reachable_invariant tf m Hreach) as Hinv.
  pose proof Hinv as (Htf & _ & Hdom & Hps & Hcs).
  assert (∀ l, l ≡ₚ elements (PieceManager.completed_pieces m) →
            ∀ i, i ∈ l → ∃ p, PieceManager.pieces m !! i = Some p
                              ∧ Piece.length p = get_piece_length tf i) as Hl.
  { intros l Hperm i Hi. rewrite Hperm in Hi. apply elem_of_elements in Hi.
    destruct (Hcs i Hi) as [p Hp]. exists p. split; [exact Hp|].
    destruct (Hps i p Hp) as [(_ & _ & HL & _) _]. exact HL. }
  assert (∀ i, i ∈ range (get_total_pieces tf) → 0 <= get_piece_length tf i)
    as Hnonneg.
  { intros i Hi. apply range_elem, Hdom in Hi as [p Hp].
    destruct (Hps i p Hp) as [(_ & _ & HL & HL0 & _) _]. lia. }
  unfold get_download_stats.
  rewrite (completed_bytes_sum tf) by (apply Hl; reflexivity).
  eexists. split; [reflexivity|]. simpl.
  assert (size (PieceManager.pieces m) = Z.to_nat (get_total_pieces tf)) as Hsize.
  { rewrite <- size_dom, (tracked_dom tf m Hinv).
    rewrite size_list_to_set by apply range_NoDup. apply range_length. }
  pose proof (completed_subset tf m Hinv) as Hsub.
  assert (elements (PieceManager.completed_pieces m)
            ⊆+ range (get_total_pieces tf)) as Hsubm.
  { apply NoDup_submseteq; [apply NoDup_elements|].
    intros i Hi. apply elem_of_elements, Hcs, Hdom in Hi. apply range_elem. exact Hi. }
  apply submseteq_Permutation in Hsubm as [rest Hrest].
  apply subseteq_size in Hsub. rewrite size_dom in Hsub.
  split; [lia|]. split; [lia|]. split; [reflexivity|]. split; [|split].
  - split.
    + apply sum_nonneg. intros i Hi. apply Hnonneg.
      rewrite Hrest. apply elem_of_app. auto.
    + rewrite (sum_permutation _ _ _ Hrest), fmap_app, foldr_app.
      assert (∀ a l, foldr Z.add a l = a + foldr Z.add 0 l) as Hshift
        by (intros a l; induction l; simpl; lia).
      rewrite (Hshift (foldr _ _ _)).
      pose proof (sum_nonneg (get_piece_length tf) rest) as Hrest0.
      assert (0 <= foldr Z.add 0 (get_piece_length tf <$> rest)); [|lia].
      apply Hrest0. intros i Hi. apply Hnonneg. rewrite Hrest.
      apply elem_of_app. auto.
  - intros l Hperm. rewrite (completed_bytes_sum tf) by (apply Hl; exact Hperm).
    rewrite (sum_permutation _ _ _ Hperm). reflexivity.
  - rewrite Htf. reflexivity.
Qed.

End Statistics.

(** ** Feeding a whole piece *)
Section Feeding.

Context `{Sha1}.
Implicit Types (bs : list Block.t) (b : Block.t) (p : Piece.t)
  (m : PieceManager.t) (tf : TorrentFile) (c d : list byte).

Lemma completed_flag_reachable tf m i p :
  PieceManager.reachable tf m → PieceManager.pieces m !! i = Some p →
  0 < Piece.length p →
  Piece.completed p = forallb Block.received (Piece.blocks p).
Proof.
  intros Hreach Hp.
  apply (piece_invariant_reachable
           (λ p, 0 < Piece.length p →
                 Piece.completed p = forallb Block.received (Piece.blocks p)) tf)
    with (m := m) (i := i); auto.
  - intros j L h HL0 HL. simpl in *.
    destruct (create_blocks_spec j L HL0) as (Htiles & Hall & _).
    destruct (Piece.create_blocks j L) as [|b bs]; [simpl in Htiles; lia|].
    apply Forall_cons in Hall as [[-> _] _]. reflexivity.
  - intros j p0 p1 Hok0 HP Hstep HL.
    assert (Piece.length p1 = Piece.length p0) as HL'.
    { destruct Hstep as [k| |off d _ _|off d _ _ _ _]; simpl; auto;
        destruct (add_block_data_shapes off d p0) as (_ & _ & -> & _); reflexivity. }
    apply (received_step tf j p0 p1); auto; [lia|]. apply HP. lia.
Qed.

Lemma slice_length c off n :
  0 <= off → 0 <= n → off + n <= len c → len (slice c off n) = n.
Proof.
  intros Hoff Hn Hfit. unfold slice, len in *.
  rewrite length_take, length_drop. lia.
Qed.

(** A piece whose blocks are all received holds in its buffer the bytes
    that its payloads agree with. *)
Lemma agreed_buffer p c :
  Piece.tiles (Piece.blocks p) 0 (Piece.length p) → 0 <= Piece.length p →
  assembled p → agrees c p → len c = Piece.length p →
  forallb Block.received (Piece.blocks p) = true →
  Piece.data p = c.
Proof.
  intros Htiles HL0 [Hlen Hblocks] Hagree Hc Hall.
  rewrite forallb_forall in Hall.
  assert (∀ k b, Piece.blocks p !! k = Some b → Block.received b = true) as Hrec.
  { intros k b Hk. apply Hall, list_elem_of_In. eapply list_elem_of_lookup_2; eauto. }
  assert (payloads (Piece.blocks p) = Piece.data p) as <-.
  { rewrite (payloads_tiles (Piece.data p) _ 0 (Piece.length p)); [|lia|exact Htiles|].
    - unfold slice. rewrite drop_0, Z.sub_0_r. apply take_ge. lia.
    - intros k b Hk. rewrite (Hblocks k b Hk), (Hrec k b Hk). reflexivity. }
  rewrite (payloads_tiles c _ 0 (Piece.length p)); [|lia|exact Htiles|].
  - unfold slice, len in *. rewrite drop_0, Z.sub_0_r. apply take_ge. lia.
  - intros k b Hk. apply (Hagree k b Hk), (Hrec k b Hk).
Qed.

(** [add_piece_data] on a tracked piece that is not completed. *)
Lemma add_piece_data_tracked i off d m p :
  PieceManager.pieces m !! i = Some p → Piece.completed p = false →
  PieceManager.add_piece_data i off d m
  = ((Piece.add_block_data off d p).1,
     let p' := (Piece.add_block_data off d p).2 in
     if (Piece.add_block_data off d p).1 && Piece.completed p' then
       if Piece.verified p' then
         let m2 := PieceManager.set_completed_pieces
                     ({[i]} ∪ PieceManager.completed_pieces m)
                     (PieceManager.set_pieces (<[i:=p']> (PieceManager.pieces m)) m) in
         if PieceManager.on_piece_completed m
         then PieceManager.set_delivered
                (PieceManager.delivered m ++ [(i, Piece.data p')]) m2
         else m2
       else PieceManager.set_pieces
              (<[i:=Piece.reset p']> (PieceManager.pieces m)) m
     else PieceManager.set_pieces (<[i:=p']> (PieceManager.pieces m)) m).
Proof.
  intros Hp Hcp. unfold PieceManager.add_piece_data. rewrite Hp, Hcp.
  destruct (Piece.add_block_data off d p) as [success p']. simpl.
  destruct (success && Piece.completed p'); [|reflexivity].
  destruct (Piece.verified p'); simpl.
  - destruct (PieceManager.on_piece_completed m); reflexivity.
  - rewrite insert_insert_eq. reflexivity.
Qed.

Lemma fed_step tf i c n b0 m :
  len c = get_piece_length tf i → sha1_hash c = get_piece_hash tf i →
  Piece.create_blocks i (get_piece_length tf i) !! n = Some b0 →
  fed_up_to tf i c n m →
  fed_up_to tf i c (S n)
    (PieceManager.add_piece_data i (Block.offset b0)
       (slice c (Block.offset b0) (Block.length b0)) m).2.
Proof.
  intros Hlen Hsha Hb0 [Hreach Hstate].
  set (off := Block.offset b0). set (d := slice c off (Block.length b0)).
  split.
  { apply (PieceManager.reachable_exec tf (PieceManager.AddPieceData i off d)).
    exact Hreach. }
  pose proof (reachable_invariant tf m Hreach) as (_ & _ & _ & Hps & Hcs).
  destruct Hstate as [[Hi Hdata]|(p & Hp & Hcp & Hagree & Hfirst)].
  { left. destruct (Hcs i Hi) as [p Hp]. destruct (Hps i p Hp) as [_ Hc].
    unfold PieceManager.add_piece_data. rewrite Hp, (proj1 Hc Hi). auto. }
  destruct (Hps i p Hp) as [Hok Hin].
  pose proof (piece_ok_tiles tf i p Hok) as Htiles.
  pose proof (reachable_assembled tf m i p Hreach Hp) as Hasm.
  pose proof Hok as (_ & _ & HL & HL0 & Hh & Hshape & _).
  assert (∃ b, Piece.blocks p !! n = Some b ∧ Block.shape b = Block.shape b0)
    as (b & Hb & Hsb).
  { assert ((Block.shape <$> Piece.create_blocks i (Piece.length p)) !! n
            = Some (Block.shape b0)) as Hn
      by (rewrite HL, list_lookup_fmap, Hb0; reflexivity).
    unfold Piece.shapes in Hshape. rewrite <- Hshape, list_lookup_fmap in Hn.
    destruct (Piece.blocks p !! n) as [b|]; [|discriminate].
    simpl in Hn. exists b. split; [reflexivity|congruence]. }
  injection Hsb as _ Hob Hlb. fold off in Hob.
  destruct (tiles_bounds _ _ _ _ _ Htiles Hb) as (Hoff0 & Hpos & Hend).
  assert (len d = Block.length b) as Hd
    by (unfold d; rewrite <- Hlb; apply slice_length; lia).
  pose proof (assembled_ingest tf i p off d Hok Hasm) as Hasm'.
  destruct (add_block_data_shapes off d p) as (Hs' & _ & HL' & Hh').
  rewrite (add_piece_data_tracked i off d m p Hp Hcp). cbn [fst snd].
  destruct (add_block_data_inv off d p)
    as [(Hf & Hsame & [Hg|Hnone])
       |(k & b' & Ht & _ & Hk & Ho & Hl & Hr & _ & _ & _ & Hbs & _ & Hcc & Hvv)].
  - lia.
  - cbn [fst snd] in Hf, Hsame. rewrite Hf, Hsame. cbn [andb].
    rewrite insert_id by exact Hp.
    assert (PieceManager.set_pieces (PieceManager.pieces m) m = m) as ->
      by (destruct m; reflexivity).
    right. exists p.
    split; [exact Hp|]. split; [exact Hcp|]. split; [exact Hagree|].
    intros k bk Hk Hbk. destruct (decide (k = n)) as [->|Hne].
    + rewrite Hb in Hbk. injection Hbk as <-.
      apply (proj1 (find_slot_None _ _ _ _) Hnone b); auto; try congruence.
      eapply list_elem_of_lookup_2; eauto.
    + apply (Hfirst k bk); [lia|exact Hbk].
  - assert (k = n) as -> by (eapply tiles_offset_inj; eauto; congruence).
    rewrite Hb in Hk. injection Hk as <-.
    cbn [fst snd] in Ht, Hbs, Hcc, Hvv.
    assert (agrees c (Piece.add_block_data off d p).2) as Hagree'.
    { intros k bk. rewrite Hbs, list_lookup_alter.
      destruct (decide (n = k)) as [<-|]; [|apply Hagree].
      rewrite Hb. simpl. intros [= <-] _. simpl. unfold d. congruence. }
    assert (∀ k bk, (k < S n)%nat →
              Piece.blocks (Piece.add_block_data off d p).2 !! k = Some bk →
              Block.received bk = true) as Hfirst'.
    { intros k bk Hk. rewrite Hbs, list_lookup_alter.
      destruct (decide (n = k)) as [<-|Hne].
      - rewrite Hb. simpl. intros [= <-]. reflexivity.
      - apply Hfirst. lia. }
    rewrite Ht. cbn [andb].
    destruct (Piece.completed (Piece.add_block_data off d p).2) eqn:Hc'.
    + destruct (forallb Block.received
                  (Piece.blocks (Piece.add_block_data off d p).2)) eqn:Hall;
        [|congruence].
      assert (Piece.data (Piece.add_block_data off d p).2 = c) as Hbuf.
      { apply agreed_buffer; auto; try lia; try congruence.
        rewrite HL'. apply (tiles_shapes (Piece.blocks p)); [|exact Htiles].
        symmetry. exact Hs'. }
      rewrite Hbuf in Hvv. rewrite bool_decide_eq_true_2 in Hvv by congruence.
      rewrite Hvv. left. unfold PieceManager.get_piece_data.
      destruct (PieceManager.on_piece_completed m); simpl;
        (split; [apply elem_of_union_l, elem_of_singleton; reflexivity|]);
        (rewrite bool_decide_eq_true_2
           by (apply elem_of_union_l, elem_of_singleton; reflexivity));
        rewrite lookup_insert_eq; simpl; congruence.
    + right. exists (Piece.add_block_data off d p).2. simpl.
      rewrite lookup_insert_eq. auto.
Qed.

Lemma feed_fed tf i c suf :
  len c = get_piece_length tf i → sha1_hash c = get_piece_hash tf i →
  ∀ pre m,
    Piece.create_blocks i (get_piece_length tf i) = pre ++ suf →
    fed_up_to tf i c (length pre) m →
    fed_up_to tf i c (length (pre ++ suf)) (feed i c suf m).
Proof.
  intros Hlen Hsha. induction suf as [|b0 suf IH]; intros pre m Heq Hfed.
  - rewrite app_nil_r. exact Hfed.
  - unfold feed. simpl. fold (feed i c suf).
    replace (pre ++ b0 :: suf) with ((pre ++ [b0]) ++ suf) in *
      by (rewrite <- app_assoc; reflexivity).
    apply IH; [exact Heq|]. rewrite length_app. simpl.
    rewrite Nat.add_1_r. apply (fed_step tf i c (length pre) b0); auto.
    rewrite Heq, <- app_assoc. simpl.
    rewrite lookup_app_r by lia. rewrite Nat.sub_diag. reflexivity.
Qed.

(** X21. Feeding, block after block of the partition, the bytes of a
    content with the expected digest to a tracked piece that is not
    completed, and whose payloads so far are bytes of that content, completes
    the piece: its index is in the completed set and [get_piece_data]
    returns the content. *)
Theorem feeding_the_content_completes tf m i c :
  PieceManager.reachable tf m →
  0 <= i < get_total_pieces tf → 0 < get_piece_length tf i →
  len c = get_piece_length tf i → sha1_hash c = get_piece_hash tf i →
  (i ∉ PieceManager.completed_pieces m) →
  (∀ p, PieceManager.pieces m !! i = Some p → agrees c p) →
  let m' := feed i c (Piece.create_blocks i (get_piece_length tf i)) m in
  PieceManager.reachable tf m'
  ∧ i ∈ PieceManager.completed_pieces m'
  ∧ PieceManager.get_piece_data i m' = Some c.
Proof.
  intros Hreach Hi Hpos Hlen Hsha Hnot Hagree m'.
  pose proof (reachable_invariant tf m Hreach) as (_ & _ & Hdom & Hps & _).
  destruct (proj2 (Hdom i) Hi) as [p Hp]. destruct (Hps i p Hp) as [_ Hin].
  assert (fed_up_to tf i c 0 m) as Hstart.
  { split; [exact Hreach|]. right. exists p. split; [exact Hp|].
    split; [|split; [apply Hagree; exact Hp|intros k b Hk; lia]].
    destruct (Piece.completed p); [|reflexivity]. exfalso. apply Hnot, Hin. reflexivity. }
  destruct (feed_fed tf i c _ Hlen Hsha [] m eq_refl Hstart)
    as [Hreach' [[Hdone Hdata]|(p' & Hp' & Hcp' & _ & Hall)]].
  - fold m' in Hreach', Hdone, Hdata. auto.
  - exfalso. fold m' in Hreach', Hp'. simpl in Hall.
    pose proof (reachable_invariant tf m' Hreach') as (_ & _ & _ & Hps' & _).
    destruct (Hps' i p' Hp') as [(_ & _ & HL & _ & _ & Hshape & _) _].
    rewrite (completed_flag_reachable tf m' i p' Hreach' Hp') in Hcp' by lia.
    assert (forallb Block.received (Piece.blocks p') = true); [|congruence].
    apply forallb_forall. intros b Hb. apply list_elem_of_In in Hb.
    apply list_elem_of_lookup in Hb as [k Hk]. apply (Hall k b); [|exact Hk].
    apply lookup_lt_Some in Hk.
    assert (length (Piece.blocks p')
            = length (Piece.create_blocks i (get_piece_length tf i))) as <-.
    { unfold Piece.shapes in Hshape.
      rewrite <- HL, <- (length_fmap Block.shape (Piece.blocks p')), Hshape.
      apply length_fmap. }
    exact Hk.
Qed.

End Feeding.

(** * Runs of the further properties on the sample inputs *)
Section MoreSamples.

Lemma done_state_reachable :
  @PieceManager.reachable sample_hash small_torrent done_state.
Proof. apply PieceManager.reachable_exec, small_init_reachable. Qed.

Lemma delivered_state_reachable :
  @PieceManager.reachable sample_hash small_torrent delivered_state.
Proof. do 2 apply PieceManager.reachable_exec. apply small_init_reachable. Qed.

Lemma override_state_reachable :
  @PieceManager.reachable sample_hash small_torrent override_state.
Proof.
  apply (PieceManager.reachable_exec small_torrent
           (PieceManager.SetPiecePriority 1 10)).
  apply (PieceManager.reachable_exec small_torrent
           (PieceManager.SetHighPriorityPiece 1)).
  apply (PieceManager.reachable_exec small_torrent
           (PieceManager.SetHighPriorityPiece 0)).
  apply small_init_reachable.
Qed.

Lemma hollow_init_reachable :
  @PieceManager.reachable sample_hash hollow_torrent (PieceManager.init hollow_torrent).
Proof.
  apply PieceManager.reachable_init. intros i _. simpl. destruct (i =? 0); lia.
Qed.

Lemma fresh_agrees c i L h : 0 <= L → agrees c (Piece.init i L h).
Proof.
  intros HL k b Hk Hr. simpl in Hk.
  destruct (create_blocks_spec i L HL) as (_ & Hall & _).
  rewrite Forall_forall in Hall.
  destruct (Hall b) as [Hb _]; [eapply list_elem_of_lookup_2; eauto|].
  rewrite Hb in Hr. discriminate.
Qed.

Lemma assembled_buffer_witness :
  ∃ p, PieceManager.pieces done_state !! 0 = Some p
       ∧ len (Piece.data p) = 4
       ∧ PieceManager.get_piece_data 0 done_state = Some (payloads (Piece.blocks p))
       ∧ sample_hash (payloads (Piece.blocks p)) = [x01].
Proof.
  destruct (PieceManager.pieces done_state !! 0) as [p|] eqn:Hp;
    [|vm_compute in Hp; discriminate].
  exists p. split; [reflexivity|].
  destruct (@assembled_buffer sample_hash small_torrent done_state 0 p
              done_state_reachable Hp) as (Hlen & _ & Hdone).
  split; [exact Hlen|]. apply Hdone.
  apply (bool_decide_unpack _). vm_compute. exact I.
Defined.

Lemma verified_piece_completes_witness :
  let m := PieceManager.init small_torrent in
  let out := @PieceManager.add_piece_data sample_hash 0 0 [x01; x00; x00; x00] m in
  out.1 = true
  ∧ PieceManager.completed_pieces out.2 = {[0]} ∪ PieceManager.completed_pieces m
  ∧ PieceManager.delivered out.2 = PieceManager.delivered m ++ []
  ∧ PieceManager.get_piece_data 0 out.2
    = Some (Piece.data (@Piece.add_block_data sample_hash 0 [x01; x00; x00; x00]
                          (Piece.init 0 4 [x01])).2).
Proof.
  intros m out.
  destruct (@verified_piece_completes sample_hash small_torrent m 0 0
              [x01; x00; x00; x00] (Piece.init 0 4 [x01]))
    as (Hres & _ & _ & _ & _ & Hset & Hdel & Hdata);
    [exact small_init_reachable|reflexivity..|].
  split; [exact Hres|]. split; [exact Hset|]. split; [exact Hdel|exact Hdata].
Defined.

Lemma rejected_data_changes_nothing_witness :
  (@PieceManager.add_piece_data sample_hash 1 1 [x01; x00] done_state).2 = done_state
  ∧ (@PieceManager.add_piece_data sample_hash 7 0 [x01; x00]
       (PieceManager.init small_torrent)).2 = PieceManager.init small_torrent.
Proof.
  split.
  - apply (@rejected_data_changes_nothing sample_hash 1 1 [x01; x00] done_state).
    reflexivity.
  - apply (@rejected_data_changes_nothing sample_hash 7 0 [x01; x00]).
    reflexivity.
Defined.

Lemma empty_piece_never_completes_witness :
  let m := PieceManager.init hollow_torrent in
  (1 ∉ PieceManager.completed_pieces m)
  ∧ (∀ off d, @PieceManager.add_piece_data sample_hash 1 off d m = (false, m))
  ∧ PieceManager.is_complete m = false.
Proof.
  apply (@empty_piece_never_completes sample_hash hollow_torrent
           (PieceManager.init hollow_torrent) 1 hollow_init_reachable).
  - simpl. lia.
  - reflexivity.
Defined.

Lemma completed_iff_all_received_witness :
  ∃ p, PieceManager.pieces done_state !! 0 = Some p
       ∧ Piece.completed p = Piece.is_complete p
       ∧ (0 ∈ PieceManager.completed_pieces done_state
          ↔ Piece.is_complete p = true).
Proof.
  destruct (PieceManager.pieces done_state !! 0) as [p|] eqn:Hp;
    [|vm_compute in Hp; discriminate].
  exists p. split; [reflexivity|].
  apply (@completed_iff_all_received sample_hash small_torrent done_state 0 p
           done_state_reachable Hp).
  simpl. lia.
Defined.

Lemma request_is_well_formed_witness :
  let m := PieceManager.init small_torrent in
  PieceManager.get_next_request [0; 1] m
  = (Some (0, 0, 4), (PieceManager.get_next_request [0; 1] m).2)
  ∧ 0 ∈ [0; 1] ∧ 0 <= 0 < get_total_pieces small_torrent
  ∧ (0 ∉ PieceManager.completed_pieces m)
  ∧ (∃ k : nat, 0 = BLOCK_SIZE * Z.of_nat k)
  ∧ 0 <= 0 < get_piece_length small_torrent 0
  ∧ 4 = Z.min BLOCK_SIZE (get_piece_length small_torrent 0 - 0).
Proof.
  intros m.
  assert (PieceManager.get_next_request [0; 1] m
          = (Some (0, 0, 4), (PieceManager.get_next_request [0; 1] m).2)) as Hget
    by (rewrite (surjective_pairing (PieceManager.get_next_request [0; 1] m)) at 1;
        reflexivity).
  split; [exact Hget|].
  apply (@request_is_well_formed sample_hash small_torrent [0; 1] m 0 0 4 _
           small_init_reachable Hget).
Defined.

Lemma request_is_not_repeated_witness :
  let m := PieceManager.init small_torrent in
  let m' := (PieceManager.get_next_request [0; 1] m).2 in
  (PieceManager.get_next_request [0; 1] m).1 = Some (0, 0, 4)
  ∧ (PieceManager.get_next_request [0; 1] m').1 ≠ Some (0, 0, 4)
  ∧ (PieceManager.get_next_request [0] m').1 ≠ Some (0, 0, 4).
Proof.
  intros m m'.
  assert (PieceManager.get_next_request [0; 1] m = (Some (0, 0, 4), m')) as Hget
    by (rewrite (surjective_pairing (PieceManager.get_next_request [0; 1] m)) at 1;
        reflexivity).
  split; [reflexivity|]. split.
  - apply (@request_is_not_repeated sample_hash small_torrent [0; 1] [0; 1] m 0 0 4 m'
             small_init_reachable Hget).
  - apply (@request_is_not_repeated sample_hash small_torrent [0; 1] [0] m 0 0 4 m'
             small_init_reachable Hget).
Defined.

Lemma override_starves_others_witness :
  PieceManager.get_next_request [0; 1] starved_state = (None, starved_state)
  ∧ PieceManager.missing_count starved_state 1 = 1.
Proof.
  split; [|reflexivity].
  apply override_starves_others.
  - exists 0. split; apply (bool_decide_unpack _); vm_compute; exact I.
  - intros i Hin Hhp.
    assert (i = 0) as ->.
    { change (PieceManager.high_priority_pieces starved_state)
        with ({[0]} ∪ (∅ : gset Z)) in Hhp.
      apply elem_of_union in Hhp as [Hhp|Hhp];
        [apply elem_of_singleton in Hhp; exact Hhp
        |apply not_elem_of_empty in Hhp as []]. }
    reflexivity.
Defined.

Lemma mark_block_requested_effect_witness :
  let m := PieceManager.init small_torrent in
  let p := Piece.init 0 4 [x01] in
  let b := Block.init 0 0 4 in
  PieceManager.mark_block_requested 0 0 m
  = PieceManager.set_pieces
      (<[0 := Piece.set_blocks
                (<[0%nat := Block.set_requested true b]> (Piece.blocks p)) p]>
         (PieceManager.pieces m)) m
  ∧ PieceManager.mark_block_requested 0 3 m = m
  ∧ PieceManager.mark_block_requested 5 0 m = m.
Proof.
  intros m p b.
  destruct (@mark_block_requested_effect sample_hash small_torrent m 0 0
              small_init_reachable) as [_ Hzero].
  destruct (@mark_block_requested_effect sample_hash small_torrent m 0 3
              small_init_reachable) as [_ Hthree].
  destruct (@mark_block_requested_effect sample_hash small_torrent m 5 0
              small_init_reachable) as [Hfive _].
  split; [|split].
  - apply (Hzero p eq_refl); reflexivity.
  - apply (Hthree p eq_refl). intros b' Hb'. vm_compute in Hb'.
    apply list_elem_of_singleton in Hb'. subst b'. discriminate.
  - apply Hfive. reflexivity.
Defined.

Lemma is_complete_iff_all_witness :
  (PieceManager.is_complete done_state = true
   ↔ ∀ i, 0 <= i < 2 → i ∈ PieceManager.completed_pieces done_state)
  ∧ (size (PieceManager.completed_pieces done_state)
     ≤ size (PieceManager.pieces done_state))%nat.
Proof.
  apply (@is_complete_iff_all sample_hash small_torrent done_state
           done_state_reachable).
Defined.


Lemma priorities_stay_in_range_witness :
  1 <= PieceManager.priority override_state 0 <= 10
  ∧ 1 <= PieceManager.priority override_state 1 <= 10
  ∧ ∀ v, PieceManager.piece_priorities override_state !! 1 = Some v →
         1 <= v <= 10.
Proof.
  pose proof (@priorities_stay_in_range sample_hash small_torrent override_state
                override_state_reachable) as Hrange.
  split; [exact (proj1 (Hrange 0))|].
  split; [exact (proj1 (Hrange 1))|exact (proj2 (Hrange 1))].
Defined.

Lemma high_priority_is_permanent_witness :
  0 ∈ PieceManager.high_priority_pieces
        (foldl (λ m o, @PieceManager.exec sample_hash o m) override_state
           [PieceManager.ResetPieceRequests 0;
            PieceManager.AddPieceData 0 0 [x01; x00; x00; x00];
            PieceManager.SetSequentialDownload false]).
Proof.
  apply (@high_priority_is_permanent sample_hash).
  apply (bool_decide_unpack _). vm_compute. exact I.
Defined.

Lemma few_pieces_sequential_raises_witness :
  PieceManager.set_sequential_download true done_state
  = (Some ZeroDivisionError, done_state).
Proof.
  apply (@few_pieces_sequential_raises sample_hash small_torrent done_state
           done_state_reachable).
  simpl. lia.
Defined.

Lemma check_rate_limit_raises_witness :
  (PieceManager.check_rate_limit float_5_7 1000 early_state).1
  ≠ inl ZeroDivisionError
  ∧ (PieceManager.check_rate_limit float_5_7 (5 * 2 ^ 1024) early_state).1
    = inl OverflowError
  ∧ (PieceManager.check_rate_limit float_5_7 (- (5 * 2 ^ 1024)) early_state).1
    = inl OverflowError
  ∧ (PieceManager.check_rate_limit float_5_7 (5 * 2 ^ 1024) early_state).2
    = (PieceManager.check_rate_limit float_5_7 1000 early_state).2.
Proof.
  exact (@check_rate_limit_raises sample_hash small_torrent early_state
           float_5_7 1000 early_state_reachable).
Defined.

Lemma completion_is_delivered_once_witness :
  PieceManager.delivered delivered_state = [(0, [x01; x00; x00; x00])]
  ∧ NoDup (PieceManager.delivered delivered_state).*1
  ∧ ∀ i d, (i, d) ∈ PieceManager.delivered delivered_state →
           i ∈ PieceManager.completed_pieces delivered_state
           ∧ PieceManager.get_piece_data i delivered_state = Some d
           ∧ sample_hash d = get_piece_hash small_torrent i.
Proof.
  split; [reflexivity|].
  apply (@completion_is_delivered_once sample_hash small_torrent delivered_state
           delivered_state_reachable).
Defined.

Lemma download_stats_consistent_witness :
  ∃ s, get_download_stats done_state = Some s
       ∧ stats_total_pieces s = 2
       ∧ stats_completed_pieces s = 1
       ∧ stats_bytes_downloaded s = 4
       ∧ (∀ l, l ≡ₚ elements (PieceManager.completed_pieces done_state) →
               completed_bytes (PieceManager.pieces done_state) l 0
               = Some (stats_bytes_downloaded s)).
Proof.
  destruct (@download_stats_consistent sample_hash small_torrent done_state
              done_state_reachable)
    as (s & Hs & Htotal & _ & _ & _ & Horder & _).
  exists s. split; [exact Hs|]. split; [exact Htotal|].
  assert (Some s = get_download_stats done_state) as Heq by (symmetry; exact Hs).
  vm_compute in Heq. injection Heq as ->.
  split; [reflexivity|]. split; [reflexivity|exact Horder].
Defined.

Lemma feeding_the_content_completes_witness :
  let m' := @feed sample_hash 0 [x01; x00; x00; x00] (Piece.create_blocks 0 4)
              (PieceManager.init small_torrent) in
  0 ∈ PieceManager.completed_pieces m'
  ∧ PieceManager.get_piece_data 0 m' = Some [x01; x00; x00; x00].
Proof.
  destruct (@feeding_the_content_completes sample_hash small_torrent
              (PieceManager.init small_torrent) 0 [x01; x00; x00; x00])
    as (_ & Hdone & Hdata).
  - exact small_init_reachable.
  - simpl. lia.
  - simpl. lia.
  - reflexivity.
  - reflexivity.
  - apply not_elem_of_empty.
  - intros p Hp. simpl in Hp. rewrite initialize_pieces_lookup in Hp.
    simpl in Hp. injection Hp as <-. apply fresh_agrees. lia.
  - split; [exact Hdone|exact Hdata].
Defined.

End MoreSamples.
